(** * Dominance engine and symbolic state of SVF: a shallow embedding

    The development follows three source files:
    - [lib/AE/Core/SymState.cpp]: the typestate tables and the [SymState]
      constructor;
    - [include/Util/DominantorAnalysis.h] and [DominatorAnalysis.cpp]:
      [DominatorAnalysis::analyze], [computeDominators],
      [computeDominators_classic] and [computePostDominators].

    Loops of the source ([while (change)], the two climbing loops of the
    intersect step, the recursion of [DFSUtil]) are embedded with a fuel
    argument; a run that exhausts its fuel, dereferences the null block or
    indexes a vector out of range yields [None]. The C++ [int] indices are
    embedded as [Z]: the functions analysed have far fewer than [2^31]
    blocks, so no index computation wraps. *)

From stdpp Require Import gmap strings list fin_maps sorting.
From Stdlib Require Import ZArith Lia.

(** ** Typestates and symbolic states ([SymState.cpp]) *)

Module AE.

(** The enumerators that the two tables of [SymState.cpp] mention. *)
Inductive TypeState : Set :=
  | Uinit | Error | Allocated | Freed | Opened.

#[global] Instance TypeState_eq_dec : EqDecision TypeState.
Proof. solve_decision. Defined.

Definition TypeState_to_nat (t : TypeState) : nat :=
  match t with
  | Uinit => 0 | Error => 1 | Allocated => 2 | Freed => 3 | Opened => 4
  end.

Definition TypeState_of_nat (n : nat) : option TypeState :=
  match n with
  | 0 => Some Uinit | 1 => Some Error | 2 => Some Allocated
  | 3 => Some Freed | 4 => Some Opened | _ => None
  end.

#[global] Instance TypeState_countable : Countable TypeState.
Proof.
  refine (inj_countable TypeState_to_nat TypeState_of_nat _).
  intros []; reflexivity.
Defined.

(** [TypeStateParser::_typeMap] (SymState.cpp, lines 32-38). *)
Definition _typeMap : gmap string TypeState :=
  list_to_map
    [ ("$uninit", Uinit);
      ("$error", Error);
      ("Allocated", Allocated);
      ("Freed", Freed);
      ("Opened", Opened) ].

(** [TypeStateParser::_revTypeMap] (SymState.cpp, lines 40-46). *)
Definition _revTypeMap : gmap TypeState string :=
  list_to_map
    [ (Uinit, "$uninit");
      (Error, "$error");
      (Allocated, "Allocated");
      (Freed, "Freed");
      (Opened, "Opened") ].

Inductive ParseError : Set := UnknownLabelError.

(** Modelled from the spec: the lookup functions of [TypeStateParser] are
    declared in [AE/Core/SymState.h], which is not among the sources; only
    the two tables are. [labelToState] looks the label up in [_typeMap] and
    fails with [UnknownLabelError] when it is absent, with no fallback. *)
Definition labelToState (label : string) : ParseError + TypeState :=
  match _typeMap !! label with
  | Some t => inr t
  | None => inl UnknownLabelError
  end.

(** Modelled from the spec: [stateToLabel] reads the canonical label of a
    state off [_revTypeMap]. *)
Definition stateToLabel (t : TypeState) : option string :=
  _revTypeMap !! t.

Section SymState.
(** The abstract execution state and the formula engine are opaque
    collaborators: [ConsExeState], [Z3Expr] and the constant builder
    [Z3Expr::getContext().bool_val]. *)
Variable ConsExeState : Type.
Variable Z3Expr : Type.
Variable bool_val : bool → Z3Expr.

Record SymState : Type := MkSymState {
  _exeState : ConsExeState;
  _typeState : TypeState;
  _branchCondition : Z3Expr
}.

(** [SymState::SymState(ConsExeState es, TypeState ts)]
    (SymState.cpp, lines 48-52). *)
Definition newSymState (es : ConsExeState) (ts : TypeState) : SymState :=
  {| _exeState := es;
     _typeState := ts;
     _branchCondition := bool_val true |}.
End SymState.

End AE.

(** ** The dominance engine ([DominatorAnalysis.cpp]) *)

Module Dominance.

Local Open Scope Z_scope.

(** A basic block is an opaque reference compared by identity; a value of
    type [const SVFBasicBlock*] is [Some b] for a block of the function and
    [None] for [nullptr]. *)
Definition BB : Set := nat.
Abbreviation BBPtr := (option BB).
Abbreviation BBSet := (gset (option BB)).
Abbreviation DominatorMap := (gmap (option BB) (gset (option BB))).

(** The view of [SVFFunction] that the analysis reads. *)
Record SVFFunction : Type := MkFunction {
  getBasicBlockList : list BB;
  getEntryBlock : BB;
  getSuccessors : BB → list BB;
  getPredecessors : BB → list BB
}.

(** The dominance result [func->svfLoopAndDom] that the analysis writes. *)
Record SVFLoopAndDomInfo : Type := MkLoopAndDom {
  getDomTreeMap : DominatorMap;
  getPostDomTreeMap : DominatorMap
}.

(** [v[i]] on a [std::vector] with an [int] index; out of range is
    undefined behaviour in the source and [None] here. *)
Definition at_ {A : Type} (v : list A) (i : Z) : option A :=
  if decide (0 ≤ i) then v !! Z.to_nat i else None.

(** [m[k]] on a [Map<const SVFBasicBlock*, u32_t>]: a missing key reads as
    the value-initialised [0]. *)
Definition idxOf (bbToIdx : gmap BBPtr Z) (b : BBPtr) : Z :=
  default 0 (bbToIdx !! b).

(** [m[k].insert(v)] on a dominator map. *)
Definition insertEdge (m : DominatorMap) (k v : BBPtr) : DominatorMap :=
  <[k := {[v]} ∪ default ∅ (m !! k)]> m.

(** *** Depth-first numbering *)

(** The state shared by the recursive lambda: the [reachable] set and the
    vector [revPostOrder], which holds the postorder until it is reversed. *)
Definition DFSState : Type := gset BB * list BB.

(** The loop [for (succ : next(v)) if (!reachable.count(succ)) DFSUtil(succ)]. *)
Fixpoint visitAll (rec : BB → DFSState → option DFSState)
    (l : list BB) (st : DFSState) : option DFSState :=
  match l with
  | [] => Some st
  | s :: l' =>
      if decide (s ∈ st.1) then visitAll rec l' st
      else st' ← rec s st; visitAll rec l' st'
  end.

(** The lambda [DFSUtil] (lines 121-133 with [next := getSuccessors],
    lines 431-444 with [next := getPredecessors]). *)
Fixpoint DFSUtil (next : BB → list BB) (fuel : nat) (v : BB)
    (st : DFSState) : option DFSState :=
  match fuel with
  | O => None
  | S fuel' =>
      st' ← visitAll (DFSUtil next fuel') (next v) ({[v]} ∪ st.1, st.2);
      Some (st'.1, st'.2 ++ [v])
  end.

(** The loop [for (bb : exitBBs) DFSUtil(bb)] of lines 450-451: no
    [reachable] test guards the call. *)
Fixpoint DFSFrom (next : BB → list BB) (fuel : nat) (roots : list BB)
    (st : DFSState) : option DFSState :=
  match roots with
  | [] => Some st
  | r :: roots' => st' ← DFSUtil next fuel r st; DFSFrom next fuel roots' st'
  end.

(** The loop [for (i = 0; i < size; ++i) bbToIdx[revPostOrder[i]] = i]. *)
Fixpoint buildIdx (order : list BBPtr) (i : Z) (m : gmap BBPtr Z)
    : gmap BBPtr Z :=
  match order with
  | [] => m
  | b :: order' => buildIdx order' (i + 1) (<[b := i]> m)
  end.

(** *** The fixed-point loop of Cooper, Harvey and Kennedy

    Lines 159-197 and lines 475-519 are the same loop: the first walks the
    predecessors of a block, the second its successors, with the null block
    standing for the successor of an exit block. [neighbours] is that
    choice; it fails on the null block, which the source would dereference. *)
Section FixedPoint.
Variable revPostOrder : list BBPtr.
Variable reachable : BBSet.
Variable bbToIdx : gmap BBPtr Z.
Variable neighbours : BBPtr → option (list BBPtr).
Variable root : Z.
Variable fuel : nat.

(** [while (B1 > B2) B1 = IDoms[B1];] *)
Fixpoint climb (k : nat) (IDoms : list Z) (B1 B2 : Z) : option Z :=
  match k with
  | O => None
  | S k' =>
      if decide (B1 > B2) then b ← at_ IDoms B1; climb k' IDoms b B2
      else Some B1
  end.

(** [while (B1 != B2) { climb B1; climb B2; }], yielding [B1]. *)
Fixpoint intersect (k : nat) (IDoms : list Z) (B1 B2 : Z) : option Z :=
  match k with
  | O => None
  | S k' =>
      if decide (B1 ≠ B2) then
        b1 ← climb fuel IDoms B1 B2;
        b2 ← climb fuel IDoms B2 b1;
        intersect k' IDoms b1 b2
      else Some B1
  end.

(** One iteration of the loop over the neighbours of block [i]. *)
Definition meetOne (IDoms : list Z) (new_idom : Z) (predBB : BBPtr)
    : option Z :=
  if decide (predBB ∈ reachable) then
    let pred := idxOf bbToIdx predBB in
    d ← at_ IDoms pred;
    if decide (d = -1) then Some new_idom
    else if decide (new_idom = -1) then Some pred
    else intersect fuel IDoms new_idom pred
  else Some new_idom.

Fixpoint meetAll (IDoms : list Z) (new_idom : Z) (l : list BBPtr)
    : option Z :=
  match l with
  | [] => Some new_idom
  | p :: l' => x ← meetOne IDoms new_idom p; meetAll IDoms x l'
  end.

(** The body of [for (int i = 0; i < n; i++)]; the state is the vector
    [IDoms] and the flag [change]. *)
Definition visitNode (i : Z) (st : list Z * bool) : option (list Z * bool) :=
  if decide (i = root) then Some st
  else
    b ← at_ revPostOrder i;
    nbrs ← neighbours b;
    new_idom ← meetAll st.1 (-1) nbrs;
    cur ← at_ st.1 i;
    if decide (cur ≠ new_idom)
    then Some (<[Z.to_nat i := new_idom]> st.1, true)
    else Some st.

(** [k] iterations of the [for] loop, starting at index [i]. *)
Fixpoint sweep (k : nat) (i : Z) (st : list Z * bool)
    : option (list Z * bool) :=
  match k with
  | O => Some st
  | S k' => st' ← visitNode i st; sweep k' (i + 1) st'
  end.

(** [while (change) { change = false; for ... }]. *)
Fixpoint iterate (k : nat) (IDoms : list Z) : option (list Z) :=
  match k with
  | O => None
  | S k' =>
      '(IDoms', change) ← sweep (length revPostOrder) 0 (IDoms, false);
      if (change : bool) then iterate k' IDoms' else Some IDoms'
  end.

(** [vector<int> IDoms(n, -1); IDoms[root] = root;] followed by the loop. *)
Definition solve : option (list Z) :=
  iterate fuel
    (<[Z.to_nat root := root]> (replicate (length revPostOrder) (-1))).

(** The loops that fill the tree map (lines 202-209, 406-413 and
    524-531). [keep i d] is the test the loop makes on [d = IDoms[i]]. *)
Definition publishOne (keep : Z → Z → bool) (IDoms : list Z) (i : Z)
    (m : DominatorMap) : option DominatorMap :=
  d ← at_ IDoms i;
  if keep i d then
    k ← at_ revPostOrder d;
    v ← at_ revPostOrder i;
    Some (insertEdge m k v)
  else Some m.

Fixpoint publish (keep : Z → Z → bool) (IDoms : list Z) (k : nat) (i : Z)
    (m : DominatorMap) : option DominatorMap :=
  match k with
  | O => Some m
  | S k' =>
      m' ← publishOne keep IDoms i m;
      publish keep IDoms k' (i + 1) m'
  end.
End FixedPoint.

(** *** The classical set-intersection loop

    Lines 317-401. A [std::set<int>] is a finite set of integers that is
    walked in ascending order. *)
Section Classic.
Variable revPostOrder : list BBPtr.
Variable reachable : BBSet.
Variable bbToIdx : gmap BBPtr Z.
Variable neighbours : BBPtr → option (list BBPtr).
Variable root : Z.

(** Lines 327-341: the root starts with itself, every other block with
    all the indices. *)
Definition initialDominators : list (gset Z) :=
  (λ i : Z, if decide (i = root) then {[i]}
            else list_to_set (seqZ 0 (Z.of_nat (length revPostOrder))))
    <$> seqZ 0 (Z.of_nat (length revPostOrder)).

(** Lines 356-374, one predecessor; the state is [newDom] and the flag
    [firstPred]. *)
Definition joinOne (dominators : list (gset Z)) (acc : gset Z * bool)
    (predBB : BBPtr) : option (gset Z * bool) :=
  if decide (predBB ∈ reachable) then
    s ← at_ dominators (idxOf bbToIdx predBB);
    if acc.2 then Some (s, false) else Some (acc.1 ∩ s, false)
  else Some acc.

Fixpoint joinAll (dominators : list (gset Z)) (acc : gset Z * bool)
    (l : list BBPtr) : option (gset Z * bool) :=
  match l with
  | [] => Some acc
  | p :: l' => acc' ← joinOne dominators acc p; joinAll dominators acc' l'
  end.

(** The body of the loop of lines 347-383. *)
Definition refineNode (i : Z) (st : list (gset Z) * bool)
    : option (list (gset Z) * bool) :=
  if decide (i = root) then Some st
  else
    b ← at_ revPostOrder i;
    nbrs ← neighbours b;
    acc ← joinAll st.1 (∅, true) nbrs;
    cur ← at_ st.1 i;
    let newDom : gset Z := {[i]} ∪ acc.1 in
    if decide (newDom ≠ cur)
    then Some (<[Z.to_nat i := newDom]> st.1, true)
    else Some st.

Fixpoint refineSweep (k : nat) (i : Z) (st : list (gset Z) * bool)
    : option (list (gset Z) * bool) :=
  match k with
  | O => Some st
  | S k' => st' ← refineNode i st; refineSweep k' (i + 1) st'
  end.

Fixpoint refine (k : nat) (dominators : list (gset Z))
    : option (list (gset Z)) :=
  match k with
  | O => None
  | S k' =>
      st ← refineSweep (length revPostOrder) 0 (dominators, false);
      if (st.2 : bool) then refine k' st.1 else Some st.1
  end.

(** Lines 395-399: the test made on one member [dom] of [dominators[u]];
    [cur] is [IDoms[u]]. The sizes are read only when [cur] is set. *)
Definition closer (dominators : list (gset Z)) (u cur dom : Z) : option Z :=
  if decide (dom ≠ u) then
    if decide (cur = -1) then Some dom
    else
      sd ← at_ dominators dom;
      sc ← at_ dominators cur;
      if decide (size sc < size sd)%nat then Some dom else Some cur
  else Some cur.

Fixpoint closest (dominators : list (gset Z)) (u cur : Z) (l : list Z)
    : option Z :=
  match l with
  | [] => Some cur
  | dom :: l' => c ← closer dominators u cur dom; closest dominators u c l'
  end.

(** The members of a [std::set<int>] in the order a range-for meets them. *)
Definition ascending (s : gset Z) : list Z := merge_sort Z.le (elements s).

(** Lines 387-401, one block [u]. *)
Definition pickIDom (dominators : list (gset Z)) (u : Z) : option Z :=
  if decide (u = root) then Some (-1)
  else s ← at_ dominators u; closest dominators u (-1) (ascending s).

Definition classicSolve (fuel : nat) : option (list Z) :=
  dominators ← refine fuel initialDominators;
  mapM (pickIDom dominators) (seqZ 0 (Z.of_nat (length revPostOrder))).
End Classic.

(** [IDoms[i] != -1 && i != IDoms[i]] (line 204). *)
Definition keepDom (i d : Z) : bool :=
  bool_decide (d ≠ -1) && bool_decide (i ≠ d).

(** [IPdoms[i] != 0 && IPdoms[i] != -1 && i != IPdoms[i]] (line 526). *)
Definition keepPostDom (i d : Z) : bool :=
  bool_decide (d ≠ 0) && bool_decide (d ≠ -1) && bool_decide (i ≠ d).

(** [IDoms[i] != -1] (line 408). *)
Definition keepClassic (i d : Z) : bool :=
  bool_decide (d ≠ -1).

(** [getPredecessors] through a block pointer. *)
Definition predsOf (f : SVFFunction) (b : BBPtr) : option (list BBPtr) :=
  match b with
  | Some b => Some (Some <$> getPredecessors f b)
  | None => None
  end.

(** Lines 484-488: the successors of a block, or the null block alone when
    the block has none. *)
Definition succsOrExit (f : SVFFunction) (b : BBPtr) : option (list BBPtr) :=
  match b with
  | Some b =>
      match getSuccessors f b with
      | [] => Some [None]
      | l => Some (Some <$> l)
      end
  | None => None
  end.

(** Lines 114-145: the reverse postorder from the entry block, with the
    set of blocks it reached. *)
Definition entryOrder (fuel : nat) (f : SVFFunction)
    : option (BBSet * list BBPtr) :=
  st ← DFSUtil (getSuccessors f) fuel (getEntryBlock f) (∅, []);
  Some (set_map (Some : BB → BBPtr) st.1, Some <$> reverse st.2).

(** [DominatorAnalysis::computeDominators] (lines 112-217) up to the
    vector [IDoms]. *)
Definition fastIDoms (fuel : nat) (f : SVFFunction)
    : option (list BBPtr * list Z) :=
  '(reachable, revPostOrder) ← entryOrder fuel f;
  let bbToIdx := buildIdx revPostOrder 0 ∅ in
  let root := idxOf bbToIdx (Some (getEntryBlock f)) in
  IDoms ← solve revPostOrder reachable bbToIdx (predsOf f) root fuel;
  Some (revPostOrder, IDoms).

(** [DominatorAnalysis::computeDominators] (lines 112-217); [dtBBsMap] is
    the map the function already holds. *)
Definition computeDominators (fuel : nat) (f : SVFFunction)
    (dtBBsMap : DominatorMap) : option DominatorMap :=
  '(revPostOrder, IDoms) ← fastIDoms fuel f;
  publish revPostOrder keepDom IDoms (length revPostOrder) 0 dtBBsMap.

(** [DominatorAnalysis::computeDominators_classic] (lines 274-414) up to
    the vector [IDoms]. *)
Definition classicIDoms (fuel : nat) (f : SVFFunction)
    : option (list BBPtr * list Z) :=
  '(reachable, revPostOrder) ← entryOrder fuel f;
  let bbToIdx := buildIdx revPostOrder 0 ∅ in
  let root := idxOf bbToIdx (Some (getEntryBlock f)) in
  IDoms ← classicSolve revPostOrder reachable bbToIdx (predsOf f) root fuel;
  Some (revPostOrder, IDoms).

(** [DominatorAnalysis::computeDominators_classic] up to the end of its
    [while (change)] loop (lines 274-383): the order and the vector
    [dominators]. *)
Definition classicDoms (fuel : nat) (f : SVFFunction)
    : option (list BBPtr * list (gset Z)) :=
  '(reachable, revPostOrder) ← entryOrder fuel f;
  let bbToIdx := buildIdx revPostOrder 0 ∅ in
  let root := idxOf bbToIdx (Some (getEntryBlock f)) in
  dominators ← refine revPostOrder reachable bbToIdx (predsOf f) root fuel
                 (initialDominators revPostOrder root);
  Some (revPostOrder, dominators).

(** [DominatorAnalysis::computeDominators_classic] (lines 274-414). *)
Definition computeDominators_classic (fuel : nat) (f : SVFFunction)
    (dtBBsMap : DominatorMap) : option DominatorMap :=
  '(revPostOrder, IDoms) ← classicIDoms fuel f;
  publish revPostOrder keepClassic IDoms (length revPostOrder) 0 dtBBsMap.

(** Lines 423-428: the blocks with no successor. *)
Definition exitBBs (f : SVFFunction) : gset BB :=
  list_to_set (filter (λ b, getSuccessors f b = []) (getBasicBlockList f)).

(** Lines 418-461: the reverse postorder of the reversed graph from the
    exit blocks, with the null block put in front. The unordered set
    [exitBBs] is walked in the order [elements] gives. *)
Definition exitOrder (fuel : nat) (f : SVFFunction)
    : option (BBSet * list BBPtr) :=
  st ← DFSFrom (getPredecessors f) fuel (elements (exitBBs f)) (∅, []);
  Some ({[None]} ∪ set_map (Some : BB → BBPtr) st.1,
        None :: (Some <$> reverse st.2)).

(** [DominatorAnalysis::computePostDominators] (lines 416-539) up to the
    vector [IPdoms]. *)
Definition fastIPdoms (fuel : nat) (f : SVFFunction)
    : option (list BBPtr * list Z) :=
  '(reachable, revPostOrder) ← exitOrder fuel f;
  let bbToIdx := buildIdx revPostOrder 0 ∅ in
  IPdoms ← solve revPostOrder reachable bbToIdx (succsOrExit f) 0 fuel;
  Some (revPostOrder, IPdoms).

(** [DominatorAnalysis::computePostDominators] (lines 416-539). *)
Definition computePostDominators (fuel : nat) (f : SVFFunction)
    (pdtBBsMap : DominatorMap) : option DominatorMap :=
  '(revPostOrder, IPdoms) ← fastIPdoms fuel f;
  publish revPostOrder keepPostDom IPdoms (length revPostOrder - 1) 1 pdtBBsMap.

(** [DominatorAnalysis::analyze] (lines 58-64). *)
Definition analyze (fuel : nat) (f : SVFFunction) (r : SVFLoopAndDomInfo)
    : option SVFLoopAndDomInfo :=
  dt ← computeDominators fuel f (getDomTreeMap r);
  pdt ← computePostDominators fuel f (getPostDomTreeMap r);
  Some {| getDomTreeMap := dt; getPostDomTreeMap := pdt |}.

(** *** The diagnostics

    [dumpDominatorMap] (lines 75-96) and [differentialTesting] (lines
    228-265). The text written to [cout] is a string; [ABORT_IFNOT] ends the
    run with its message, which is built only when the test fails. A
    [Map] and a [Set] are walked in the order [map_to_list] and [elements]
    give. Reading the name of the null block is undefined behaviour in the
    source and [None] here. *)

(** How a run that writes text ends: it returns, or it calls [abort()]
    after [ERR_MSG] has reported [msg]. *)
Inductive Run : Type :=
  | Returns (out : string)
  | Aborts (out : string) (msg : string).

Section Diagnostics.
(** [SVFBasicBlock::getName] and the name of the function analysed. *)
Variable getName : BB → string.
Variable funcName : string.

(** [endl]. *)
Definition endl : string := String (Ascii.ascii_of_nat 10) EmptyString.

(** Lines 86-92: the names of the blocks of a set, the null block being
    passed over. *)
Definition dumpChildren (bbSet : BBSet) : string :=
  foldr (λ (dominatedBB : BBPtr) (rest : string),
           match dominatedBB with
           | Some b => getName b +:+ " " +:+ rest
           | None => rest
           end)
        EmptyString (elements bbSet).

(** Lines 79-94: what one entry of the map prints. *)
Definition dumpEntry (entry : BBPtr * BBSet) : option string :=
  bb ← entry.1;
  Some (getName bb +:+ " dominates:" +:+ endl
        +:+ "{ " +:+ dumpChildren entry.2 +:+ "}" +:+ endl).

Fixpoint dumpEntries (l : list (BBPtr * BBSet)) : option string :=
  match l with
  | [] => Some EmptyString
  | entry :: l' =>
      s ← dumpEntry entry; rest ← dumpEntries l'; Some (s +:+ rest)
  end.

(** [DominatorAnalysis::dumpDominatorMap] (lines 75-96). *)
Definition dumpDominatorMap (domMap : DominatorMap) : option string :=
  dumpEntries (map_to_list domMap).

(** Lines 252-264, one entry [(dom, children)] of [llvmMap]: [Some None]
    when both tests pass, [Some (Some msg)] when one aborts. *)
Definition checkEntry (svfMap : DominatorMap) (entry : BBPtr * BBSet)
    : option (option string) :=
  match svfMap !! entry.1 with
  | None =>
      dom ← entry.1;
      Some (Some (getName dom +:+ " not found in svfMap"))
  | Some s =>
      if decide (s = entry.2) then Some None
      else
        dom ← entry.1;
        Some (Some (getName dom +:+ "'s children are different"))
  end.

Fixpoint checkEntries (svfMap : DominatorMap) (l : list (BBPtr * BBSet))
    : option (option string) :=
  match l with
  | [] => Some None
  | entry :: l' =>
      r ← checkEntry svfMap entry;
      match r with
      | Some msg => Some (Some msg)
      | None => checkEntries svfMap l'
      end
  end.

Definition sep : string := "===================================".

(** [DominatorAnalysis::differentialTesting] (lines 228-265). *)
Definition differentialTesting (llvmMap svfMap : DominatorMap)
    : option Run :=
  svfText ← dumpDominatorMap svfMap;
  llvmText ← dumpDominatorMap llvmMap;
  let out :=
    endl +:+ "Function: " +:+ funcName +:+ endl
    +:+ "SVFMap:" +:+ sep +:+ endl +:+ svfText
    +:+ "LLVMMap:" +:+ sep +:+ endl +:+ llvmText
    +:+ sep +:+ endl in
  if decide (size llvmMap = size svfMap) then
    r ← checkEntries svfMap (map_to_list llvmMap);
    match r with
    | None => Some (Returns out)
    | Some msg => Some (Aborts out msg)
    end
  else Some (Aborts out "different size").
End Diagnostics.

(** *** Vocabulary of the specification *)

(** What the analysis expects of the graph it is given: the entry block
    belongs to the function, the successor and predecessor lists stay
    inside the function, and they describe the same edges. *)
Definition wfCFG (f : SVFFunction) : bool :=
  bool_decide (getEntryBlock f ∈ getBasicBlockList f)
  && forallb (λ b,
       forallb (λ s, bool_decide (s ∈ getBasicBlockList f)
                     && bool_decide (b ∈ getPredecessors f s))
         (getSuccessors f b)
       && forallb (λ p, bool_decide (p ∈ getBasicBlockList f)
                        && bool_decide (b ∈ getSuccessors f p))
            (getPredecessors f b))
     (getBasicBlockList f).

(** An edge of the control-flow graph. *)
Definition cfgEdge (f : SVFFunction) (a b : BB) : Prop :=
  b ∈ getSuccessors f a.

(** [walk f b W]: [W] lists, last block first, the blocks of a path of the
    graph from the entry block to [b]. *)
Inductive walk (f : SVFFunction) : BB → list BB → Prop :=
  | walk_entry : walk f (getEntryBlock f) [getEntryBlock f]
  | walk_step a b W : walk f a W → cfgEdge f a b → walk f b (b :: W).

(** [d] dominates [b]: every path from the entry block to [b] meets [d]. *)
Definition dominates (f : SVFFunction) (d b : BB) : Prop :=
  ∀ W, walk f b W → d ∈ W.

Definition reachableFromEntry (f : SVFFunction) (b : BB) : Prop :=
  rtc (cfgEdge f) (getEntryBlock f) b.

Definition isExit (f : SVFFunction) (e : BB) : Prop :=
  e ∈ getBasicBlockList f ∧ getSuccessors f e = [].

Definition reachesExit (f : SVFFunction) (b : BB) : Prop :=
  ∃ e, isExit f e ∧ rtc (cfgEdge f) b e.

(** [exitWalk f b P]: [P] lists, first block first, the blocks of a path
    of the graph from [b] to an exit block. *)
Inductive exitWalk (f : SVFFunction) : BB → list BB → Prop :=
  | exitWalk_exit e : isExit f e → exitWalk f e [e]
  | exitWalk_step a b P : exitWalk f b P → cfgEdge f a b → exitWalk f a (a :: P).

(** [d] post-dominates [b]: every path from [b] to an exit block meets
    [d]. *)
Definition postDominates (f : SVFFunction) (d b : BB) : Prop :=
  ∀ P, exitWalk f b P → d ∈ P.

(** [d] is the closest strict dominator of [b]: the entry block reaches
    [b], [d] is a dominator of [b] other than [b], and every such
    dominator dominates [d]. *)
Definition closestDom (f : SVFFunction) (d b : BB) : Prop :=
  reachableFromEntry f b ∧ d ≠ b ∧ dominates f d b
  ∧ ∀ x, dominates f x b → x ≠ b → dominates f x d.

(** [d] is the closest strict post-dominator of the block [b], which
    reaches an exit block. *)
Definition closestPostDom (f : SVFFunction) (d b : BB) : Prop :=
  b ∈ getBasicBlockList f ∧ reachesExit f b ∧ d ≠ b ∧ postDominates f d b
  ∧ ∀ x, postDominates f x b → x ≠ b → postDominates f x d.

(** Two views of one graph: the same entry block, the same blocks and the
    same edges, the lists being in any order. *)
Definition sameGraph (f f' : SVFFunction) : Prop :=
  getEntryBlock f = getEntryBlock f'
  ∧ (∀ b, b ∈ getBasicBlockList f ↔ b ∈ getBasicBlockList f')
  ∧ (∀ a b, b ∈ getSuccessors f a ↔ b ∈ getSuccessors f' a).

(** [child m d b]: the map holds the edge from parent [d] to child [b]. *)
Definition child (m : DominatorMap) (d b : BBPtr) : Prop :=
  ∃ s, m !! d = Some s ∧ b ∈ s.

(** [b] occurs in the map, as a key or in a child set. *)
Definition occurs (m : DominatorMap) (b : BBPtr) : Prop :=
  is_Some (m !! b) ∨ ∃ d, child m d b.

(** The parent-child edges of a map, as a set of pairs. *)
Definition edgeSet (m : DominatorMap) : gset (BBPtr * BBPtr) :=
  list_to_set (map_to_list m ≫= λ ks, pair ks.1 <$> elements ks.2).

(** The map holds no cycle of parent-child edges. *)
Definition acyclic (m : DominatorMap) : Prop :=
  ∀ b, ¬ tc (child m) b b.

(** [treeDom m a b]: [a] is [b] or an ancestor of [b] in the tree [m]. *)
Definition treeDom (m : DominatorMap) (a b : BBPtr) : Prop :=
  rtc (child m) a b.

(** A dominance result that nothing has been written to. *)
Definition emptyInfo : SVFLoopAndDomInfo :=
  {| getDomTreeMap := ∅; getPostDomTreeMap := ∅ |}.

(** A dominance result that an earlier run has left on the diamond below,
    made when A (1) was the only block leading to C (3): A is recorded as
    the immediate dominator of C. *)
Definition staleInfo : SVFLoopAndDomInfo :=
  {| getDomTreeMap := {[Some 1%nat := {[Some 3%nat]}]};
     getPostDomTreeMap := ∅ |}.

(** The diamond: Entry (0) branches to A (1) and B (2), which join in
    C (3), which falls to Exit (4). *)
Definition diamond : SVFFunction :=
  {| getBasicBlockList := [0; 1; 2; 3; 4]%nat;
     getEntryBlock := 0%nat;
     getSuccessors := λ b,
       match b with
       | 0 => [1; 2] | 1 => [3] | 2 => [3] | 3 => [4] | _ => []
       end%nat;
     getPredecessors := λ b,
       match b with
       | 1 => [0] | 2 => [0] | 3 => [1; 2] | 4 => [3] | _ => []
       end%nat |}.

(** The dominator map of the diamond, as a reference tool would give it,
    and a map of the same size in which C (3) is missing below Entry. *)
Definition diamondDoms : DominatorMap :=
  {[Some 0%nat := {[Some 1%nat; Some 2%nat; Some 3%nat]};
    Some 3%nat := {[Some 4%nat]}]}.

Definition diamondDomsShort : DominatorMap :=
  {[Some 0%nat := {[Some 1%nat; Some 2%nat]};
    Some 3%nat := {[Some 4%nat]}]}.

(** The post-dominator map of the diamond: Exit (4) above C (3), and C
    above Entry, A and B. *)
Definition diamondPostDoms : DominatorMap :=
  {[Some 4%nat := {[Some 3%nat]};
    Some 3%nat := {[Some 0%nat; Some 1%nat; Some 2%nat]}]}.

(** The diamond with its blocks and the lists of Entry and of C given in
    another order. *)
Definition diamondSwapped : SVFFunction :=
  {| getBasicBlockList := [4; 3; 2; 1; 0]%nat;
     getEntryBlock := 0%nat;
     getSuccessors := λ b,
       match b with
       | 0 => [2; 1] | 1 => [3] | 2 => [3] | 3 => [4] | _ => []
       end%nat;
     getPredecessors := λ b,
       match b with
       | 1 => [0] | 2 => [0] | 3 => [2; 1] | 4 => [3] | _ => []
       end%nat |}.

(** An entry block (0) that branches to two exit blocks E1 (1) and E2 (2). *)
Definition twoExits : SVFFunction :=
  {| getBasicBlockList := [0; 1; 2]%nat;
     getEntryBlock := 0%nat;
     getSuccessors := λ b, match b with 0 => [1; 2] | _ => [] end%nat;
     getPredecessors := λ b,
       match b with 1 => [0] | 2 => [0] | _ => [] end%nat |}.

(** An irreducible loop with a block that the entry does not reach: the
    entry (0) branches into both blocks of the loop between 1 and 2,
    1 leaves to 3, and 4 is a block with an edge to 3 that nothing
    leads to. *)
Definition twoEntryLoop : SVFFunction :=
  {| getBasicBlockList := [0; 1; 2; 3; 4]%nat;
     getEntryBlock := 0%nat;
     getSuccessors := λ b,
       match b with
       | 0 => [1; 2] | 1 => [2; 3] | 2 => [1] | 4 => [3] | _ => []
       end%nat;
     getPredecessors := λ b,
       match b with
       | 1 => [0; 2] | 2 => [0; 1] | 3 => [1; 4] | _ => []
       end%nat |}.

(** The same loop without the block 4 that nothing leads to. *)
Definition twoEntryLoopAlone : SVFFunction :=
  {| getBasicBlockList := [0; 1; 2; 3]%nat;
     getEntryBlock := 0%nat;
     getSuccessors := λ b,
       match b with
       | 0 => [1; 2] | 1 => [2; 3] | 2 => [1] | _ => []
       end%nat;
     getPredecessors := λ b,
       match b with
       | 1 => [0; 2] | 2 => [0; 1] | 3 => [1] | _ => []
       end%nat |}.

(** Entry block 0 branches to block 1, which only loops on itself, and to
    the exit block 2; block 3 also jumps to block 2 and nothing leads to it. *)
Definition deadEnds : SVFFunction :=
  {| getBasicBlockList := [0; 1; 2; 3]%nat;
     getEntryBlock := 0%nat;
     getSuccessors := λ b,
       match b with
       | 0 => [1; 2] | 1 => [1] | 3 => [2] | _ => []
       end%nat;
     getPredecessors := λ b,
       match b with
       | 1 => [0; 1] | 2 => [0; 3] | _ => []
       end%nat |}.

(** *** Vocabulary of the proofs: what the publishing loop inserts *)

(** The loop over the indices from [lo] up to [hi] inserts the edge from
    [k] to [v]. *)
Definition published (order : list BBPtr) (keep : Z → Z → bool)
    (I : list Z) (lo hi : Z) (k v : BBPtr) : Prop :=
  ∃ j d, lo ≤ j < hi ∧ at_ I j = Some d ∧ keep j d = true
         ∧ at_ order d = Some k ∧ at_ order j = Some v.

(** The order [computeDominators] works on, given the postorder
    [seg' ++ [entry]] of its visit. *)
Definition domOrder (f : SVFFunction) (seg' : list BB) : list BBPtr :=
  Some <$> reverse (seg' ++ [getEntryBlock f]).

(** The order [computePostDominators] works on, given the postorder [seg]
    of its visit. *)
Definition postOrder (seg : list BB) : list BBPtr :=
  None :: (Some <$> reverse seg).

(** *** Vocabulary of the proofs: what a depth-first visit appends *)

(** [w] occurs before [u] in [l]. *)
Definition before (l : list BB) (w u : BB) : Prop :=
  ∃ l1 l2 l3, l = l1 ++ w :: l2 ++ u :: l3.

Definition stepTo (next : BB → list BB) (a b : BB) : Prop := b ∈ next a.

(** The blocks [seg] that a visit started on [tops] appends to the
    postorder when [R] was already marked: each is new and is appended
    once, each is a start block or is appended before a block that lists
    it, the blocks they list are all marked in the end, and each is reached
    from a start block. *)
Definition DFSSeg (next : BB → list BB) (tops : list BB) (R : gset BB)
    (seg : list BB) : Prop :=
  NoDup seg
  ∧ (∀ x, x ∈ seg → x ∉ R)
  ∧ (∀ w, w ∈ seg → w ∈ tops ∨ ∃ u, w ∈ next u ∧ before seg w u)
  ∧ (∀ u s, u ∈ seg → s ∈ next u → s ∈ R ∨ s ∈ seg)
  ∧ (∀ x, x ∈ seg → ∃ t, t ∈ tops ∧ rtc (stepTo next) t x).

(** What [DFSUtil] does with fuel [f] on the blocks [U]. *)
Definition DFSUtil_ok (next : BB → list BB) (U : gset BB) (f : nat) : Prop :=
  ∀ v R post, v ∈ U → v ∉ R → (size (U ∖ R) < f)%nat →
    ∃ seg', DFSUtil next f v (R, post) =
              Some (R ∪ list_to_set (seg' ++ [v]), post ++ seg' ++ [v])
            ∧ DFSSeg next [v] R (seg' ++ [v]).

(** *** Vocabulary of the proofs: the graph on reverse-postorder indices *)

(** [anc IDoms a v]: following [IDoms] upwards from index [v] meets [a]. *)
Inductive anc (IDoms : list Z) : Z → Z → Prop :=
  | anc_refl v : anc IDoms v v
  | anc_up a v d :
      at_ IDoms v = Some d → 0 ≤ d → anc IDoms a d → anc IDoms a v.

(** Slot [0] holds the root; every other slot is unset or points to a
    smaller index whose own slot is set. *)
Definition Tree (n : Z) (I : list Z) : Prop :=
  Z.of_nat (length I) = n
  ∧ at_ I 0 = Some 0
  ∧ ∀ v d, 0 < v < n → at_ I v = Some d →
      d = -1 ∨ (0 ≤ d < v ∧ at_ I d ≠ Some (-1)).

(** Slot [v] has been given an immediate dominator. *)
Definition assigned (I : list Z) (v : Z) : Prop :=
  ∃ d, at_ I v = Some d ∧ d ≠ -1.

(** [a] is a common ancestor of [acc] (when set) and of the assigned
    indices among [ps]. *)
Definition common (I : list Z) (acc : Z) (ps : list Z) (a : Z) : Prop :=
  (acc ≠ -1 → anc I a acc) ∧ ∀ p, p ∈ ps → assigned I p → anc I a p.

(** [inDom D v x]: [x] is a member of [dominators[v]]. *)
Definition inDom (D : list (gset Z)) (v x : Z) : Prop :=
  ∃ s, at_ D v = Some s ∧ x ∈ s.

(** The number of members of all the sets together; every change that the
    classical loop makes lowers it. *)
Definition weight (D : list (gset Z)) : nat := sum_list (size <$> D).

(** The vector that the last loop of the classical algorithm fills from
    the tree [I] of the fast one: the root keeps [-1]. *)
Definition classicSlots (n : Z) (I : list Z) : list Z :=
  (λ u : Z, if decide (u = 0) then -1 else default (-1) (at_ I u))
    <$> seqZ 0 n.

Section IndexGraph.
Variable revPostOrder : list BBPtr.
Variable reachable : BBSet.
Variable bbToIdx : gmap BBPtr Z.
Variable neighbours : BBPtr → option (list BBPtr).

(** The indices that the loop over the neighbours of a block reads. *)
Definition idxsOf (nbrs : list BBPtr) : list Z :=
  idxOf bbToIdx <$> filter (λ pb, pb ∈ reachable) nbrs.

(** [iedge p v]: the block of index [v] has a reachable neighbour of
    index [p]. *)
Definition iedge (p v : Z) : Prop :=
  ∃ b nbrs, at_ revPostOrder v = Some b ∧ neighbours b = Some nbrs
            ∧ p ∈ idxsOf nbrs.

(** [bwalk k v W]: [W] lists, last index first, a path from index [0] to
    [v] on which at most [k] edges do not increase the index. *)
Inductive bwalk : nat → Z → list Z → Prop :=
  | bwalk_root k : bwalk k 0 [0]
  | bwalk_fwd k p v W :
      bwalk k p W → iedge p v → p < v → bwalk k v (v :: W)
  | bwalk_back k p v W :
      bwalk k p W → iedge p v → v ≤ p → bwalk (S k) v (v :: W).

(** [x] is on every such path to [v]. *)
Definition onAll (k : nat) (x v : Z) : Prop :=
  ∀ W, bwalk k v W → x ∈ W.

(** [x] is on every path from index [0] to [v]. *)
Definition idom_star (x v : Z) : Prop :=
  ∀ k, onAll k x v.

(** [above i v]: a path leads from [i] to [v] through indices that are
    at least [i]. *)
Inductive above (i : Z) : Z → Prop :=
  | above_refl : above i i
  | above_step u v : above i u → iedge u v → i ≤ v → above i v.

(** Every dominator of an assigned index is among its ancestors. *)
Definition Sound (n : Z) (I : list Z) : Prop :=
  ∀ v x, 0 ≤ v < n → assigned I v → idom_star x v → anc I x v.

(** From an ancestor a path leads down to the index without going below
    the ancestor. *)
Definition Linked (n : Z) (I : list Z) : Prop :=
  ∀ v a, 0 ≤ v < n → anc I a v → above a v.

(** During sweep number [k], before index [j] is visited: the indices
    below [j] hold the information of paths with at most [k]
    non-increasing edges, the others that of the previous sweep. *)
Definition Bounded (n : Z) (k : nat) (j : Z) (I : list Z) : Prop :=
  ∀ v, 0 < v < n →
    (v < j → assigned I v ∧ ∀ x, anc I x v → onAll k x v)
    ∧ (j ≤ v → match k with
               | O => at_ I v = Some (-1)
               | S k' => assigned I v ∧ ∀ x, anc I x v → onAll k' x v
               end).

Definition Inv (n : Z) (k : nat) (j : Z) (I : list Z) : Prop :=
  Tree n I ∧ Sound n I ∧ Linked n I ∧ Bounded n k j I.

(** [d] is the nearest common ancestor of the assigned neighbours of [j]. *)
Definition meets (I : list Z) (j d : Z) : Prop :=
  ∀ a, anc I a d ↔ ∀ p, iedge p j → assigned I p → anc I a p.

(** No slot changes when it is recomputed. *)
Definition Stable (n : Z) (I : list Z) : Prop :=
  ∀ j, 0 < j < n → ∃ d, at_ I j = Some d ∧ 0 ≤ d ∧ meets I j d.

(** The ancestors of an index are exactly its dominators. *)
Definition Exact (n : Z) (I : list Z) : Prop :=
  ∀ v x, 0 ≤ v < n → anc I x v ↔ idom_star x v.

(** [joined D v x]: [x] is in the set that the classical loop computes
    for [v] from the sets [D]: [v] itself and what all the neighbours of
    [v] share. *)
Definition joined (D : list (gset Z)) (v x : Z) : Prop :=
  x = v ∨ ∀ p, iedge p v → inDom D p x.

(** What the classical loop keeps true of [dominators]: the root holds
    itself only, the members are indices, every dominator is a member,
    and recomputing a set can only remove members. *)
Definition Refining (n : Z) (D : list (gset Z)) : Prop :=
  Z.of_nat (length D) = n
  ∧ at_ D 0 = Some {[0]}
  ∧ (∀ v x, inDom D v x → 0 ≤ x < n)
  ∧ (∀ v x, 0 ≤ v < n → idom_star x v → inDom D v x)
  ∧ (∀ v x, 0 < v < n → joined D v x → inDom D v x).

(** No set changes when it is recomputed. *)
Definition Settled (n : Z) (D : list (gset Z)) : Prop :=
  ∀ v x, 0 < v < n → inDom D v x → joined D v x.

(** The sets hold exactly the dominators. *)
Definition ExactSets (n : Z) (D : list (gset Z)) : Prop :=
  Z.of_nat (length D) = n
  ∧ ∀ v x, 0 ≤ v < n → inDom D v x ↔ idom_star x v.
End IndexGraph.

End Dominance.

Import AE Dominance.

Local Open Scope Z_scope.

(** * Properties *)

(** ** Vectors indexed by [int] *)

Lemma at_Some {A} (l : list A) i x :
  at_ l i = Some x ↔ 0 ≤ i ∧ l !! Z.to_nat i = Some x.
Proof.
  unfold at_. case_decide as Hi; split.
  - by intros ?.
  - by intros [_ ?].
  - by intros ?.
  - by intros [? _].
Qed.

Lemma at_range {A} (l : list A) i x :
  at_ l i = Some x → 0 ≤ i < Z.of_nat (length l).
Proof.
  intros [? H%lookup_lt_Some]%at_Some. lia.
Qed.

Lemma at_defined {A} (l : list A) i :
  0 ≤ i < Z.of_nat (length l) → ∃ x, at_ l i = Some x.
Proof.
  intros ?. destruct (lookup_lt_is_Some_2 l (Z.to_nat i)) as [x Hx]; [lia|].
  exists x. apply at_Some. split; [lia|done].
Qed.

Lemma at_insert_eq {A} (l : list A) i x :
  0 ≤ i < Z.of_nat (length l) → at_ (<[Z.to_nat i := x]> l) i = Some x.
Proof.
  intros ?. apply at_Some. split; [lia|].
  apply list_lookup_insert_eq. lia.
Qed.

Lemma at_insert_ne {A} (l : list A) i j x :
  0 ≤ i → i ≠ j → at_ (<[Z.to_nat i := x]> l) j = at_ l j.
Proof.
  intros ? ?. unfold at_. case_decide; [|done].
  apply list_lookup_insert_ne. lia.
Qed.

Lemma at_app_l {A} (l1 l2 : list A) i x :
  at_ l1 i = Some x → at_ (l1 ++ l2) i = Some x.
Proof.
  intros [? H]%at_Some. apply at_Some. split; [done|].
  by apply lookup_app_l_Some.
Qed.

Lemma at_elem_of {A} (l : list A) i x : at_ l i = Some x → x ∈ l.
Proof. intros [? H]%at_Some. by eapply list_elem_of_lookup_2. Qed.

(** ** The tree that [IDoms] encodes *)

Section Tree.
Variable n : Z.

Lemma assigned_range I v : Tree n I → assigned I v → 0 ≤ v < n.
Proof. intros [<- _] (d & H%at_range & _). done. Qed.

Lemma Tree_parent I v d :
  Tree n I → 0 ≤ v < n → at_ I v = Some d → 0 ≤ d →
  0 ≤ d ≤ v ∧ assigned I d ∧ (0 < v → d < v).
Proof.
  intros (Hlen & H0 & Hup) Hv Hd Hd0.
  destruct (decide (v = 0)) as [->|Hne].
  - rewrite H0 in Hd. injection Hd as <-. split; [lia|]. split; [|lia].
    exists 0. split; [done|lia].
  - destruct (Hup v d) as [?|[? Hs]]; [lia|done|lia|].
    split; [lia|]. split; [|lia].
    destruct (at_defined I d) as [x Hx]; [lia|].
    exists x. split; [done|]. intros ->. done.
Qed.

Lemma anc_le I a v : Tree n I → 0 ≤ v < n → anc I a v → 0 ≤ a ≤ v.
Proof.
  intros HT Hv Ha. induction Ha as [v|a v d Hd Hd0 Ha IH]; [lia|].
  destruct (Tree_parent I v d) as (? & ? & ?); try done.
  assert (0 ≤ a ≤ d) by (apply IH; lia). lia.
Qed.

Lemma anc_assigned I a v :
  Tree n I → 0 ≤ v < n → assigned I v → anc I a v → assigned I a.
Proof.
  intros HT Hv Hs Ha. induction Ha as [v|a v d Hd Hd0 Ha IH]; [done|].
  destruct (Tree_parent I v d) as (? & ? & ?); try done.
  apply IH; [lia|done].
Qed.

Lemma anc_trans I a b c : anc I a b → anc I b c → anc I a c.
Proof.
  intros Hab Hbc. induction Hbc as [|b c d Hd Hd0 Hbc IH]; [done|].
  eapply anc_up; eauto.
Qed.

Lemma anc_inv I a v :
  anc I a v → a = v ∨ ∃ d, at_ I v = Some d ∧ 0 ≤ d ∧ anc I a d.
Proof. destruct 1; [by left|right; eauto]. Qed.

Lemma anc_root I v : Tree n I → 0 ≤ v < n → assigned I v → anc I 0 v.
Proof.
  intros HT. induction (Z.lt_wf 0 v) as [v _ IH]. intros Hv (d & Hd & Hne).
  destruct (decide (v = 0)) as [->|?]; [constructor|].
  destruct HT as (Hlen & H0 & Hup).
  destruct (Hup v d) as [?|[? Hs]]; [lia|done|done|].
  eapply anc_up; [done|lia|].
  apply IH; [lia|lia|].
  destruct (at_defined I d) as [x Hx]; [lia|].
  exists x. split; [done|]. by intros ->.
Qed.

(** The ancestors of an index form a chain. *)
Lemma anc_chain I a b v :
  Tree n I → 0 ≤ v < n → anc I a v → anc I b v → a ≤ b → anc I a b.
Proof.
  intros HT Hv Ha Hb. revert a Ha.
  induction Hb as [v|b v d Hd Hd0 Hb IH]; intros a Ha Hab; [done|].
  destruct (Tree_parent I v d) as (? & ? & ?); try done.
  apply anc_inv in Ha as [->|(d' & Hd' & ? & Ha)].
  - assert (0 ≤ b ≤ d) by (eapply anc_le; [done| |done]; lia).
    assert (b = v) as -> by lia. constructor.
  - rewrite Hd in Hd'. injection Hd' as <-. apply IH; [lia|done|done].
Qed.

Lemma anc_antisym I a b :
  Tree n I → 0 ≤ a < n → 0 ≤ b < n → anc I a b → anc I b a → a = b.
Proof.
  intros HT ? ? H1 H2.
  apply anc_le in H1; [|done..]. apply anc_le in H2; [|done..]. lia.
Qed.
End Tree.

(** ** The intersect step *)

Section Intersect.
Variable n : Z.
Variable fuel : nat.
Hypothesis Hfuel : n < Z.of_nat fuel.

Lemma climb_spec I k B1 B2 :
  Tree n I → 0 ≤ B1 < n → assigned I B1 → 0 ≤ B2 →
  (Z.to_nat B1 < k)%nat →
  ∃ b, climb k I B1 B2 = Some b
       ∧ anc I b B1 ∧ 0 ≤ b ≤ B1 ∧ b ≤ B2 ∧ (B1 ≤ B2 → b = B1)
       ∧ ∀ a, anc I a B1 → a ≤ B2 → anc I a b.
Proof.
  intros HT. revert B1. induction k as [|k IH]; intros B1 HB1 Hs HB2 Hk; [lia|].
  simpl. case_decide as Hgt.
  - destruct Hs as (d & Hd & Hne). rewrite Hd. simpl.
    assert (0 ≤ d) as Hd0.
    { destruct HT as (_ & _ & Hup).
      destruct (Hup B1 d) as [?|[? _]]; [lia|done|done|lia]. }
    destruct (Tree_parent n I B1 d) as (? & Hsd & ?); [done..|].
    destruct (IH d) as (b & Hb & Hanc & ? & ? & _ & Hall); try done; try lia.
    exists b. split; [done|]. split; [by eapply anc_up|].
    split; [lia|]. split; [lia|]. split; [lia|].
    intros a Ha Hle. apply anc_inv in Ha as [->|(d' & Hd' & _ & Ha)]; [lia|].
    rewrite Hd in Hd'. injection Hd' as <-. by apply Hall.
  - exists B1. split; [done|]. split; [constructor|].
    split; [lia|]. split; [lia|]. split; [done|]. done.
Qed.

Lemma intersect_spec I k B1 B2 :
  Tree n I → 0 ≤ B1 < n → 0 ≤ B2 < n → assigned I B1 → assigned I B2 →
  (Z.to_nat (Z.max B1 B2) < k)%nat →
  ∃ c, intersect fuel k I B1 B2 = Some c
       ∧ anc I c B1 ∧ anc I c B2
       ∧ ∀ a, anc I a B1 → anc I a B2 → anc I a c.
Proof.
  intros HT. revert B1 B2.
  induction k as [|k IH]; intros B1 B2 HB1 HB2 Hs1 Hs2 Hk; [lia|].
  simpl. case_decide as Hne.
  - destruct (climb_spec I fuel B1 B2) as (b1 & -> & Ha1 & ? & ? & Hsame & Hall1);
      try done; try lia.
    simpl.
    destruct (climb_spec I fuel B2 b1) as (b2 & -> & Ha2 & ? & ? & _ & Hall2);
      try done; try lia.
    simpl.
    destruct (IH b1 b2) as (c & -> & Hc1 & Hc2 & Hall); try lia.
    { by apply (anc_assigned n I b1 B1). }
    { by apply (anc_assigned n I b2 B2). }
    exists c. split; [done|].
    split; [by apply (anc_trans I c b1 B1)|].
    split; [by apply (anc_trans I c b2 B2)|].
    intros a Ha Hb.
    assert (0 ≤ a ≤ B2) by (by apply (anc_le n I a B2)).
    assert (anc I a b1) as Hab1 by (apply Hall1; [done|lia]).
    assert (0 ≤ a ≤ b1) by (apply (anc_le n I a b1); [done|lia|done]).
    apply Hall; [done|]. apply Hall2; [done|lia].
  - assert (B1 = B2) as <- by (destruct (decide (B1 = B2)); [done|contradiction]).
    exists B1. split; [done|]. split; [constructor|]. split; [constructor|]. done.
Qed.
End Intersect.

(** ** The confluence over the neighbours of a block *)

Section Meet.
Variable reachable : BBSet.
Variable bbToIdx : gmap BBPtr Z.
Variable n : Z.
Variable fuel : nat.
Hypothesis Hfuel : n < Z.of_nat fuel.

Lemma idxsOf_cons pb l :
  idxsOf reachable bbToIdx (pb :: l) =
    if decide (pb ∈ reachable)
    then idxOf bbToIdx pb :: idxsOf reachable bbToIdx l
    else idxsOf reachable bbToIdx l.
Proof.
  unfold idxsOf. rewrite filter_cons. by case_decide.
Qed.

Lemma meetAll_spec I l acc :
  Tree n I →
  acc = -1 ∨ (0 ≤ acc < n ∧ assigned I acc) →
  (∀ p, p ∈ idxsOf reachable bbToIdx l → 0 ≤ p < n) →
  ∃ c, meetAll reachable bbToIdx fuel I acc l = Some c
       ∧ (c = -1 ∨ (0 ≤ c < n ∧ assigned I c))
       ∧ (c = -1 → acc = -1
            ∧ ∀ p, p ∈ idxsOf reachable bbToIdx l → ¬ assigned I p)
       ∧ (c ≠ -1 →
            ∀ a, anc I a c ↔ common I acc (idxsOf reachable bbToIdx l) a).
Proof.
  intros HT. revert acc.
  induction l as [|pb l IH]; intros acc Hacc Hrange.
  - exists acc. split; [done|]. split; [done|]. split.
    + intros ->. split; [done|]. intros p Hp. by apply elem_of_nil in Hp.
    + intros Hne a. unfold common. split.
      * intros Ha. split; [done|]. intros p Hp. by apply elem_of_nil in Hp.
      * intros [Ha _]. by apply Ha.
  - simpl. rewrite idxsOf_cons in Hrange |- *. unfold meetOne.
    case_decide as Hreach; simpl; [|by apply IH].
    set (p := idxOf bbToIdx pb) in *.
    assert (0 ≤ p < n) as Hp by (apply Hrange; left).
    assert (∀ q, q ∈ idxsOf reachable bbToIdx l → 0 ≤ q < n) as Hrange'
      by (intros q Hq; apply Hrange; by right).
    destruct (at_defined I p) as [d Hd]; [destruct HT as [-> _]; done|].
    rewrite Hd. simpl. case_decide as Hd1; [|case_decide as Hacc1].
    + (* the neighbour has no slot yet *)
      simpl. destruct (IH acc Hacc Hrange') as (c & -> & Hc & Hnone & Hsome).
      exists c. split; [done|]. split; [done|]. split.
      * intros Hc1. destruct (Hnone Hc1) as [-> Hno]. split; [done|].
        intros q [->|Hq]%elem_of_cons; [|by apply Hno].
        intros (d' & Hd' & ?). congruence.
      * intros Hc1 a. rewrite (Hsome Hc1). unfold common.
        split; intros [H1 H2]; (split; [done|]).
        -- intros q [->|Hq]%elem_of_cons Hs; [|by apply H2].
           destruct Hs as (d' & Hd' & ?). congruence.
        -- intros q Hq. apply H2. by right.
    + (* the first assigned neighbour *)
      simpl. assert (assigned I p) as Hsp by (by exists d).
      destruct (IH p (or_intror (conj Hp Hsp)) Hrange')
        as (c & -> & Hc & Hnone & Hsome).
      exists c. split; [done|]. split; [done|].
      assert (c ≠ -1) as Hc1 by (intros Hc1; destruct (Hnone Hc1); lia).
      split; [done|]. intros _ a. rewrite (Hsome Hc1). unfold common.
      split.
      * intros [H1 H2]. split; [done|].
        intros q [->|Hq]%elem_of_cons Hs; [apply H1; lia|by apply H2].
      * intros [_ H2]. split; [intros _; apply H2; [by left|done]|].
        intros q Hq. apply H2. by right.
    + (* a further assigned neighbour: intersect *)
      assert (assigned I p) as Hsp by (by exists d).
      destruct Hacc as [?|[Hacc Hsacc]]; [done|].
      destruct (intersect_spec n fuel Hfuel I fuel acc p)
        as (x & -> & Hx1 & Hx2 & Hxall); [done..|lia|].
      simpl.
      assert (assigned I x) as Hsx by (by apply (anc_assigned n I x p)).
      assert (0 ≤ x < n) as Hxr.
      { pose proof (anc_le n I x p HT Hp Hx2). lia. }
      destruct (IH x (or_intror (conj Hxr Hsx)) Hrange')
        as (c & -> & Hc & Hnone & Hsome).
      exists c. split; [done|]. split; [done|].
      assert (c ≠ -1) as Hc1 by (intros Hc1; destruct (Hnone Hc1); lia).
      split; [done|]. intros _ a. rewrite (Hsome Hc1). unfold common.
      split.
      * intros [H1 H2].
        assert (anc I a x) as Hax by (apply H1; lia).
        split; [intros _; by apply (anc_trans I a x acc)|].
        intros q [->|Hq]%elem_of_cons Hs;
          [by apply (anc_trans I a x p)|by apply H2].
      * intros [H1 H2]. split.
        -- intros _. apply Hxall; [by apply H1|apply H2; [by left|done]].
        -- intros q Hq. apply H2. by right.
Qed.
End Meet.

(** ** Giving one slot a new, smaller immediate dominator *)

Section Update.
Variable n : Z.
Variable I : list Z.
Variable i new : Z.
Hypothesis HT : Tree n I.
Hypothesis Hi : 0 < i < n.
Hypothesis Hnew : 0 ≤ new < i.
Hypothesis Hsnew : assigned I new.

Lemma assigned_update v :
  assigned I v → assigned (<[Z.to_nat i := new]> I) v.
Proof using HT Hi Hnew Hsnew.
  intros (d & Hd & Hne). destruct (decide (v = i)) as [->|Hvi].
  - exists new. split; [|lia]. apply at_insert_eq. destruct HT as [-> _]. lia.
  - exists d. split; [|done]. rewrite at_insert_ne; [done|lia|done].
Qed.

Lemma assigned_update_self : assigned (<[Z.to_nat i := new]> I) i.
Proof using HT Hi Hnew Hsnew.
  exists new. split; [|lia]. apply at_insert_eq. destruct HT as [-> _]. lia.
Qed.

Lemma Tree_update : Tree n (<[Z.to_nat i := new]> I).
Proof using HT Hi Hnew Hsnew.
  destruct HT as (Hlen & H0 & Hup). split; [by rewrite length_insert|].
  split; [rewrite at_insert_ne; [done|lia..]|].
  intros v d Hv Hd.
  assert (∀ x, 0 ≤ x → at_ I x ≠ Some (-1) →
               at_ (<[Z.to_nat i := new]> I) x ≠ Some (-1)) as Hkeep.
  { intros x Hx0 Hx. destruct (decide (x = i)) as [->|?].
    - rewrite at_insert_eq by lia. intros [=]. lia.
    - rewrite at_insert_ne; [done|lia|done]. }
  destruct (decide (v = i)) as [->|Hvi].
  - rewrite at_insert_eq in Hd by lia. injection Hd as <-.
    right. split; [lia|]. apply Hkeep; [lia|].
    destruct Hsnew as (x & Hx & ?). rewrite Hx. intros [=]. lia.
  - rewrite at_insert_ne in Hd; [|lia|done].
    destruct (Hup v d Hv Hd) as [?|[? ?]]; [by left|right].
    split; [done|]. apply Hkeep; [lia|done].
Qed.

(** Below [i] nothing changes. *)
Lemma anc_update_below a v :
  0 ≤ v < i → anc (<[Z.to_nat i := new]> I) a v ↔ anc I a v.
Proof using HT Hi Hnew Hsnew.
  intros Hv. split; intros Ha.
  - induction Ha as [v|a v d Hd Hd0 Ha IH]; [constructor|].
    rewrite at_insert_ne in Hd; [|lia..].
    destruct (Tree_parent n I v d) as (? & ? & ?); [done|lia|done..|].
    eapply anc_up; [done..|]. apply IH. lia.
  - induction Ha as [v|a v d Hd Hd0 Ha IH]; [constructor|].
    destruct (Tree_parent n I v d) as (? & ? & ?); [done|lia|done..|].
    eapply anc_up; [rewrite at_insert_ne; [done|lia..]|done|].
    apply IH. lia.
Qed.

(** The part of a chain that lies at or above [i] is kept. *)
Lemma anc_update_upper a v :
  0 ≤ v < n → anc I a v → i ≤ a → anc (<[Z.to_nat i := new]> I) a v.
Proof using HT Hi Hnew Hsnew.
  intros Hv Ha Hia. induction Ha as [v|a v d Hd Hd0 Ha IH]; [constructor|].
  destruct (Tree_parent n I v d) as (? & ? & ?); [done..|].
  assert (0 ≤ a ≤ d) by (apply (anc_le n I a d); [done|lia|done]).
  eapply anc_up; [rewrite at_insert_ne; [done|lia..]|done|].
  apply IH; [lia|done].
Qed.

Lemma anc_update_through a v :
  0 ≤ v < n → anc I i v → anc I a new → anc (<[Z.to_nat i := new]> I) a v.
Proof using HT Hi Hnew Hsnew.
  intros Hv Hiv Ha.
  apply (anc_trans _ a i v); [|apply anc_update_upper; [done..|lia]].
  eapply anc_up; [apply at_insert_eq; destruct HT as [-> _]; lia|lia|].
  apply anc_update_below; [lia|done].
Qed.

Lemma anc_update_keep a v :
  anc I a v → anc (<[Z.to_nat i := new]> I) a v ∨ anc I i v.
Proof using HT Hi Hnew Hsnew.
  intros Ha. induction Ha as [v|a v d Hd Hd0 Ha IH]; [left; constructor|].
  destruct (decide (v = i)) as [->|Hvi]; [right; constructor|].
  destruct IH as [IH|IH].
  - left. eapply anc_up; [rewrite at_insert_ne; [done|lia|done]|done..].
  - right. by eapply anc_up.
Qed.

Lemma anc_update_inv a v :
  anc (<[Z.to_nat i := new]> I) a v →
  anc I a v ∨ (anc I i v ∧ anc I a new).
Proof using HT Hi Hnew Hsnew.
  intros Ha. induction Ha as [v|a v d Hd Hd0 Ha IH]; [left; constructor|].
  destruct (decide (v = i)) as [->|Hvi].
  - rewrite at_insert_eq in Hd by (destruct HT as [-> _]; lia).
    injection Hd as <-. right. split; [constructor|].
    apply anc_update_below in Ha; [done|lia].
  - rewrite at_insert_ne in Hd; [|lia|done].
    destruct IH as [IH|[IH1 IH2]].
    + left. by eapply anc_up.
    + right. split; [by eapply anc_up|done].
Qed.
End Update.

Local Open Scope Z_scope.

(** ** Paths of the index graph *)

Section Walks.
Variable revPostOrder : list BBPtr.
Variable reachable : BBSet.
Variable bbToIdx : gmap BBPtr Z.
Variable neighbours : BBPtr → option (list BBPtr).
Variable n : Z.
Hypothesis Hn : 0 < n.
Hypothesis Hlen : Z.of_nat (length revPostOrder) = n.
Hypothesis Hrange :
  ∀ p v, iedge revPostOrder reachable bbToIdx neighbours p v → 0 ≤ p < n.

Local Abbreviation iedge := (iedge revPostOrder reachable bbToIdx neighbours).
Local Abbreviation bwalk := (bwalk revPostOrder reachable bbToIdx neighbours).
Local Abbreviation onAll := (onAll revPostOrder reachable bbToIdx neighbours).
Local Abbreviation idom_star := (idom_star revPostOrder reachable bbToIdx neighbours).
Local Abbreviation above := (above revPostOrder reachable bbToIdx neighbours).

Lemma iedge_target p v : iedge p v → 0 ≤ v < n.
Proof. intros (b & nbrs & Hb%at_range & _). lia. Qed.

Lemma bwalk_mono k k' v W : bwalk k v W → (k ≤ k')%nat → bwalk k' v W.
Proof.
  intros H. revert k'. induction H as [k|k p v W H IH He Hlt|k p v W H IH He Hle];
    intros k' Hk.
  - constructor.
  - eapply bwalk_fwd; [apply IH; lia|done..].
  - destruct k' as [|k']; [lia|].
    eapply bwalk_back; [apply IH; lia|done..].
Qed.

Lemma bwalk_inv k v W :
  bwalk k v W →
  (v = 0 ∧ W = [0])
  ∨ ∃ p W', W = v :: W' ∧ iedge p v
            ∧ ((p < v ∧ bwalk k p W')
               ∨ (v ≤ p ∧ ∃ k', k = S k' ∧ bwalk k' p W')).
Proof.
  destruct 1 as [k|k p v W H He Hlt|k p v W H He Hle]; [by left|right..].
  - exists p, W. split; [done|]. split; [done|]. by left.
  - exists p, W. split; [done|]. split; [done|]. right. split; [done|]. by exists k.
Qed.

Lemma bwalk_head k v W : bwalk k v W → ∃ W', W = v :: W'.
Proof. destruct 1; eauto. Qed.

Lemma bwalk_range k v W : bwalk k v W → 0 ≤ v < n.
Proof. destruct 1; [lia|by eapply iedge_target..]. Qed.

Lemma bwalk_elem_range k v W x : bwalk k v W → x ∈ W → 0 ≤ x < n.
Proof.
  intros H. induction H as [k|k p v W H IH He Hlt|k p v W H IH He Hle].
  - intros ->%list_elem_of_singleton. lia.
  - intros [->|?]%elem_of_cons; [by eapply iedge_target|by apply IH].
  - intros [->|?]%elem_of_cons; [by eapply iedge_target|by apply IH].
Qed.

(** A path can be cut at any index it meets. *)
Lemma bwalk_suffix k v W x :
  bwalk k v W → x ∈ W → ∃ W', bwalk k x W' ∧ W' `suffix_of` W.
Proof.
  intros H. induction H as [k|k p v W H IH He Hlt|k p v W H IH He Hle].
  - intros ->%list_elem_of_singleton. exists [0]. split; [constructor|done].
  - intros [->|Hx]%elem_of_cons.
    + exists (v :: W). split; [by eapply bwalk_fwd|done].
    + destruct (IH Hx) as (W' & HW' & Hsuf). exists W'.
      split; [done|]. by apply suffix_cons_r.
  - intros [->|Hx]%elem_of_cons.
    + exists (v :: W). split; [by eapply bwalk_back|done].
    + destruct (IH Hx) as (W' & HW' & Hsuf). exists W'.
      split; [eapply bwalk_mono; [done|lia]|]. by apply suffix_cons_r.
Qed.

Lemma suffix_elem_of {A} (l1 l2 : list A) x :
  l1 `suffix_of` l2 → x ∈ l1 → x ∈ l2.
Proof. intros [k ->] ?. apply elem_of_app. by right. Qed.

(** The number of edges bounds the non-increasing ones. *)
Lemma bwalk_length k v W : bwalk k v W → bwalk (length W - 1) v W.
Proof.
  intros H. induction H as [k|k p v W H IH He Hlt|k p v W H IH He Hle].
  - constructor.
  - eapply bwalk_fwd; [|done..]. eapply bwalk_mono; [done|simpl; lia].
  - destruct (bwalk_head _ _ _ H) as [W' ->]. simpl in *.
    rewrite Nat.sub_0_r in *. by eapply bwalk_back.
Qed.

(** A path contains a path to the same index that repeats no index. *)
Lemma bwalk_simple k v W :
  bwalk k v W →
  ∃ k' W', bwalk k' v W' ∧ NoDup W' ∧ ∀ x, x ∈ W' → x ∈ W.
Proof.
  intros H. induction H as [k|k p v W H IH He Hlt|k p v W H IH He Hle].
  - exists k, [0]. split; [constructor|]. split; [apply NoDup_singleton|done].
  - destruct IH as (k' & W' & HW' & Hnd & Hsub).
    destruct (decide (v ∈ W')) as [Hin|Hnin].
    + destruct (bwalk_suffix _ _ _ _ HW' Hin) as (W'' & HW'' & Hsuf).
      exists k', W''. split; [done|]. split.
      * destruct Hsuf as [l ->]. by apply NoDup_app in Hnd as (_ & _ & ?).
      * intros x Hx. right. apply Hsub. by eapply suffix_elem_of.
    + exists k', (v :: W'). split; [by eapply bwalk_fwd|].
      split; [by constructor|].
      intros x [->|Hx]%elem_of_cons; [by left|right; by apply Hsub].
  - destruct IH as (k' & W' & HW' & Hnd & Hsub).
    destruct (decide (v ∈ W')) as [Hin|Hnin].
    + destruct (bwalk_suffix _ _ _ _ HW' Hin) as (W'' & HW'' & Hsuf).
      exists k', W''. split; [done|]. split.
      * destruct Hsuf as [l ->]. by apply NoDup_app in Hnd as (_ & _ & ?).
      * intros x Hx. right. apply Hsub. by eapply suffix_elem_of.
    + exists (S k'), (v :: W'). split; [by eapply bwalk_back|].
      split; [by constructor|].
      intros x [->|Hx]%elem_of_cons; [by left|right; by apply Hsub].
Qed.

Lemma bwalk_short k v W :
  bwalk k v W → ∃ W', bwalk (Z.to_nat n - 1) v W' ∧ ∀ x, x ∈ W' → x ∈ W.
Proof.
  intros H. destruct (bwalk_simple _ _ _ H) as (k' & W' & HW' & Hnd & Hsub).
  exists W'. split; [|done].
  eapply bwalk_mono; [by eapply bwalk_length|].
  assert (length W' ≤ length (seqZ 0 n))%nat as Hle.
  { apply submseteq_length, NoDup_submseteq; [done|].
    intros x Hx. apply elem_of_seqZ. pose proof (bwalk_elem_range _ _ _ _ HW' Hx). lia. }
  rewrite length_seqZ in Hle. lia.
Qed.

Lemma onAll_mono k k' x v : onAll k' x v → (k ≤ k')%nat → onAll k x v.
Proof. intros H Hk W HW. apply H. by eapply bwalk_mono. Qed.

Lemma onAll_self k v : onAll k v v.
Proof. intros W HW. destruct (bwalk_head _ _ _ HW) as [W' ->]. by left. Qed.

Lemma onAll_trans k k' x j v :
  onAll k j v → onAll k' x j → (k ≤ k')%nat → onAll k x v.
Proof.
  intros Hj Hx Hk W HW.
  destruct (bwalk_suffix _ _ _ _ HW (Hj W HW)) as (W' & HW' & Hsuf).
  eapply suffix_elem_of; [done|]. apply Hx. by eapply bwalk_mono.
Qed.

Lemma onAll_full x v : onAll (Z.to_nat n - 1) x v → idom_star x v.
Proof.
  intros H k W HW. destruct (bwalk_short _ _ _ HW) as (W' & HW' & Hsub).
  apply Hsub, H, HW'.
Qed.

Lemma idom_star_root x : idom_star x 0 → x = 0.
Proof.
  intros H. specialize (H 0%nat [0] (bwalk_root _ _ _ _ _)).
  by apply list_elem_of_singleton in H.
Qed.

(** A dominator of [v] other than [v] dominates every neighbour of [v]. *)
Lemma idom_star_pred x p v :
  idom_star x v → x ≠ v → iedge p v → idom_star x p.
Proof.
  intros H Hne He k W HW.
  destruct (decide (p < v)) as [Hlt|Hge].
  - specialize (H k (v :: W) (bwalk_fwd _ _ _ _ _ _ _ _ HW He Hlt)).
    by apply elem_of_cons in H as [?|?].
  - assert (v ≤ p) as Hle by lia.
    specialize (H (S k) (v :: W) (bwalk_back _ _ _ _ _ _ _ _ HW He Hle)).
    by apply elem_of_cons in H as [?|?].
Qed.

(** What is on every path to each neighbour of [v] is on every path to [v]. *)
Lemma idom_star_join x v :
  v ≠ 0 → (∀ p, iedge p v → idom_star x p) → idom_star x v.
Proof.
  intros Hv H k W HW.
  destruct (bwalk_inv _ _ _ HW)
    as [[? _]|(p & W' & -> & He & [[_ HW']|(_ & k' & _ & HW')])]; [done|..].
  - right. by eapply H.
  - right. by eapply H.
Qed.

Lemma above_range i v : 0 ≤ i < n → above i v → 0 ≤ v < n.
Proof.
  intros ? Hv. destruct Hv as [|u w _ He _]; [done|by eapply iedge_target].
Qed.

Lemma above_trans a i v : above a i → above i v → a ≤ i → above a v.
Proof.
  intros Ha Hv Hai. induction Hv as [|u v Hu IH He Hle]; [done|].
  eapply above_step; [done..|lia].
Qed.

Lemma above_dominator i v x :
  above i v → x < i → idom_star x v → idom_star x i.
Proof.
  intros Hv Hx. induction Hv as [|u v Hu IH He Hle]; [done|].
  intros H. apply IH. eapply idom_star_pred; [done|lia|done].
Qed.
End Walks.

Local Open Scope Z_scope.

(** ** One sweep of the fixed-point loop *)

Section Sweep.
Variable revPostOrder : list BBPtr.
Variable reachable : BBSet.
Variable bbToIdx : gmap BBPtr Z.
Variable neighbours : BBPtr → option (list BBPtr).
Variable n : Z.
Variable fuel : nat.
Hypothesis Hn : 0 < n.
Hypothesis Hlen : Z.of_nat (length revPostOrder) = n.
Hypothesis Hfuel : n < Z.of_nat fuel.
Hypothesis Hrange :
  ∀ p v, iedge revPostOrder reachable bbToIdx neighbours p v → 0 ≤ p < n.
Hypothesis Hnbrs :
  ∀ v, 0 < v < n →
    ∃ b nbrs, at_ revPostOrder v = Some b ∧ neighbours b = Some nbrs.
Hypothesis Hfwd :
  ∀ v, 0 < v < n →
    ∃ p, iedge revPostOrder reachable bbToIdx neighbours p v ∧ p < v.

Local Abbreviation iedge := (iedge revPostOrder reachable bbToIdx neighbours).
Local Abbreviation bwalk := (bwalk revPostOrder reachable bbToIdx neighbours).
Local Abbreviation onAll := (onAll revPostOrder reachable bbToIdx neighbours).
Local Abbreviation idom_star :=
  (idom_star revPostOrder reachable bbToIdx neighbours).
Local Abbreviation above := (above revPostOrder reachable bbToIdx neighbours).
Local Abbreviation Sound := (Sound revPostOrder reachable bbToIdx neighbours n).
Local Abbreviation Linked := (Linked revPostOrder reachable bbToIdx neighbours n).
Local Abbreviation Bounded :=
  (Bounded revPostOrder reachable bbToIdx neighbours n).
Local Abbreviation Inv := (Inv revPostOrder reachable bbToIdx neighbours n).
Local Abbreviation meets := (meets revPostOrder reachable bbToIdx neighbours).
Local Abbreviation Stable := (Stable revPostOrder reachable bbToIdx neighbours n).
Local Abbreviation Exact := (Exact revPostOrder reachable bbToIdx neighbours n).
Local Abbreviation visitNode :=
  (visitNode revPostOrder reachable bbToIdx neighbours 0 fuel).
Local Abbreviation sweep :=
  (sweep revPostOrder reachable bbToIdx neighbours 0 fuel).

Lemma assigned_root I : Tree n I → assigned I 0.
Proof. intros (_ & H0 & _). exists 0. split; [done|lia]. Qed.

Lemma iedge_idxs p v b nbrs :
  at_ revPostOrder v = Some b → neighbours b = Some nbrs →
  iedge p v ↔ p ∈ idxsOf reachable bbToIdx nbrs.
Proof.
  intros Hb Hnb. split.
  - intros (b' & nbrs' & Hb' & Hnb' & Hp). congruence.
  - intros Hp. by exists b, nbrs.
Qed.

(** The visit of one index computes the nearest common ancestor of its
    assigned neighbours. *)
Lemma visitNode_spec I ch j :
  Tree n I → 0 < j < n →
  (∃ p, iedge p j ∧ p < j ∧ assigned I p) →
  ∃ new,
    visitNode j (I, ch) =
      Some (<[Z.to_nat j := new]> I, ch || bool_decide (at_ I j ≠ Some new))
    ∧ 0 ≤ new < j ∧ assigned I new ∧ meets I j new.
Proof.
  intros HT Hj (pf & Hepf & Hpf & Hspf).
  destruct (Hnbrs j Hj) as (b & nbrs & Hb & Hnb).
  unfold Dominance.visitNode. rewrite decide_False by lia.
  rewrite Hb. simpl. rewrite Hnb. simpl.
  destruct (meetAll_spec reachable bbToIdx n fuel Hfuel I nbrs (-1) HT)
    as (c & Hc & Hcr & Hnone & Hsome); [by left| |].
  { intros p Hp. eapply Hrange. by apply (iedge_idxs p j b nbrs). }
  rewrite Hc. simpl.
  assert (c ≠ -1) as Hc1.
  { intros Hc1. destruct (Hnone Hc1) as [_ Hno].
    apply (Hno pf); [|done]. by apply (iedge_idxs pf j b nbrs). }
  destruct Hcr as [?|[Hcr Hsc]]; [done|].
  assert (meets I j c) as Hmeets.
  { intros a. rewrite (Hsome Hc1). unfold common. split.
    - intros [_ H] p Hp Hs. apply H; [|done]. by apply (iedge_idxs p j b nbrs).
    - intros H. split; [done|]. intros p Hp Hs. apply H; [|done].
      by apply (iedge_idxs p j b nbrs). }
  assert (c < j) as Hcj.
  { assert (anc I c pf) as Hcp by (apply Hmeets; [constructor|done..]).
    assert (0 ≤ pf < n) as Hpfr by (by eapply Hrange).
    pose proof (anc_le n I c pf HT Hpfr Hcp). lia. }
  destruct (at_defined I j) as [cur Hcur]; [destruct HT as [-> _]; lia|].
  exists c. rewrite Hcur. simpl. split; [|split; [lia|done]].
  case_decide as Hne.
  - rewrite bool_decide_true by congruence. by rewrite orb_true_r.
  - assert (cur = c) as -> by (destruct (decide (cur = c)); [done|contradiction]).
    rewrite bool_decide_false by (intros H; by apply H).
    rewrite orb_false_r. f_equal. f_equal. symmetry.
    apply list_insert_id. by apply at_Some in Hcur as [_ ?].
Qed.

Lemma Inv_forward_assigned k j I p :
  Inv k j I → j ≤ n → 0 ≤ p < j → assigned I p.
Proof.
  intros (HT & _ & _ & HB) Hj Hp. destruct (decide (p = 0)) as [->|?].
  - by apply assigned_root.
  - destruct (HB p) as [H1 _]; [lia|]. apply H1. lia.
Qed.

Lemma Inv_neighbour_assigned k j I p :
  Inv (S k) j I → 0 ≤ p < n → assigned I p.
Proof.
  intros (HT & _ & _ & HB) Hp. destruct (decide (p = 0)) as [->|?].
  - by apply assigned_root.
  - destruct (HB p) as [H1 H2]; [lia|].
    destruct (decide (p < j)); [by apply H1|apply H2; lia].
Qed.

(** The ancestors of the new immediate dominator lie on every path to
    [j] with at most [k] non-increasing edges. *)
Lemma meets_onAll k j I new x :
  Inv k j I → 0 < j < n → meets I j new → anc I x new → onAll k x j.
Proof.
  intros HI Hj Hm Hx W HW.
  pose proof HI as (HT & _ & _ & HB).
  destruct (bwalk_inv revPostOrder reachable bbToIdx neighbours _ _ _ HW)
    as [[? _]|(p & W' & -> & He & [[Hlt HW']|(Hle & k0 & -> & HW')])]; [lia|..].
  - right. assert (0 ≤ p < n) as Hp by (by eapply Hrange).
    assert (assigned I p) as Hsp by (apply (Inv_forward_assigned k j I); [done|lia|lia]).
    assert (anc I x p) as Hxp by (by apply Hm).
    destruct (decide (p = 0)) as [->|Hp0].
    + assert (0 ≤ x ≤ 0) by (by apply (anc_le n I x 0)).
      assert (x = 0) as -> by lia. by apply (onAll_self revPostOrder reachable bbToIdx neighbours k 0).
    + destruct (HB p) as [[_ H1] _]; [lia..|]. by apply H1.
  - right. assert (0 ≤ p < n) as Hp by (by eapply Hrange).
    assert (assigned I p) as Hsp by (by apply (Inv_neighbour_assigned k0 j I)).
    assert (anc I x p) as Hxp by (by apply Hm).
    destruct (HB p) as [_ H2]; [lia|]. destruct (H2 Hle) as [_ H3].
    by apply H3.
Qed.

(** A dominator of [j] other than [j] is an ancestor of the new
    immediate dominator. *)
Lemma meets_sound j I new x :
  Tree n I → Sound I → meets I j new → idom_star x j → x ≠ j →
  anc I x new.
Proof.
  intros HT HS Hm Hx Hne. apply Hm. intros p Hp Hsp.
  apply HS; [by eapply Hrange|done|].
  by eapply (idom_star_pred revPostOrder reachable bbToIdx neighbours x p j).
Qed.

Lemma Inv_step k j I new :
  Inv k j I → 0 < j < n → 0 ≤ new < j → assigned I new → meets I j new →
  Inv k (j + 1) (<[Z.to_nat j := new]> I).
Proof.
  intros HI Hj Hnew Hsnew Hm. pose proof HI as (HT & HS & HL & HB).
  pose proof (Tree_update n I j new HT Hj Hnew Hsnew) as HT'.
  assert (at_ (<[Z.to_nat j := new]> I) j = Some new) as Hat.
  { apply at_insert_eq. destruct HT as [-> _]. lia. }
  assert (∀ x, anc I x new → anc (<[Z.to_nat j := new]> I) x j) as Hvia.
  { intros x Hx. eapply anc_up; [done|lia|].
    apply (anc_update_below n I j new HT Hj Hnew Hsnew); [done..|lia|done]. }
  split; [done|]. split; [|split].
  - (* Sound *)
    intros v x Hv Hsv Hx. destruct (decide (v = j)) as [->|Hvj].
    + destruct (decide (x = j)) as [->|Hxj]; [constructor|].
      by apply Hvia, (meets_sound j I new x).
    + assert (assigned I v) as Hsv'.
      { destruct Hsv as (d & Hd & ?). exists d. split; [|done].
        rewrite at_insert_ne in Hd; [done|lia|done]. }
      pose proof (HS v x Hv Hsv' Hx) as Hxv.
      destruct (anc_update_keep n I j new HT Hj Hnew Hsnew x v Hxv) as [?|Hjv]; [done|].
      destruct (decide (j ≤ x)).
      * by apply (anc_update_upper n I j new HT Hj Hnew Hsnew).
      * apply (anc_update_through n I j new HT Hj Hnew Hsnew); [done..|].
        apply (meets_sound j I new x); [done..| |lia].
        apply (above_dominator revPostOrder reachable bbToIdx neighbours j v x); [by apply HL|lia|done].
  - (* Linked *)
    intros v a Hv Ha.
    destruct (anc_update_inv n I j new HT Hj Hnew Hsnew a v Ha) as [?|[Hjv Han]];
      [by apply HL|].
    destruct (Hfwd j Hj) as (pf & Hepf & Hpf).
    assert (0 ≤ pf < n) by (by eapply Hrange).
    assert (assigned I pf)
      by (apply (Inv_forward_assigned k j I); [done|lia|lia]).
    assert (anc I a pf) as Hapf by (by apply Hm).
    assert (0 ≤ a ≤ new) by (apply (anc_le n I a new); [done|lia|done]).
    apply (above_trans revPostOrder reachable bbToIdx neighbours a j v); [|by apply HL|lia].
    eapply above_step; [by apply (HL pf a)|done|lia].
  - (* Bounded *)
    intros v Hv. split.
    + intros Hvj. destruct (decide (v = j)) as [->|Hne].
      * split; [by apply (assigned_update_self n I j new HT Hj Hnew Hsnew)|].
        intros x Hx. apply anc_inv in Hx as [->|(d & Hd & _ & Hx)].
        -- by apply (onAll_self revPostOrder reachable bbToIdx neighbours k j).
        -- rewrite Hat in Hd. injection Hd as <-.
           apply (anc_update_below n I j new HT Hj Hnew Hsnew) in Hx; [|done..|lia].
           by apply (meets_onAll k j I new x).
      * destruct (HB v Hv) as [[Hs H1] _]; [lia|].
        split; [by apply (assigned_update n I j new HT Hj Hnew Hsnew)|].
        intros x Hx. apply H1.
        apply (anc_update_below n I j new HT Hj Hnew Hsnew) in Hx; [done..|lia].
    + intros Hvj. destruct (HB v Hv) as [_ H2]. specialize (H2 ltac:(lia)).
      destruct k as [|k'].
      * rewrite at_insert_ne; [done|lia..].
      * destruct H2 as [Hs H2].
        split; [by apply (assigned_update n I j new HT Hj Hnew Hsnew)|].
        intros x Hx.
        destruct (anc_update_inv n I j new HT Hj Hnew Hsnew x v Hx) as [?|[Hjv Hxn]];
          [by apply H2|].
        apply (onAll_trans revPostOrder reachable bbToIdx neighbours k' (S k') x j v); [by apply H2| |lia].
        by apply (meets_onAll (S k') j I new x).
Qed.

Lemma Inv_skip_root k I : Inv k 0 I → Inv k 1 I.
Proof.
  intros (HT & HS & HL & HB). split; [done|]. split; [done|]. split; [done|].
  intros v Hv. destruct (HB v Hv) as [_ H2]. split; [lia|].
  intros _. apply H2. lia.
Qed.

Lemma Inv_next_sweep k I : Inv k n I → Inv (S k) 0 I.
Proof.
  intros (HT & HS & HL & HB). split; [done|]. split; [done|]. split; [done|].
  intros v Hv. destruct (HB v Hv) as [H1 _]. split; [lia|].
  intros _. apply H1. lia.
Qed.

Lemma sweep_spec k cnt j I ch :
  Inv k j I → 0 ≤ j → j + Z.of_nat cnt = n →
  ∃ I' ch',
    sweep cnt j (I, ch) = Some (I', ch')
    ∧ Inv k n I'
    ∧ (ch' = false →
         ch = false ∧ I' = I
         ∧ ∀ j', j ≤ j' < n → 0 < j' →
             ∃ d, at_ I j' = Some d ∧ 0 ≤ d ∧ meets I j' d).
Proof.
  revert j I ch. induction cnt as [|cnt IH]; intros j I ch HI Hj0 Hjn.
  - exists I, ch. split; [done|].
    assert (j = n) as -> by lia. split; [done|].
    intros ->. split; [done|]. split; [done|]. intros; lia.
  - simpl. destruct (decide (j = 0)) as [->|Hj].
    + unfold Dominance.visitNode. rewrite decide_True by done. simpl.
      destruct (IH 1 I ch) as (I' & ch' & Hsw & HI' & Hst);
        [by apply Inv_skip_root|lia|lia|].
      exists I', ch'. split; [done|]. split; [done|].
      intros Hch. destruct (Hst Hch) as (? & ? & Hrest).
      split; [done|]. split; [done|]. intros j' ? ?. apply Hrest; lia.
    + destruct (Hfwd j) as (pf & Hepf & Hpf); [lia|].
      assert (0 ≤ pf < n) as Hpfr by (by eapply Hrange).
      assert (assigned I pf) as Hspf
        by (apply (Inv_forward_assigned k j I); [done|lia|lia]).
      pose proof HI as (HT & _).
      destruct (visitNode_spec I ch j HT) as (new & Hv & Hnew & Hsnew & Hm);
        [lia|by exists pf|].
      rewrite Hv. simpl.
      destruct (IH (j + 1) (<[Z.to_nat j := new]> I)
                  (ch || bool_decide (at_ I j ≠ Some new)))
        as (I' & ch' & Hsw & HI' & Hst); [apply Inv_step; [done|lia|done..]|lia|lia|].
      exists I', ch'. split; [done|]. split; [done|].
      intros Hch. destruct (Hst Hch) as (Hor & -> & Hrest).
      apply orb_false_iff in Hor as [-> Hsame].
      apply bool_decide_eq_false in Hsame.
      assert (at_ I j = Some new) as Hat
        by (destruct (decide (at_ I j = Some new)); [done|contradiction]).
      assert (<[Z.to_nat j := new]> I = I) as Heq
        by (apply list_insert_id; by apply at_Some in Hat as [_ ?]).
      rewrite Heq in Hrest |- *.
      split; [done|]. split; [done|]. intros j' Hj' Hj'0.
      destruct (decide (j' = j)) as [->|?]; [|apply Hrest; lia].
      exists new. split; [done|]. split; [lia|done].
Qed.

(** On a stable tree every ancestor is a dominator. *)
Lemma Stable_complete I k v W x :
  Tree n I → (∀ u, 0 ≤ u < n → assigned I u) → Stable I →
  bwalk k v W → anc I x v → x ∈ W.
Proof.
  intros HT Hall HS HW. revert x.
  induction HW as [k|k p v W HW IH He Hlt|k p v W HW IH He Hle]; intros x Hx.
  - assert (0 ≤ 0 < n) as H0n by lia.
    pose proof (anc_le n I x 0 HT H0n Hx).
    assert (x = 0) as -> by lia. by left.
  - assert (0 ≤ p < n) as Hp by (by eapply Hrange).
    pose proof (iedge_target revPostOrder reachable bbToIdx neighbours
                  n Hlen _ _ He) as Hv.
    apply anc_inv in Hx as [->|(d & Hd & Hd0 & Hx)]; [by left|right].
    destruct (HS v) as (d' & Hd' & _ & Hm); [lia|].
    rewrite Hd in Hd'. injection Hd' as <-.
    apply IH. apply Hm; [done..|]. by apply Hall.
  - assert (0 ≤ p < n) as Hp by (by eapply Hrange).
    pose proof (iedge_target revPostOrder reachable bbToIdx neighbours
                  n Hlen _ _ He) as Hv.
    apply anc_inv in Hx as [->|(d & Hd & Hd0 & Hx)]; [by left|right].
    destruct (decide (v = 0)) as [->|Hv0].
    + pose proof HT as (_ & H0 & _). rewrite H0 in Hd. injection Hd as <-.
      pose proof (anc_le n I x 0 HT Hv Hx).
      assert (x = 0) as -> by lia.
      clear -HW. induction HW; [by left|by right..].
    + destruct (HS v) as (d' & Hd' & _ & Hm); [lia|].
      rewrite Hd in Hd'. injection Hd' as <-.
      apply IH. apply Hm; [done..|]. by apply Hall.
Qed.

Lemma Stable_Exact k I :
  Inv k n I → Stable I → Exact I ∧ ∀ u, 0 ≤ u < n → assigned I u.
Proof.
  intros (HT & HS & HL & HB) Hst.
  assert (∀ u, 0 ≤ u < n → assigned I u) as Hall.
  { intros u Hu. destruct (decide (u = 0)) as [->|?]; [by apply assigned_root|].
    destruct (HB u) as [[? _] _]; [lia..|done]. }
  split; [|done]. intros v x Hv. split.
  - intros Hx k' W HW. by apply (Stable_complete I k' v W x).
  - intros Hx. apply HS; [done|by apply Hall|done].
Qed.

(** Once the ancestors are the dominators, recomputing a slot gives
    what it holds. *)
Lemma Exact_fixed I j new :
  Tree n I → (∀ u, 0 ≤ u < n → assigned I u) → Exact I →
  0 < j < n → 0 ≤ new < j → meets I j new → at_ I j = Some new.
Proof.
  intros HT Hall HE Hj Hnew Hm.
  destruct (Hall j) as (d & Hd & Hd1); [lia|].
  destruct (Tree_parent n I j d) as (? & Hsd & Hdj); [done|lia|done| |].
  { destruct HT as (_ & _ & Hup).
    destruct (Hup j d) as [?|[? _]]; [lia|done|done|lia]. }
  specialize (Hdj ltac:(lia)).
  assert (anc I d j) as Hdanc by (eapply anc_up; [done|lia|constructor]).
  assert (anc I d new) as H1.
  { apply Hm. intros p Hp Hsp.
    assert (0 ≤ p < n) by (by eapply Hrange).
    apply HE; [done|].
    apply (idom_star_pred revPostOrder reachable bbToIdx neighbours d p j);
      [apply HE; [lia|done]|lia|done]. }
  assert (anc I new d) as H2.
  { assert (anc I new j) as Hnj.
    { apply HE; [lia|].
      apply (idom_star_join revPostOrder reachable bbToIdx neighbours);
        [lia|].
      intros p Hp. assert (0 ≤ p < n) by (by eapply Hrange).
      apply HE; [done|]. apply Hm; [constructor|done|by apply Hall]. }
    apply anc_inv in Hnj as [?|(d' & Hd' & _ & ?)]; [lia|]. congruence. }
  f_equal. rewrite Hd. f_equal.
  apply (anc_antisym n I d new); [done|lia|lia|done..].
Qed.

Lemma sweep_Exact k cnt j I ch :
  Inv k j I → (∀ u, 0 ≤ u < n → assigned I u) → Exact I →
  0 ≤ j → j + Z.of_nat cnt = n →
  sweep cnt j (I, ch) = Some (I, ch).
Proof.
  intros HI Hall HE. revert j ch HI.
  induction cnt as [|cnt IH]; intros j ch HI Hj0 Hjn; [done|].
  simpl. destruct (decide (j = 0)) as [->|Hj].
  - unfold Dominance.visitNode. rewrite decide_True by done. simpl.
    apply IH; [by apply Inv_skip_root|lia|lia].
  - destruct (Hfwd j) as (pf & Hepf & Hpf); [lia|].
    assert (0 ≤ pf < n) as Hpfr by (by eapply Hrange).
    pose proof HI as (HT & _).
    destruct (visitNode_spec I ch j HT) as (new & Hv & Hnew & Hsnew & Hm);
      [lia|exists pf; split; [done|split; [done|by apply Hall]]|].
    rewrite Hv. simpl.
    assert (at_ I j = Some new) as Hat by (apply Exact_fixed; [done..|lia|done|done]).
    assert (<[Z.to_nat j := new]> I = I) as Heq
      by (apply list_insert_id; by apply at_Some in Hat as [_ ?]).
    rewrite Heq, bool_decide_false, orb_false_r by (intros H; by apply H).
    apply IH; [|lia|lia]. rewrite <- Heq. apply Inv_step; [done|lia|done..].
Qed.

(** After enough sweeps the ancestors are the dominators. *)
Lemma Inv_Exact k I :
  Inv k 0 I → (Z.to_nat n ≤ k)%nat →
  Exact I ∧ ∀ u, 0 ≤ u < n → assigned I u.
Proof.
  intros (HT & HS & HL & HB) Hk.
  destruct k as [|k']; [lia|].
  assert (∀ u, 0 ≤ u < n → assigned I u) as Hall.
  { intros u Hu. destruct (decide (u = 0)) as [->|?]; [by apply assigned_root|].
    destruct (HB u) as [_ H2]; [lia|]. apply H2. lia. }
  split; [|done]. intros v x Hv. split.
  - intros Hx. destruct (decide (v = 0)) as [->|Hv0].
    + pose proof (anc_le n I x 0 HT Hv Hx).
      assert (x = 0) as -> by lia. intros k W HW.
      by apply (onAll_self revPostOrder reachable bbToIdx neighbours k 0).
    + destruct (HB v) as [_ H2]; [lia|]. destruct H2 as [_ H2]; [lia|].
      eapply (onAll_full _ _ _ _ n); [done..|].
      apply (onAll_mono revPostOrder reachable bbToIdx neighbours _ k');
        [by apply H2|lia].
  - intros Hx. apply HS; [done|by apply Hall|done].
Qed.

Local Abbreviation iterate :=
  (iterate revPostOrder reachable bbToIdx neighbours 0 fuel).

Lemma iterate_spec f k I :
  Inv k 0 I → (1 ≤ f)%nat → (Z.to_nat n + 1 ≤ k + f)%nat →
  ∃ I', iterate f I = Some I'
        ∧ Tree n I' ∧ (∀ u, 0 ≤ u < n → assigned I' u) ∧ Exact I'.
Proof.
  revert k I. induction f as [|f IH]; intros k I HI Hf Hk; [lia|].
  simpl.
  destruct (sweep_spec k (length revPostOrder) 0 I false HI)
    as (I1 & ch1 & Hsw & HI1 & Hst); [lia|lia|].
  rewrite Hsw. simpl. destruct ch1.
  - destruct (decide (Z.to_nat n ≤ k)%nat) as [Hbig|Hsmall].
    + destruct (Inv_Exact k I HI Hbig) as [HE Hall].
      rewrite (sweep_Exact k (length revPostOrder) 0 I false HI Hall HE) in Hsw;
        [|lia|lia].
      discriminate.
    + apply (IH (S k)); [by apply Inv_next_sweep|lia|lia].
  - destruct (Hst eq_refl) as (_ & -> & Hstable).
    exists I. split; [done|].
    assert (Stable I) as HS.
    { intros j Hj. apply Hstable; lia. }
    destruct (Stable_Exact k I HI1 HS) as [HE Hall].
    split; [by destruct HI1|]. done.
Qed.

Lemma Inv_init :
  Inv 0 0 (<[Z.to_nat 0 := 0]> (replicate (length revPostOrder) (-1))).
Proof.
  set (I0 := <[Z.to_nat 0 := 0]> (replicate (length revPostOrder) (-1))).
  assert (at_ I0 0 = Some 0) as H0.
  { apply at_insert_eq. rewrite length_replicate. lia. }
  assert (∀ v, 0 < v < n → at_ I0 v = Some (-1)) as Hrest.
  { intros v Hv. unfold I0. rewrite at_insert_ne; [|lia..].
    apply at_Some. split; [lia|]. apply lookup_replicate_2. lia. }
  assert (Tree n I0) as HT.
  { split; [unfold I0; rewrite length_insert, length_replicate; lia|].
    split; [done|]. intros v d Hv Hd. rewrite Hrest in Hd by done.
    injection Hd as <-. by left. }
  assert (∀ a v, 0 ≤ v < n → anc I0 a v → a = v) as Hanc.
  { intros a v Hv Ha. destruct (decide (v = 0)) as [->|?].
    - pose proof (anc_le n I0 a 0 HT Hv Ha). lia.
    - apply anc_inv in Ha as [?|(d & Hd & Hd0 & _)]; [done|].
      rewrite Hrest in Hd by lia. injection Hd as <-. lia. }
  split; [done|]. split; [|split].
  - intros v x Hv (d & Hd & Hne) Hx.
    destruct (decide (v = 0)) as [->|?].
    + apply idom_star_root in Hx as ->. constructor.
    + rewrite Hrest in Hd by lia. congruence.
  - intros v a Hv Ha. rewrite (Hanc a v Hv Ha). constructor.
  - intros v Hv. split; [lia|]. intros _. by apply Hrest.
Qed.

(** The fixed-point loop ends, and it ends with the dominator tree of
    the index graph. *)
Lemma solve_spec :
  ∃ I, solve revPostOrder reachable bbToIdx neighbours 0 fuel = Some I
       ∧ Tree n I ∧ (∀ u, 0 ≤ u < n → assigned I u) ∧ Exact I.
Proof.
  unfold solve. apply (iterate_spec fuel 0); [apply Inv_init|lia|lia].
Qed.
End Sweep.

Local Close Scope Z_scope.

(** ** The depth-first visit *)

Section DFS.
Variable next : BB → list BB.
Variable U : gset BB.
Hypothesis Hclosed : ∀ u s, u ∈ U → s ∈ next u → s ∈ U.

Lemma before_app_l l1 l2 w u : before l1 w u → before (l1 ++ l2) w u.
Proof.
  intros (a & b & c & ->). exists a, b, (c ++ l2).
  by rewrite <- !app_assoc, <- !app_comm_cons, <- !app_assoc.
Qed.

Lemma before_app_r l1 l2 w u : before l2 w u → before (l1 ++ l2) w u.
Proof.
  intros (a & b & c & ->). exists (l1 ++ a), b, c.
  by rewrite <- !app_assoc.
Qed.

Lemma before_snoc l w u : w ∈ l → before (l ++ [u]) w u.
Proof.
  intros (a & b & ->)%list_elem_of_split. exists a, b, [].
  by rewrite <- !app_assoc, <- !app_comm_cons.
Qed.

Lemma DFSSeg_tops tops tops' R seg :
  (∀ t, t ∈ tops → t ∈ tops') →
  DFSSeg next tops R seg → DFSSeg next tops' R seg.
Proof.
  intros Hsub (Hnd & Hnew & Hpar & Hcl & Hre).
  split; [done|]. split; [done|]. split; [|split; [done|]].
  - intros w Hw. destruct (Hpar w Hw) as [?|?]; [left; by apply Hsub|by right].
  - intros x Hx. destruct (Hre x Hx) as (t & Ht & ?). exists t. split; [by apply Hsub|done].
Qed.

Lemma size_unmarked_mono (R R' : gset BB) :
  R ⊆ R' → (size (U ∖ R') ≤ size (U ∖ R))%nat.
Proof. intros ?. apply subseteq_size. set_solver. Qed.

Lemma size_unmarked_mark (R : gset BB) v :
  v ∈ U → v ∉ R → (size (U ∖ ({[v]} ∪ R)) < size (U ∖ R))%nat.
Proof. intros ? ?. apply subset_size. set_solver. Qed.

Local Abbreviation DFSUtil_ok := (DFSUtil_ok next U).

Lemma visitAll_spec f l R post :
  DFSUtil_ok f →
  (∀ s, s ∈ l → s ∈ U) → (size (U ∖ R) < f)%nat →
  ∃ seg, visitAll (DFSUtil next f) l (R, post) =
           Some (R ∪ list_to_set seg, post ++ seg)
         ∧ DFSSeg next l R seg
         ∧ ∀ s, s ∈ l → s ∈ R ∨ s ∈ seg.
Proof.
  intros Hok. revert R post. induction l as [|s l IH]; intros R post HU Hsz.
  - exists []. simpl. split; [f_equal; f_equal; [set_solver|by rewrite app_nil_r]|].
    split; [|intros s Hs; by apply elem_of_nil in Hs].
    split; [constructor|].
    split; [intros x Hx; by apply elem_of_nil in Hx|].
    split; [intros x Hx; by apply elem_of_nil in Hx|].
    split; [intros u s Hx; by apply elem_of_nil in Hx|].
    intros x Hx; by apply elem_of_nil in Hx.
  - simpl. case_decide as Hs.
    + destruct (IH R post) as (seg & Hrun & Hseg & Hall);
        [intros; apply HU; by right|done|].
      exists seg. split; [done|]. split.
      * eapply DFSSeg_tops; [|done]. intros; by right.
      * intros t [->|Ht]%elem_of_cons; [by left|by apply Hall].
    + destruct (Hok s R post) as (seg1 & Hrun1 & Hseg1); [apply HU; by left|done..|].
      rewrite Hrun1. simpl.
      destruct (IH (R ∪ list_to_set (seg1 ++ [s])) (post ++ seg1 ++ [s]))
        as (seg2 & Hrun2 & Hseg2 & Hall2); [intros; apply HU; by right| |].
      { eapply Nat.le_lt_trans; [apply size_unmarked_mono|done]. set_solver. }
      rewrite Hrun2.
      exists ((seg1 ++ [s]) ++ seg2). split.
      { f_equal. f_equal; [rewrite list_to_set_app_L; set_solver|].
        by rewrite <- !app_assoc. }
      destruct Hseg1 as (Hnd1 & Hnew1 & Hpar1 & Hcl1 & Hre1).
      destruct Hseg2 as (Hnd2 & Hnew2 & Hpar2 & Hcl2 & Hre2).
      split; [split; [|split; [|split; [|split]]]|].
      * apply NoDup_app. split; [done|]. split; [|done].
        intros x Hx1 Hx2. apply (Hnew2 x Hx2). set_solver.
      * intros x [Hx|Hx]%elem_of_app; [by apply Hnew1|].
        intros HxR. apply (Hnew2 x Hx). set_solver.
      * intros w [Hw|Hw]%elem_of_app.
        -- destruct (Hpar1 w Hw) as [Ht|(u & Hu & Hb)].
           ++ left. apply list_elem_of_singleton in Ht as ->. by left.
           ++ right. exists u. split; [done|]. by apply before_app_l.
        -- destruct (Hpar2 w Hw) as [Ht|(u & Hu & Hb)].
           ++ left. by right.
           ++ right. exists u. split; [done|]. by apply before_app_r.
      * intros u t [Hu|Hu]%elem_of_app Ht.
        -- destruct (Hcl1 u t Hu Ht); [by left|right; apply elem_of_app; by left].
        -- destruct (Hcl2 u t Hu Ht) as [HR|?]; [|right; apply elem_of_app; by right].
           apply elem_of_union in HR as [?|HR]; [by left|right].
           apply elem_of_app. left. by apply elem_of_list_to_set in HR.
      * intros x [Hx|Hx]%elem_of_app.
        -- destruct (Hre1 x Hx) as (t & Ht & ?).
           apply list_elem_of_singleton in Ht as ->. exists s. split; [by left|done].
        -- destruct (Hre2 x Hx) as (t & Ht & ?). exists t. split; [by right|done].
      * intros t [->|Ht]%elem_of_cons.
        -- right. apply elem_of_app. left. apply elem_of_app. right. by left.
        -- destruct (Hall2 t Ht) as [HR|?]; [|right; apply elem_of_app; by right].
           apply elem_of_union in HR as [?|HR]; [by left|right].
           apply elem_of_app. left. by apply elem_of_list_to_set in HR.
Qed.

Lemma DFSUtil_spec f : DFSUtil_ok f.
Proof.
  induction f as [|f IH]; intros v R post HvU HvR Hsz; [lia|].
  simpl.
  destruct (visitAll_spec f (next v) ({[v]} ∪ R) post IH)
    as (seg & Hrun & Hseg & Hall).
  { intros s Hs. by apply (Hclosed v). }
  { pose proof (size_unmarked_mark R v HvU HvR). lia. }
  rewrite Hrun. simpl. exists seg. split.
  { f_equal. f_equal; [rewrite list_to_set_app_L; set_solver|].
    by rewrite <- !app_assoc. }
  destruct Hseg as (Hnd & Hnew & Hpar & Hcl & Hre).
  split; [|split; [|split; [|split]]].
  - apply NoDup_app. split; [done|]. split; [|apply NoDup_singleton].
    intros x Hx ->%list_elem_of_singleton. apply (Hnew v Hx). set_solver.
  - intros x [Hx| ->%list_elem_of_singleton]%elem_of_app; [|done].
    intros HxR. apply (Hnew x Hx). set_solver.
  - intros w [Hw| ->%list_elem_of_singleton]%elem_of_app; [|left; by left].
    right. destruct (Hpar w Hw) as [Ht|(u & Hu & Hb)].
    + exists v. split; [done|]. by apply before_snoc.
    + exists u. split; [done|]. by apply before_app_l.
  - intros u t [Hu| ->%list_elem_of_singleton]%elem_of_app Ht.
    + destruct (Hcl u t Hu Ht) as [HR|?]; [|right; apply elem_of_app; by left].
      apply elem_of_union in HR as [->%elem_of_singleton|?]; [|by left].
      right. apply elem_of_app. right. by left.
    + destruct (Hall t Ht) as [HR|?]; [|right; apply elem_of_app; by left].
      apply elem_of_union in HR as [->%elem_of_singleton|?]; [|by left].
      right. apply elem_of_app. right. by left.
  - intros x [Hx| ->%list_elem_of_singleton]%elem_of_app.
    + destruct (Hre x Hx) as (t & Ht & Hrtc). exists v. split; [by left|].
      eapply rtc_l; [|done]. done.
    + exists v. split; [by left|done].
Qed.
End DFS.

Local Close Scope Z_scope.

(** ** Several start blocks *)

Section DFSFrom.
Variable next : BB → list BB.
Variable U : gset BB.
Hypothesis Hclosed : ∀ u s, u ∈ U → s ∈ next u → s ∈ U.

Lemma rtc_universe t x : t ∈ U → rtc (stepTo next) t x → x ∈ U.
Proof.
  intros Ht Hrtc. induction Hrtc as [|a b c Hab _ IH]; [done|].
  apply IH. by apply (Hclosed a).
Qed.

(** The blocks a visit appends are blocks of [U]. *)
Lemma DFSSeg_universe tops R seg x :
  (∀ t, t ∈ tops → t ∈ U) → DFSSeg next tops R seg → x ∈ seg → x ∈ U.
Proof.
  intros Htops (_ & _ & _ & _ & Hre) Hx.
  destruct (Hre x Hx) as (t & Ht & Hrtc).
  apply (rtc_universe t x); [by apply Htops|done].
Qed.

Lemma DFSFrom_spec fuel roots R post :
  NoDup roots →
  (∀ r, r ∈ roots → r ∈ U ∧ (r ∉ R) ∧ (∀ u, u ∈ U → r ∉ next u)) →
  (size U < fuel)%nat →
  ∃ seg, DFSFrom next fuel roots (R, post) =
           Some (R ∪ list_to_set seg, post ++ seg)
         ∧ DFSSeg next roots R seg
         ∧ ∀ r, r ∈ roots → r ∈ seg.
Proof.
  intros Hnd Hroots Hfuel. revert R post Hroots.
  induction Hnd as [|r roots Hr Hnd IH]; intros R post Hroots.
  - exists []. simpl. split; [f_equal; f_equal; [set_solver|by rewrite app_nil_r]|].
    split; [|intros s Hs; by apply elem_of_nil in Hs].
    split; [constructor|].
    split; [intros x Hx; by apply elem_of_nil in Hx|].
    split; [intros x Hx; by apply elem_of_nil in Hx|].
    split; [intros u s Hx; by apply elem_of_nil in Hx|].
    intros x Hx; by apply elem_of_nil in Hx.
  - simpl. destruct (Hroots r) as (HrU & HrR & Hrn); [by left|].
    destruct (DFSUtil_spec next U Hclosed fuel r R post) as (seg1 & Hrun1 & Hseg1);
      [done..| |].
    { eapply Nat.le_lt_trans; [apply subseteq_size|done]. set_solver. }
    rewrite Hrun1. simpl.
    assert (∀ x, x ∈ seg1 ++ [r] → x ∈ U) as HsegU.
    { intros x Hx. eapply DFSSeg_universe; [|done..].
      by intros t ->%list_elem_of_singleton. }
    destruct Hseg1 as (Hnd1 & Hnew1 & Hpar1 & Hcl1 & Hre1).
    destruct (IH (R ∪ list_to_set (seg1 ++ [r])) (post ++ seg1 ++ [r]))
      as (seg2 & Hrun2 & Hseg2 & Hall2).
    { intros r' Hr'. destruct (Hroots r') as (? & ? & Hn'); [by right|].
      split; [done|]. split; [|done].
      intros [?|Hin%elem_of_list_to_set]%elem_of_union; [done|].
      destruct (Hpar1 r' Hin) as [->%list_elem_of_singleton|(u & Hu & Hbef)];
        [done|]. apply (Hn' u); [|done]. apply HsegU.
      destruct Hbef as (l1 & l2 & l3 & ->).
      apply elem_of_app. right. right. apply elem_of_app. right. by left. }
    rewrite Hrun2. exists ((seg1 ++ [r]) ++ seg2). split.
    { f_equal. f_equal; [rewrite list_to_set_app_L; set_solver|].
      by rewrite <- !app_assoc. }
    destruct Hseg2 as (Hnd2 & Hnew2 & Hpar2 & Hcl2 & Hre2).
    split; [split; [|split; [|split; [|split]]]|].
    + apply NoDup_app. split; [done|]. split; [|done].
      intros x Hx1 Hx2. apply (Hnew2 x Hx2). set_solver.
    + intros x [Hx|Hx]%elem_of_app; [by apply Hnew1|].
      intros HxR. apply (Hnew2 x Hx). set_solver.
    + intros w [Hw|Hw]%elem_of_app.
      * destruct (Hpar1 w Hw) as [Ht|(u & Hu & Hb)].
        -- left. apply list_elem_of_singleton in Ht as ->. by left.
        -- right. exists u. split; [done|]. by apply before_app_l.
      * destruct (Hpar2 w Hw) as [Ht|(u & Hu & Hb)].
        -- left. by right.
        -- right. exists u. split; [done|]. by apply before_app_r.
    + intros u t [Hu|Hu]%elem_of_app Ht.
      * destruct (Hcl1 u t Hu Ht); [by left|right; apply elem_of_app; by left].
      * destruct (Hcl2 u t Hu Ht) as [HR|?]; [|right; apply elem_of_app; by right].
        apply elem_of_union in HR as [?|HR]; [by left|right].
        apply elem_of_app. left. by apply elem_of_list_to_set in HR.
    + intros x [Hx|Hx]%elem_of_app.
      * destruct (Hre1 x Hx) as (t & Ht & ?).
        apply list_elem_of_singleton in Ht as ->. exists r. split; [by left|done].
      * destruct (Hre2 x Hx) as (t & Ht & ?). exists t. split; [by right|done].
    + intros t [->|Ht]%elem_of_cons.
      * apply elem_of_app. left. apply elem_of_app. right. by left.
      * apply elem_of_app. right. by apply Hall2.
Qed.

(** A visit from nothing marks every block a start block reaches. *)
Lemma DFSSeg_complete tops seg t x :
  DFSSeg next tops ∅ seg → t ∈ seg → rtc (stepTo next) t x → x ∈ seg.
Proof.
  intros (_ & _ & _ & Hcl & _) Ht Hrtc.
  induction Hrtc as [|a b c Hab _ IH]; [done|].
  apply IH. destruct (Hcl a b Ht Hab) as [Hemp|?]; [|done].
  by apply elem_of_empty in Hemp.
Qed.

Lemma DFSSeg_length tops R seg :
  (∀ t, t ∈ tops → t ∈ U) → DFSSeg next tops R seg →
  (length seg ≤ size U)%nat.
Proof.
  intros Htops Hseg. pose proof Hseg as (Hnd & _).
  rewrite <- (size_list_to_set (C := gset BB) seg) by done.
  apply subseteq_size. intros x Hx%elem_of_list_to_set.
  by eapply DFSSeg_universe.
Qed.
End DFSFrom.

(** ** Positions in the reversed postorder *)

Lemma before_reverse (seg : list BB) w u :
  before seg w u →
  ∃ i j, reverse seg !! i = Some u ∧ reverse seg !! j = Some w ∧ (i < j)%nat.
Proof.
  intros (l1 & l2 & l3 & ->).
  exists (length (reverse l3)), (length (reverse l3 ++ u :: reverse l2)).
  rewrite !reverse_app, !reverse_cons, !reverse_app, !reverse_cons.
  rewrite <- !app_assoc. simpl.
  split; [apply list_lookup_middle; done|]. split.
  - replace (reverse l3 ++ u :: reverse l2 ++ w :: reverse l1)
      with ((reverse l3 ++ u :: reverse l2) ++ w :: reverse l1)
      by (by rewrite <- app_assoc).
    apply list_lookup_middle. done.
  - rewrite length_app. simpl. lia.
Qed.

(** ** The index map *)

Lemma buildIdx_notin (l : list BBPtr) i m b :
  b ∉ l → buildIdx l i m !! b = m !! b.
Proof.
  revert i m. induction l as [|a l IH]; intros i m Hb; [done|].
  simpl. rewrite IH by (intros ?; apply Hb; by right).
  apply lookup_insert_ne. intros ->. apply Hb. by left.
Qed.

Lemma buildIdx_lookup (l : list BBPtr) i m b j :
  NoDup l → l !! j = Some b →
  buildIdx l i m !! b = Some (i + Z.of_nat j)%Z.
Proof.
  intros Hnd. revert i m j. induction Hnd as [|a l Ha Hnd IH]; intros i m j Hj; [done|].
  simpl. destruct j as [|j]; simpl in Hj.
  - injection Hj as ->. rewrite buildIdx_notin by done.
    rewrite lookup_insert_eq. f_equal. lia.
  - rewrite (IH _ _ j) by done. f_equal. lia.
Qed.

Lemma idxOf_buildIdx (l : list BBPtr) b i :
  NoDup l → at_ l i = Some b → idxOf (buildIdx l 0 ∅) b = i.
Proof.
  intros Hnd [Hi Hb]%at_Some. unfold idxOf.
  rewrite (buildIdx_lookup l 0 ∅ b (Z.to_nat i)) by done. simpl. lia.
Qed.

(** ** Well-formed graphs *)

Lemma wfCFG_spec f :
  wfCFG f = true →
  getEntryBlock f ∈ getBasicBlockList f
  ∧ (∀ b s, b ∈ getBasicBlockList f → s ∈ getSuccessors f b →
       s ∈ getBasicBlockList f ∧ b ∈ getPredecessors f s)
  ∧ (∀ b p, b ∈ getBasicBlockList f → p ∈ getPredecessors f b →
       p ∈ getBasicBlockList f ∧ b ∈ getSuccessors f p).
Proof.
  unfold wfCFG. intros [He Hall]%andb_true_iff.
  apply bool_decide_eq_true in He. split; [done|].
  rewrite forallb_forall in Hall.
  split; intros b x Hb Hx; apply list_elem_of_In in Hb;
    specialize (Hall b Hb); apply andb_true_iff in Hall as [H1 H2].
  - rewrite forallb_forall in H1. apply list_elem_of_In in Hx.
    specialize (H1 x Hx). apply andb_true_iff in H1 as [Ha Hb'].
    by apply bool_decide_eq_true in Ha, Hb'.
  - rewrite forallb_forall in H2. apply list_elem_of_In in Hx.
    specialize (H2 x Hx). apply andb_true_iff in H2 as [Ha Hb'].
    by apply bool_decide_eq_true in Ha, Hb'.
Qed.

Lemma size_list_to_set_le (l : list BB) :
  (size (list_to_set (C := gset BB) l) ≤ length l)%nat.
Proof.
  induction l as [|a l IH]; [by rewrite list_to_set_nil, size_empty|].
  rewrite list_to_set_cons. simpl.
  pose proof (size_union_alt (C := gset BB) {[a]} (list_to_set l)) as Hsz.
  rewrite size_singleton in Hsz.
  assert (size (list_to_set (C := gset BB) l ∖ {[a]}) ≤ size (list_to_set (C := gset BB) l))%nat
    by (apply subseteq_size; set_solver).
  lia.
Qed.

(** ** The reverse postorder from the entry block *)

Section EntryOrder.
Variable f : SVFFunction.
Variable fuel : nat.
Hypothesis Hwf : wfCFG f = true.
Hypothesis Hfuel : (length (getBasicBlockList f) < fuel)%nat.

Lemma succs_closed u s :
  u ∈ list_to_set (C := gset BB) (getBasicBlockList f) →
  s ∈ getSuccessors f u →
  s ∈ list_to_set (C := gset BB) (getBasicBlockList f).
Proof using Hwf.
  destruct (wfCFG_spec f Hwf) as (_ & Hs & _).
  intros Hu%elem_of_list_to_set Hsu. apply elem_of_list_to_set.
  by apply (Hs u s).
Qed.

Lemma preds_closed u s :
  u ∈ list_to_set (C := gset BB) (getBasicBlockList f) →
  s ∈ getPredecessors f u →
  s ∈ list_to_set (C := gset BB) (getBasicBlockList f).
Proof using Hwf.
  destruct (wfCFG_spec f Hwf) as (_ & _ & Hp).
  intros Hu%elem_of_list_to_set Hsu. apply elem_of_list_to_set.
  by apply (Hp u s).
Qed.

Lemma entryOrder_spec :
  ∃ seg',
    entryOrder fuel f =
      Some (set_map (Some : BB → BBPtr)
              (list_to_set (C := gset BB) (seg' ++ [getEntryBlock f])),
            Some <$> reverse (seg' ++ [getEntryBlock f]))
    ∧ DFSSeg (getSuccessors f) [getEntryBlock f] ∅
        (seg' ++ [getEntryBlock f]).
Proof using Hwf Hfuel.
  destruct (wfCFG_spec f Hwf) as (He & _).
  destruct (DFSUtil_spec (getSuccessors f) _ succs_closed fuel
              (getEntryBlock f) ∅ [])
    as (seg' & Hrun & Hseg).
  { by apply elem_of_list_to_set. }
  { apply not_elem_of_empty. }
  { eapply Nat.le_lt_trans; [|done].
    etrans; [apply subseteq_size|apply size_list_to_set_le]. set_solver. }
  exists seg'. split; [|done]. unfold entryOrder. rewrite Hrun. simpl.
  by rewrite union_empty_l_L.
Qed.
End EntryOrder.

(** ** The index graph of an order without repetition *)

Section Order.
Variable order : list BBPtr.
Variable neighbours : BBPtr → option (list BBPtr).
Hypothesis Hnd : NoDup order.

Lemma at_order_inj i j b :
  at_ order i = Some b → at_ order j = Some b → i = j.
Proof using Hnd.
  intros [? Hi]%at_Some [? Hj]%at_Some.
  pose proof (NoDup_lookup order _ _ b Hnd Hi Hj). lia.
Qed.

Lemma elem_of_order pb :
  pb ∈ order ↔ ∃ i, at_ order i = Some pb.
Proof.
  rewrite list_elem_of_lookup. split.
  - intros [i Hi]. exists (Z.of_nat i). apply at_Some.
    split; [lia|]. by rewrite Nat2Z.id.
  - intros [i [? Hi]%at_Some]. by exists (Z.to_nat i).
Qed.

Lemma iedge_order p v :
  iedge order (list_to_set order) (buildIdx order 0 ∅) neighbours p v ↔
  ∃ b nbrs pb, at_ order v = Some b ∧ neighbours b = Some nbrs
               ∧ pb ∈ nbrs ∧ at_ order p = Some pb.
Proof using Hnd.
  unfold iedge, idxsOf. split.
  - intros (b & nbrs & Hb & Hnb & Hp).
    apply list_elem_of_fmap in Hp as (pb & -> & Hpb).
    apply list_elem_of_filter in Hpb as [Hin%elem_of_list_to_set Hpb].
    exists b, nbrs, pb. split; [done|]. split; [done|]. split; [done|].
    apply elem_of_order in Hin as [i Hi].
    by rewrite (idxOf_buildIdx order pb i Hnd Hi).
  - intros (b & nbrs & pb & Hb & Hnb & Hpb & Hp).
    exists b, nbrs. split; [done|]. split; [done|].
    apply list_elem_of_fmap. exists pb.
    split; [by rewrite (idxOf_buildIdx order pb p Hnd Hp)|].
    apply list_elem_of_filter. split; [|done].
    apply elem_of_list_to_set, elem_of_order. by exists p.
Qed.

Lemma iedge_order_range p v :
  iedge order (list_to_set order) (buildIdx order 0 ∅) neighbours p v →
  (0 ≤ p < Z.of_nat (length order))%Z.
Proof using Hnd.
  intros (b & nbrs & pb & _ & _ & _ & Hp%at_range)%iedge_order. done.
Qed.
End Order.

(** ** The index graph of [computeDominators] *)

Section DomGraph.
Variable f : SVFFunction.
Variable seg' : list BB.
Hypothesis Hwf : wfCFG f = true.
Hypothesis Hseg :
  DFSSeg (getSuccessors f) [getEntryBlock f] ∅ (seg' ++ [getEntryBlock f]).

Local Abbreviation seg := (seg' ++ [getEntryBlock f]).
Local Abbreviation order := (Some <$> reverse seg : list BBPtr).

Lemma dom_order_NoDup : NoDup order.
Proof using Hseg.
  destruct Hseg as (Hnd & _). apply NoDup_fmap; [apply _|].
  by rewrite reverse_Permutation.
Qed.

Lemma dom_order_head : at_ order 0 = Some (Some (getEntryBlock f)).
Proof. rewrite reverse_app. done. Qed.

Lemma dom_reachable_set :
  set_map (Some : BB → BBPtr) (list_to_set (C := gset BB) seg)
  = (list_to_set order : BBSet).
Proof.
  apply set_eq. intros x. rewrite elem_of_map, elem_of_list_to_set.
  rewrite list_elem_of_fmap. split.
  - intros (b & -> & Hb%elem_of_list_to_set). exists b.
    split; [done|]. by apply elem_of_reverse.
  - intros (b & -> & Hb). rewrite elem_of_reverse in Hb. exists b.
    split; [done|]. by apply elem_of_list_to_set.
Qed.

Lemma dom_order_elem i pb :
  at_ order i = Some pb → ∃ b, pb = Some b ∧ b ∈ seg.
Proof.
  intros (b & -> & Hb)%at_elem_of%list_elem_of_fmap.
  rewrite elem_of_reverse in Hb. by exists b.
Qed.

Lemma dom_order_pos b :
  b ∈ seg → ∃ i, at_ order i = Some (Some b).
Proof.
  intros Hb. apply elem_of_order, list_elem_of_fmap. exists b.
  split; [done|]. by apply elem_of_reverse.
Qed.

Lemma dom_seg_blocks b : b ∈ seg → b ∈ getBasicBlockList f.
Proof using Hwf Hseg.
  intros Hb. apply (elem_of_list_to_set (C := gset BB)).
  eapply (DFSSeg_universe (getSuccessors f)); [apply succs_closed; done| |done..].
  intros t ->%list_elem_of_singleton. apply elem_of_list_to_set.
  by destruct (wfCFG_spec f Hwf) as (? & _).
Qed.

Local Abbreviation n := (Z.of_nat (length order)).
Local Abbreviation Iedge :=
  (iedge order (list_to_set order) (buildIdx order 0 ∅) (predsOf f)).

Lemma dom_iedge p v :
  Iedge p v ↔
  ∃ a b, at_ order v = Some (Some b) ∧ at_ order p = Some (Some a)
         ∧ a ∈ getPredecessors f b.
Proof using Hseg.
  rewrite (iedge_order order (predsOf f) dom_order_NoDup). split.
  - intros (b & nbrs & pb & Hb & Hnb & Hpb & Hp).
    destruct b as [b|]; [|done]. injection Hnb as <-.
    apply list_elem_of_fmap in Hpb as (a & -> & Ha). by exists a, b.
  - intros (a & b & Hb & Ha & Hab).
    exists (Some b), (Some <$> getPredecessors f b), (Some a).
    split; [done|]. split; [done|]. split; [|done].
    by apply list_elem_of_fmap_2.
Qed.

Lemma dom_Hnbrs v :
  (0 < v < n)%Z →
  ∃ b nbrs, at_ order v = Some b ∧ predsOf f b = Some nbrs.
Proof.
  intros Hv. destruct (at_defined order v) as [pb Hpb]; [lia|].
  destruct (dom_order_elem v pb Hpb) as (b & -> & _).
  by exists (Some b), (Some <$> getPredecessors f b).
Qed.

Lemma dom_Hfwd v :
  (0 < v < n)%Z → ∃ p, Iedge p v ∧ (p < v)%Z.
Proof using Hwf Hseg.
  intros Hv. destruct (at_defined order v) as [pb Hpb]; [lia|].
  destruct (dom_order_elem v pb Hpb) as (b & -> & Hb).
  pose proof Hseg as (Hnd & _ & Hpar & _).
  destruct (Hpar b Hb) as [->%list_elem_of_singleton|(u & Hu & Hbefore)].
  { pose proof (at_order_inj order dom_order_NoDup _ _ _ Hpb dom_order_head).
    lia. }
  destruct (before_reverse seg b u Hbefore) as (i & j & Hi & Hj & Hij).
  assert (at_ order (Z.of_nat i) = Some (Some u)) as Hiu.
  { apply at_Some. split; [lia|]. rewrite Nat2Z.id, list_lookup_fmap, Hi. done. }
  assert (at_ order (Z.of_nat j) = Some (Some b)) as Hjb.
  { apply at_Some. split; [lia|]. rewrite Nat2Z.id, list_lookup_fmap, Hj. done. }
  pose proof (at_order_inj order dom_order_NoDup _ _ _ Hpb Hjb) as ->.
  exists (Z.of_nat i). split; [|lia].
  apply dom_iedge. exists u, b. split; [done|]. split; [done|].
  destruct (wfCFG_spec f Hwf) as (_ & Hs & _).
  apply (Hs u b); [|done]. apply dom_seg_blocks.
  apply elem_of_reverse, list_elem_of_lookup. by exists i.
Qed.

Lemma dom_root_idx : idxOf (buildIdx order 0 ∅) (Some (getEntryBlock f)) = 0%Z.
Proof using Hseg.
  apply idxOf_buildIdx; [apply dom_order_NoDup|apply dom_order_head].
Qed.

Lemma dom_order_length_pos : (0 < n)%Z.
Proof. pose proof (at_range _ _ _ dom_order_head). lia. Qed.

Lemma dom_order_length : (length order ≤ length (getBasicBlockList f))%nat.
Proof using Hwf Hseg.
  rewrite length_fmap, length_reverse.
  etrans; [|apply size_list_to_set_le].
  eapply (DFSSeg_length (getSuccessors f)); [apply succs_closed; done| |done].
  intros t ->%list_elem_of_singleton. apply elem_of_list_to_set.
  by destruct (wfCFG_spec f Hwf) as (? & _).
Qed.
End DomGraph.

(** ** [computeDominators] up to the vector [IDoms] *)

Lemma fastIDoms_spec f fuel :
  wfCFG f = true → (length (getBasicBlockList f) < fuel)%nat →
  ∃ seg' I,
    fastIDoms fuel f = Some (Some <$> reverse (seg' ++ [getEntryBlock f]), I)
    ∧ DFSSeg (getSuccessors f) [getEntryBlock f] ∅ (seg' ++ [getEntryBlock f])
    ∧ Tree (Z.of_nat (length (seg' ++ [getEntryBlock f]))) I
    ∧ (∀ u, (0 ≤ u < Z.of_nat (length (seg' ++ [getEntryBlock f])))%Z →
         assigned I u)
    ∧ Exact (Some <$> reverse (seg' ++ [getEntryBlock f]))
        (list_to_set (Some <$> reverse (seg' ++ [getEntryBlock f])))
        (buildIdx (Some <$> reverse (seg' ++ [getEntryBlock f])) 0 ∅)
        (predsOf f)
        (Z.of_nat (length (seg' ++ [getEntryBlock f]))) I.
Proof.
  intros Hwf Hfuel.
  destruct (entryOrder_spec f fuel Hwf Hfuel) as (seg' & Horder & Hseg).
  set (order := Some <$> reverse (seg' ++ [getEntryBlock f]) : list BBPtr) in *.
  assert (length order = length (seg' ++ [getEntryBlock f])) as Hlen
    by (unfold order; by rewrite length_fmap, length_reverse).
  destruct (solve_spec order (list_to_set order) (buildIdx order 0 ∅)
              (predsOf f) (Z.of_nat (length order)) fuel)
    as (I & Hsolve & HT & Hall & HE).
  - apply (dom_order_length_pos f seg').
  - done.
  - pose proof (dom_order_length f seg' Hwf Hseg). unfold order. lia.
  - intros p v. apply iedge_order_range. by apply dom_order_NoDup.
  - apply (dom_Hnbrs f seg').
  - apply (dom_Hfwd f seg' Hwf Hseg).
  - exists seg', I. rewrite <- Hlen. split; [|done].
    unfold fastIDoms. rewrite Horder. simpl. unfold order in *.
    rewrite (dom_reachable_set f seg'), (dom_root_idx f seg' Hseg).
    by rewrite Hsolve.
Qed.

Local Close Scope Z_scope.

(** ** The reverse postorder of the reversed graph *)

Section ExitOrder.
Variable f : SVFFunction.
Variable fuel : nat.
Hypothesis Hwf : wfCFG f = true.
Hypothesis Hfuel : (length (getBasicBlockList f) < fuel)%nat.

Lemma elem_of_exitBBs r :
  r ∈ elements (exitBBs f) ↔ isExit f r.
Proof.
  unfold exitBBs, isExit.
  rewrite elem_of_elements, elem_of_list_to_set, list_elem_of_filter.
  tauto.
Qed.

Lemma exit_not_pred r u :
  isExit f r → u ∈ getBasicBlockList f → r ∉ getPredecessors f u.
Proof using Hwf.
  intros [_ Hr] Hu Hin. destruct (wfCFG_spec f Hwf) as (_ & _ & Hp).
  destruct (Hp u r Hu Hin) as [_ Hsucc]. rewrite Hr in Hsucc.
  by apply elem_of_nil in Hsucc.
Qed.

Lemma exitOrder_spec :
  ∃ seg,
    exitOrder fuel f =
      Some ({[None]} ∪ set_map (Some : BB → BBPtr)
                         (list_to_set (C := gset BB) seg),
            None :: (Some <$> reverse seg))
    ∧ DFSSeg (getPredecessors f) (elements (exitBBs f)) ∅ seg
    ∧ ∀ r, isExit f r → r ∈ seg.
Proof using Hwf Hfuel.
  destruct (DFSFrom_spec (getPredecessors f) _ (preds_closed f Hwf) fuel
              (elements (exitBBs f)) ∅ [])
    as (seg & Hrun & Hseg & Hroots).
  { apply NoDup_elements. }
  { intros r Hr%elem_of_exitBBs. split; [|split].
    - apply elem_of_list_to_set. by destruct Hr.
    - apply not_elem_of_empty.
    - intros u Hu%elem_of_list_to_set. by apply exit_not_pred. }
  { eapply Nat.le_lt_trans; [apply size_list_to_set_le|done]. }
  exists seg. split; [|split; [done|]].
  - unfold exitOrder. rewrite Hrun. simpl. by rewrite union_empty_l_L.
  - intros r Hr. by apply Hroots, elem_of_exitBBs.
Qed.
End ExitOrder.

(** ** The index graph of [computePostDominators] *)

Section PostGraph.
Variable f : SVFFunction.
Variable seg : list BB.
Hypothesis Hwf : wfCFG f = true.
Hypothesis Hseg : DFSSeg (getPredecessors f) (elements (exitBBs f)) ∅ seg.

Local Abbreviation order := (None :: (Some <$> reverse seg) : list BBPtr).
Local Abbreviation n := (Z.of_nat (length order)).
Local Abbreviation Iedge :=
  (iedge order (list_to_set order) (buildIdx order 0 ∅) (succsOrExit f)).

Lemma post_order_NoDup : NoDup order.
Proof using Hseg.
  destruct Hseg as (Hnd & _). constructor.
  - by intros (b & ? & _)%list_elem_of_fmap.
  - apply NoDup_fmap; [apply _|]. by rewrite reverse_Permutation.
Qed.

Lemma post_reachable_set :
  {[None]} ∪ set_map (Some : BB → BBPtr) (list_to_set (C := gset BB) seg)
  = (list_to_set order : BBSet).
Proof.
  rewrite list_to_set_cons. f_equal.
  apply set_eq. intros x. rewrite elem_of_map, elem_of_list_to_set.
  rewrite list_elem_of_fmap. split.
  - intros (b & -> & Hb%elem_of_list_to_set). exists b.
    split; [done|]. by apply elem_of_reverse.
  - intros (b & -> & Hb). rewrite elem_of_reverse in Hb. exists b.
    split; [done|]. by apply elem_of_list_to_set.
Qed.

Lemma post_order_head : at_ order 0 = Some None.
Proof. done. Qed.

Lemma post_order_tail i pb :
  (0 < i)%Z → at_ order i = Some pb → ∃ b, pb = Some b ∧ b ∈ seg.
Proof.
  intros Hi [_ Hpb]%at_Some.
  destruct (Z.to_nat i) as [|j] eqn:Hj; [lia|]. simpl in Hpb.
  apply list_elem_of_lookup_2, list_elem_of_fmap in Hpb as (b & -> & Hb).
  rewrite elem_of_reverse in Hb. by exists b.
Qed.

Lemma post_order_pos b :
  b ∈ seg → ∃ i, (0 < i)%Z ∧ at_ order i = Some (Some b).
Proof.
  intros Hb. apply elem_of_reverse, list_elem_of_lookup in Hb as [j Hj].
  exists (Z.of_nat (S j)). split; [lia|]. apply at_Some. split; [lia|].
  rewrite Nat2Z.id. simpl. by rewrite list_lookup_fmap, Hj.
Qed.

Lemma post_seg_blocks b : b ∈ seg → b ∈ getBasicBlockList f.
Proof using Hwf Hseg.
  intros Hb. apply (elem_of_list_to_set (C := gset BB)).
  eapply (DFSSeg_universe (getPredecessors f)); [apply preds_closed; done| |done..].
  intros t [Ht _]%elem_of_exitBBs. by apply elem_of_list_to_set.
Qed.

Lemma succsOrExit_nonempty b :
  getSuccessors f b ≠ [] →
  succsOrExit f (Some b) = Some (Some <$> getSuccessors f b).
Proof. unfold succsOrExit. by destruct (getSuccessors f b). Qed.

Lemma succsOrExit_exit b :
  getSuccessors f b = [] → succsOrExit f (Some b) = Some [None].
Proof. unfold succsOrExit. by intros ->. Qed.

Lemma post_Hnbrs v :
  (0 < v < n)%Z →
  ∃ b nbrs, at_ order v = Some b ∧ succsOrExit f b = Some nbrs.
Proof.
  intros Hv. destruct (at_defined order v) as [pb Hpb]; [lia|].
  destruct (post_order_tail v pb) as (b & -> & _); [lia|done|].
  exists (Some b). unfold succsOrExit.
  destruct (getSuccessors f b); eauto.
Qed.

Lemma post_Hfwd v :
  (0 < v < n)%Z → ∃ p, Iedge p v ∧ (p < v)%Z.
Proof using Hwf Hseg.
  intros Hv. destruct (at_defined order v) as [pb Hpb]; [lia|].
  destruct (post_order_tail v pb) as (b & -> & Hb); [lia|done|].
  pose proof Hseg as (Hnd & _ & Hpar & _).
  destruct (Hpar b Hb) as [Hexit%elem_of_exitBBs|(u & Hu & Hbefore)].
  - exists 0%Z. split; [|lia].
    apply (iedge_order order (succsOrExit f) post_order_NoDup).
    exists (Some b), [None], None. split; [done|].
    split; [apply succsOrExit_exit; by destruct Hexit|].
    split; [by left|done].
  - destruct (before_reverse seg b u Hbefore) as (i & j & Hi & Hj & Hij).
    assert (at_ order (Z.of_nat (S i)) = Some (Some u)) as Hiu.
    { apply at_Some. split; [lia|]. rewrite Nat2Z.id. simpl.
      by rewrite list_lookup_fmap, Hi. }
    assert (at_ order (Z.of_nat (S j)) = Some (Some b)) as Hjb.
    { apply at_Some. split; [lia|]. rewrite Nat2Z.id. simpl.
      by rewrite list_lookup_fmap, Hj. }
    pose proof (at_order_inj order post_order_NoDup _ _ _ Hpb Hjb) as ->.
    exists (Z.of_nat (S i)). split; [|lia].
    apply (iedge_order order (succsOrExit f) post_order_NoDup).
    assert (u ∈ getSuccessors f b) as Hub.
    { destruct (wfCFG_spec f Hwf) as (_ & _ & Hp).
      apply (Hp u b); [|done]. apply post_seg_blocks.
      apply elem_of_reverse, list_elem_of_lookup. by exists i. }
    exists (Some b), (Some <$> getSuccessors f b), (Some u).
    split; [done|]. split; [|split; [by apply list_elem_of_fmap_2|done]].
    apply succsOrExit_nonempty. intros Hnil. rewrite Hnil in Hub.
    by apply elem_of_nil in Hub.
Qed.

Lemma post_order_length :
  (length order ≤ S (length (getBasicBlockList f)))%nat.
Proof using Hwf Hseg.
  simpl. rewrite length_fmap, length_reverse. apply le_n_S.
  etrans; [|apply size_list_to_set_le].
  eapply (DFSSeg_length (getPredecessors f)); [apply preds_closed; done| |done].
  intros t [Ht _]%elem_of_exitBBs. by apply elem_of_list_to_set.
Qed.
End PostGraph.

(** ** [computePostDominators] up to the vector [IPdoms] *)

Lemma fastIPdoms_spec f fuel :
  wfCFG f = true → (S (length (getBasicBlockList f)) < fuel)%nat →
  ∃ seg I,
    fastIPdoms fuel f = Some (None :: (Some <$> reverse seg), I)
    ∧ DFSSeg (getPredecessors f) (elements (exitBBs f)) ∅ seg
    ∧ (∀ r, isExit f r → r ∈ seg)
    ∧ Tree (Z.of_nat (S (length seg))) I
    ∧ (∀ u, (0 ≤ u < Z.of_nat (S (length seg)))%Z → assigned I u)
    ∧ Exact (None :: (Some <$> reverse seg))
        (list_to_set (None :: (Some <$> reverse seg)))
        (buildIdx (None :: (Some <$> reverse seg)) 0 ∅)
        (succsOrExit f)
        (Z.of_nat (S (length seg))) I.
Proof.
  intros Hwf Hfuel.
  destruct (exitOrder_spec f fuel Hwf) as (seg & Horder & Hseg & Hexits); [lia|].
  set (order := None :: (Some <$> reverse seg) : list BBPtr) in *.
  assert (length order = S (length seg)) as Hlen
    by (unfold order; simpl; by rewrite length_fmap, length_reverse).
  destruct (solve_spec order (list_to_set order) (buildIdx order 0 ∅)
              (succsOrExit f) (Z.of_nat (length order)) fuel)
    as (I & Hsolve & HT & Hall & HE).
  - rewrite Hlen. lia.
  - done.
  - pose proof (post_order_length f seg Hwf Hseg). unfold order. lia.
  - intros p v. apply iedge_order_range. apply (post_order_NoDup f seg Hseg).
  - apply (post_Hnbrs f seg).
  - apply (post_Hfwd f seg Hwf Hseg).
  - exists seg, I. rewrite <- Hlen. split; [|done].
    unfold fastIPdoms. rewrite Horder. cbn -[buildIdx solve]. unfold order in *.
    rewrite (post_reachable_set seg). by rewrite Hsolve.
Qed.

Local Open Scope Z_scope.

(** ** The tree maps *)

Lemma child_insertEdge m k v k' v' :
  child (insertEdge m k v) k' v' ↔ child m k' v' ∨ (k' = k ∧ v' = v).
Proof.
  unfold child, insertEdge. destruct (decide (k' = k)) as [->|Hne].
  - rewrite lookup_insert_eq. split.
    + intros (s & [= <-] & [->%elem_of_singleton|Hv]%elem_of_union); [by right|].
      left. destruct (m !! k) as [s|] eqn:Hs; [by exists s|].
      by apply elem_of_empty in Hv.
    + intros [(s & Hs & Hv)|[_ ->]].
      * eexists. split; [done|]. rewrite Hs. set_solver.
      * eexists. split; [done|]. set_solver.
  - rewrite lookup_insert_ne by done. split; [by left|].
    intros [?|[? _]]; done.
Qed.

Lemma key_insertEdge m k v k' :
  is_Some (insertEdge m k v !! k') ↔ is_Some (m !! k') ∨ k' = k.
Proof.
  unfold insertEdge. destruct (decide (k' = k)) as [->|Hne].
  - rewrite lookup_insert_eq. split; [by right|by eexists].
  - rewrite lookup_insert_ne by done. split; [by left|by intros [?|?]].
Qed.

Lemma insertEdge_absorb m k v : child m k v → insertEdge m k v = m.
Proof.
  intros (s & Hs & Hv). unfold insertEdge. rewrite Hs. simpl.
  apply insert_id. rewrite Hs. f_equal. set_solver.
Qed.

Lemma elem_of_edgeSet m k v : (k, v) ∈ edgeSet m ↔ child m k v.
Proof.
  unfold edgeSet, child. rewrite elem_of_list_to_set, list_elem_of_bind. split.
  - intros ([k' s] & Hkv & Hs%elem_of_map_to_list). simpl in Hkv.
    apply list_elem_of_fmap in Hkv as (v' & [= -> ->] & Hv%elem_of_elements).
    by exists s.
  - intros (s & Hs & Hv). exists (k, s). split; [|by apply elem_of_map_to_list].
    simpl. apply list_elem_of_fmap. exists v. split; [done|].
    by apply elem_of_elements.
Qed.

Section Publish.
Variable order : list BBPtr.
Variable keep : Z → Z → bool.
Variable I : list Z.

Local Abbreviation published := (published order keep I).
Local Abbreviation publish := (publish order keep I).

Lemma published_step lo hi k v :
  lo < hi →
  published lo hi k v ↔ published lo (lo + 1) k v ∨ published (lo + 1) hi k v.
Proof.
  intros Hlt. unfold Dominance.published. split.
  - intros (j & d & Hj & Hrest). destruct (decide (j = lo)) as [->|?].
    + left. exists lo, d. split; [lia|done].
    + right. exists j, d. split; [lia|done].
  - intros [(j & d & Hj & Hrest)|(j & d & Hj & Hrest)]; exists j, d; (split; [lia|done]).
Qed.

(** The publishing loop succeeds when every kept slot is an index of the
    order, and it adds exactly the published edges. *)
Lemma publish_spec cnt lo m :
  (∀ j, lo ≤ j < lo + Z.of_nat cnt →
     ∃ d v, at_ I j = Some d ∧ at_ order j = Some v
            ∧ (keep j d = true → ∃ k, at_ order d = Some k)) →
  ∃ m', publish cnt lo m = Some m'
        ∧ (∀ k v, child m' k v ↔
             child m k v ∨ published lo (lo + Z.of_nat cnt) k v)
        ∧ (∀ k, is_Some (m' !! k) ↔
             is_Some (m !! k) ∨ ∃ v, published lo (lo + Z.of_nat cnt) k v).
Proof.
  revert lo m. induction cnt as [|cnt IH]; intros lo m Hok.
  - exists m. split; [done|]. split.
    + intros k v. split; [by left|]. intros [?|(j & d & Hj & _)]; [done|lia].
    + intros k. split; [by left|]. intros [?|(v & j & d & Hj & _)]; [done|lia].
  - simpl. destruct (Hok lo) as (d & v & Hd & Hv & Hk); [lia|].
    unfold publishOne. rewrite Hd. simpl.
    destruct (keep lo d) eqn:Hkeep.
    + destruct (Hk eq_refl) as (k & Hkd). rewrite Hkd, Hv. simpl.
      destruct (IH (lo + 1) (insertEdge m k v)) as (m' & Hrun & Hch & Hkey).
      { intros j Hj. apply Hok. lia. }
      exists m'. split; [done|].
      replace (lo + 1 + Z.of_nat cnt) with (lo + Z.of_nat (S cnt)) in * by lia.
      split.
      * intros k' v'. rewrite Hch, child_insertEdge, (published_step lo) by lia.
        assert (published lo (lo + 1) k' v' ↔ k' = k ∧ v' = v) as ->; [|tauto].
        split.
        -- intros (j & d' & Hj & Hd' & _ & Hk' & Hv').
           assert (j = lo) as -> by lia. split; congruence.
        -- intros [-> ->]. exists lo, d. split; [lia|done].
      * intros k'. rewrite Hkey, key_insertEdge.
        split.
        -- intros [[?| ->]|(v' & Hp)]; [by left| |].
           ++ right. exists v, lo, d. split; [lia|done].
           ++ right. exists v'. rewrite (published_step lo) by lia. by right.
        -- intros [?|(v' & Hp)]; [by left; left|].
           rewrite (published_step lo) in Hp by lia.
           destruct Hp as [(j & d' & Hj & Hd' & _ & Hk' & Hv')|Hp];
             [|right; by exists v'].
           assert (j = lo) as -> by lia. left. right. congruence.
    + destruct (IH (lo + 1) m) as (m' & Hrun & Hch & Hkey).
      { intros j Hj. apply Hok. lia. }
      exists m'. split; [done|].
      replace (lo + 1 + Z.of_nat cnt) with (lo + Z.of_nat (S cnt)) in * by lia.
      assert (∀ k' v', published lo (lo + Z.of_nat (S cnt)) k' v' ↔
                       published (lo + 1) (lo + Z.of_nat (S cnt)) k' v') as Hsame.
      { intros k' v'. rewrite (published_step lo) by lia.
        split; [|by right]. intros [(j & d' & Hj & Hd' & Hkeep' & _)|?]; [|done].
        assert (j = lo) as -> by lia. congruence. }
      split.
      * intros k' v'. by rewrite Hch, Hsame.
      * intros k'. rewrite Hkey. by setoid_rewrite Hsame.
Qed.

(** Publishing into a map that already holds the edges changes nothing. *)
Lemma publish_absorb cnt lo m :
  (∀ j, lo ≤ j < lo + Z.of_nat cnt →
     ∃ d v, at_ I j = Some d ∧ at_ order j = Some v
            ∧ (keep j d = true → ∃ k, at_ order d = Some k)) →
  (∀ k v, published lo (lo + Z.of_nat cnt) k v → child m k v) →
  publish cnt lo m = Some m.
Proof.
  revert lo. induction cnt as [|cnt IH]; intros lo Hok Hin; [done|].
  simpl. destruct (Hok lo) as (d & v & Hd & Hv & Hk); [lia|].
  unfold publishOne. rewrite Hd. simpl.
  assert (publish cnt (lo + 1) m = Some m) as Hrest.
  { apply IH; [intros j Hj; apply Hok; lia|].
    intros k' v' (j & d' & Hj & Hp). apply Hin. exists j, d'. split; [lia|done]. }
  destruct (keep lo d) eqn:Hkeep; [|done].
  destruct (Hk eq_refl) as (k & Hkd). rewrite Hkd, Hv. simpl.
  rewrite insertEdge_absorb; [done|].
  apply Hin. exists lo, d. split; [lia|done].
Qed.
End Publish.

Local Open Scope Z_scope.

(** ** What the two analyses publish *)

Lemma keepDom_true i d : keepDom i d = true ↔ d ≠ -1 ∧ i ≠ d.
Proof.
  unfold keepDom. rewrite andb_true_iff, !bool_decide_eq_true. done.
Qed.

Lemma keepPostDom_true i d : keepPostDom i d = true ↔ d ≠ 0 ∧ d ≠ -1 ∧ i ≠ d.
Proof.
  unfold keepPostDom. rewrite !andb_true_iff, !bool_decide_eq_true. tauto.
Qed.

(** In a completed tree every slot but the root's points to a smaller index. *)
Lemma Tree_slot n I j :
  Tree n I → (∀ u, 0 ≤ u < n → assigned I u) → 0 < j < n →
  ∃ d, at_ I j = Some d ∧ 0 ≤ d < j.
Proof.
  intros HT Hall Hj. destruct (Hall j) as (d & Hd & Hne); [lia|].
  exists d. split; [done|]. destruct HT as (_ & _ & Hup).
  destruct (Hup j d Hj Hd) as [?|[? _]]; [done|lia].
Qed.

Lemma publish_ready (order : list BBPtr) keep n I lo cnt :
  Z.of_nat (length order) = n → Tree n I →
  (∀ u, 0 ≤ u < n → assigned I u) →
  0 ≤ lo → lo + Z.of_nat cnt = n →
  ∀ j, lo ≤ j < lo + Z.of_nat cnt →
    ∃ d v, at_ I j = Some d ∧ at_ order j = Some v
           ∧ (keep j d = true → ∃ k, at_ order d = Some k).
Proof.
  intros Hlen HT Hall Hlo Hcnt j Hj.
  destruct (at_defined order j) as [v Hv]; [lia|].
  destruct (decide (j = 0)) as [->|Hj0].
  - exists 0, v. destruct HT as (_ & H0 & _). split; [done|]. split; [done|].
    intros _. by exists v.
  - destruct (Tree_slot n I j HT Hall) as (d & Hd & Hdj); [lia|].
    exists d, v. split; [done|]. split; [done|]. intros _.
    apply at_defined. lia.
Qed.

(** The edges [computeDominators] adds: one from the immediate dominator
    of every index but the root. *)
Lemma published_dom (order : list BBPtr) n I k v :
  Z.of_nat (length order) = n → Tree n I →
  (∀ u, 0 ≤ u < n → assigned I u) →
  published order keepDom I 0 n k v ↔
  ∃ j d, 0 < j < n ∧ at_ I j = Some d ∧ 0 ≤ d < j
         ∧ at_ order d = Some k ∧ at_ order j = Some v.
Proof.
  intros Hlen HT Hall. unfold published. split.
  - intros (j & d & Hj & Hd & [Hd1 Hjd]%keepDom_true & Hk & Hv).
    destruct (decide (j = 0)) as [->|Hj0].
    { destruct HT as (_ & H0 & _). congruence. }
    destruct (Tree_slot n I j HT Hall) as (d' & Hd' & Hdj); [lia|].
    exists j, d. split; [lia|]. split; [done|]. split; [|done]. congruence.
  - intros (j & d & Hj & Hd & Hdj & Hk & Hv). exists j, d.
    split; [lia|]. split; [done|]. split; [|done].
    apply keepDom_true. lia.
Qed.

(** The edges [computePostDominators] adds: one from the immediate
    post-dominator of every index whose immediate post-dominator is not
    the virtual exit. *)
Lemma published_postdom (order : list BBPtr) n I k v :
  Z.of_nat (length order) = n → Tree n I →
  (∀ u, 0 ≤ u < n → assigned I u) →
  published order keepPostDom I 1 n k v ↔
  ∃ j d, 0 < j < n ∧ at_ I j = Some d ∧ 0 < d < j
         ∧ at_ order d = Some k ∧ at_ order j = Some v.
Proof.
  intros Hlen HT Hall. unfold published. split.
  - intros (j & d & Hj & Hd & (Hd0 & Hd1 & Hjd)%keepPostDom_true & Hk & Hv).
    destruct (Tree_slot n I j HT Hall) as (d' & Hd' & Hdj); [lia|].
    exists j, d. split; [lia|]. split; [done|]. split; [|done].
    assert (d' = d) by congruence. lia.
  - intros (j & d & Hj & Hd & Hdj & Hk & Hv). exists j, d.
    split; [lia|]. split; [done|]. split; [|done].
    apply keepPostDom_true. lia.
Qed.

(** [computeDominators] on a well-formed graph. *)
Lemma computeDominators_spec f fuel m :
  wfCFG f = true → (length (getBasicBlockList f) < fuel)%nat →
  ∃ seg' I m',
    fastIDoms fuel f = Some (Some <$> reverse (seg' ++ [getEntryBlock f]), I)
    ∧ computeDominators fuel f m = Some m'
    ∧ DFSSeg (getSuccessors f) [getEntryBlock f] ∅ (seg' ++ [getEntryBlock f])
    ∧ Tree (Z.of_nat (length (seg' ++ [getEntryBlock f]))) I
    ∧ (∀ u, 0 ≤ u < Z.of_nat (length (seg' ++ [getEntryBlock f])) →
         assigned I u)
    ∧ Exact (Some <$> reverse (seg' ++ [getEntryBlock f]))
        (list_to_set (Some <$> reverse (seg' ++ [getEntryBlock f])))
        (buildIdx (Some <$> reverse (seg' ++ [getEntryBlock f])) 0 ∅)
        (predsOf f)
        (Z.of_nat (length (seg' ++ [getEntryBlock f]))) I
    ∧ (∀ k v, child m' k v ↔
         child m k v
         ∨ published (Some <$> reverse (seg' ++ [getEntryBlock f])) keepDom I
             0 (Z.of_nat (length (seg' ++ [getEntryBlock f]))) k v)
    ∧ (∀ k, is_Some (m' !! k) ↔
         is_Some (m !! k)
         ∨ ∃ v, published (Some <$> reverse (seg' ++ [getEntryBlock f]))
                  keepDom I
                  0 (Z.of_nat (length (seg' ++ [getEntryBlock f]))) k v).
Proof.
  intros Hwf Hfuel.
  destruct (fastIDoms_spec f fuel Hwf Hfuel) as (seg' & I & Hfast & Hseg & HT & Hall & HE).
  set (order := Some <$> reverse (seg' ++ [getEntryBlock f]) : list BBPtr) in *.
  assert (length order = length (seg' ++ [getEntryBlock f])) as Hlen
    by (unfold order; by rewrite length_fmap, length_reverse).
  destruct (publish_spec order keepDom I (length order) 0 m)
    as (m' & Hpub & Hch & Hkey).
  { apply (publish_ready order keepDom (Z.of_nat (length order)));
      [done|by rewrite Hlen..|lia|lia]. }
  exists seg', I, m'. split; [done|]. split.
  { unfold computeDominators. rewrite Hfast. simpl. done. }
  rewrite Hlen, Z.add_0_l in Hch, Hkey. done.
Qed.

(** [computePostDominators] on a well-formed graph. *)
Lemma computePostDominators_spec f fuel m :
  wfCFG f = true → (S (length (getBasicBlockList f)) < fuel)%nat →
  ∃ seg I m',
    fastIPdoms fuel f = Some (None :: (Some <$> reverse seg), I)
    ∧ computePostDominators fuel f m = Some m'
    ∧ DFSSeg (getPredecessors f) (elements (exitBBs f)) ∅ seg
    ∧ (∀ r, isExit f r → r ∈ seg)
    ∧ Tree (Z.of_nat (S (length seg))) I
    ∧ (∀ u, 0 ≤ u < Z.of_nat (S (length seg)) → assigned I u)
    ∧ Exact (None :: (Some <$> reverse seg))
        (list_to_set (None :: (Some <$> reverse seg)))
        (buildIdx (None :: (Some <$> reverse seg)) 0 ∅)
        (succsOrExit f)
        (Z.of_nat (S (length seg))) I
    ∧ (∀ k v, child m' k v ↔
         child m k v
         ∨ published (None :: (Some <$> reverse seg)) keepPostDom I
             1 (Z.of_nat (S (length seg))) k v)
    ∧ (∀ k, is_Some (m' !! k) ↔
         is_Some (m !! k)
         ∨ ∃ v, published (None :: (Some <$> reverse seg)) keepPostDom I
                  1 (Z.of_nat (S (length seg))) k v).
Proof.
  intros Hwf Hfuel.
  destruct (fastIPdoms_spec f fuel Hwf Hfuel)
    as (seg & I & Hfast & Hseg & Hexits & HT & Hall & HE).
  set (order := None :: (Some <$> reverse seg) : list BBPtr) in *.
  assert (length order = S (length seg)) as Hlen
    by (unfold order; simpl; by rewrite length_fmap, length_reverse).
  destruct (publish_spec order keepPostDom I (length order - 1) 1 m)
    as (m' & Hpub & Hch & Hkey).
  { apply (publish_ready order keepPostDom (Z.of_nat (length order)));
      [done|by rewrite Hlen..|lia|lia]. }
  exists seg, I, m'. split; [done|]. split.
  { unfold computePostDominators. rewrite Hfast. simpl.
    rewrite length_fmap, length_reverse, Nat.sub_0_r.
    rewrite Hlen in Hpub. simpl in Hpub. by rewrite Nat.sub_0_r in Hpub. }
  replace (1 + Z.of_nat (length order - 1)) with (Z.of_nat (S (length seg)))
    in * by lia.
  done.
Qed.

Local Close Scope Z_scope.

(** ** More fuel changes no result *)

Lemma bind_Some_inv {A B} (o : option A) (g : A → option B) r :
  o ≫= g = Some r → ∃ a, o = Some a ∧ g a = Some r.
Proof. destruct o as [a|]; [by exists a|done]. Qed.

Lemma visitAll_mono (rec rec' : BB → DFSState → option DFSState) l st r :
  (∀ s st r, rec s st = Some r → rec' s st = Some r) →
  visitAll rec l st = Some r → visitAll rec' l st = Some r.
Proof.
  intros Hrec. revert st. induction l as [|s l IH]; intros st; [done|].
  simpl. case_decide; [apply IH|].
  intros (st' & Hs & Hrest)%bind_Some_inv.
  rewrite (Hrec _ _ _ Hs). simpl. by apply IH.
Qed.

Lemma DFSUtil_mono next f f' v st r :
  f ≤ f' → DFSUtil next f v st = Some r → DFSUtil next f' v st = Some r.
Proof.
  revert f' v st r. induction f as [|f IH]; intros f' v st r Hle; [done|].
  destruct f' as [|f']; [lia|]. simpl.
  intros (st' & Hs & Hrest)%bind_Some_inv.
  rewrite (visitAll_mono (DFSUtil next f) (DFSUtil next f') _ _ _
             ltac:(intros; apply (IH f'); [lia|done]) Hs).
  done.
Qed.

Lemma DFSFrom_mono next f f' roots st r :
  f ≤ f' → DFSFrom next f roots st = Some r → DFSFrom next f' roots st = Some r.
Proof.
  intros Hle. revert st. induction roots as [|x roots IH]; intros st; [done|].
  simpl. intros (st' & Hs & Hrest)%bind_Some_inv.
  rewrite (DFSUtil_mono next f f' _ _ _ Hle Hs). simpl. by apply IH.
Qed.

Lemma climb_mono k k' I B1 B2 r :
  k ≤ k' → climb k I B1 B2 = Some r → climb k' I B1 B2 = Some r.
Proof.
  revert k' B1. induction k as [|k IH]; intros k' B1 Hle; [done|].
  destruct k' as [|k']; [lia|]. simpl. case_decide; [|done].
  intros (b & -> & Hrest)%bind_Some_inv. simpl. apply IH; [lia|done].
Qed.

Lemma intersect_mono f f' k k' I B1 B2 r :
  f ≤ f' → k ≤ k' →
  intersect f k I B1 B2 = Some r → intersect f' k' I B1 B2 = Some r.
Proof.
  intros Hf. revert k' B1 B2. induction k as [|k IH]; intros k' B1 B2 Hle; [done|].
  destruct k' as [|k']; [lia|]. simpl. case_decide; [|done].
  intros (b1 & H1 & (b2 & H2 & Hrest)%bind_Some_inv)%bind_Some_inv.
  rewrite (climb_mono f f' _ _ _ _ Hf H1). simpl.
  rewrite (climb_mono f f' _ _ _ _ Hf H2). simpl.
  apply IH; [lia|done].
Qed.

Section FuelFixedPoint.
Variable revPostOrder : list BBPtr.
Variable reachable : BBSet.
Variable bbToIdx : gmap BBPtr Z.
Variable neighbours : BBPtr → option (list BBPtr).
Variable root : Z.
Variable f f' : nat.
Hypothesis Hf : f ≤ f'.

Lemma meetAll_mono I acc l r :
  meetAll reachable bbToIdx f I acc l = Some r →
  meetAll reachable bbToIdx f' I acc l = Some r.
Proof using Hf.
  revert acc. induction l as [|p l IH]; intros acc; [done|].
  simpl. intros (x & Hx & Hrest)%bind_Some_inv.
  assert (meetOne reachable bbToIdx f' I acc p = Some x) as ->.
  { revert Hx. unfold meetOne. case_decide; [|done].
    destruct (at_ I (idxOf bbToIdx p)); [|done]. simpl.
    repeat case_decide; try done. by apply intersect_mono. }
  simpl. by apply IH.
Qed.

Lemma visitNode_mono i st r :
  visitNode revPostOrder reachable bbToIdx neighbours root f i st = Some r →
  visitNode revPostOrder reachable bbToIdx neighbours root f' i st = Some r.
Proof using Hf.
  unfold visitNode. case_decide; [done|].
  destruct (at_ revPostOrder i); [|done]. simpl.
  destruct (neighbours o); [|done]. simpl.
  intros (x & Hx & Hrest)%bind_Some_inv.
  by rewrite (meetAll_mono _ _ _ _ Hx).
Qed.

Lemma sweep_mono k i st r :
  sweep revPostOrder reachable bbToIdx neighbours root f k i st = Some r →
  sweep revPostOrder reachable bbToIdx neighbours root f' k i st = Some r.
Proof using Hf.
  revert i st. induction k as [|k IH]; intros i st; [done|].
  simpl. intros (x & Hx & Hrest)%bind_Some_inv.
  rewrite (visitNode_mono _ _ _ Hx). simpl. by apply IH.
Qed.

Lemma iterate_mono k k' I r :
  k ≤ k' →
  iterate revPostOrder reachable bbToIdx neighbours root f k I = Some r →
  iterate revPostOrder reachable bbToIdx neighbours root f' k' I = Some r.
Proof using Hf.
  revert k' I. induction k as [|k IH]; intros k' I Hle; [done|].
  destruct k' as [|k']; [lia|]. simpl.
  intros ([I1 ch] & Hx & Hrest)%bind_Some_inv.
  rewrite (sweep_mono _ _ _ _ Hx). simpl. destruct ch; [|done].
  apply IH; [lia|done].
Qed.

Lemma solve_mono r :
  solve revPostOrder reachable bbToIdx neighbours root f = Some r →
  solve revPostOrder reachable bbToIdx neighbours root f' = Some r.
Proof using Hf. unfold solve. by apply iterate_mono. Qed.
End FuelFixedPoint.

Lemma fastIDoms_mono fn f f' r :
  f ≤ f' → fastIDoms f fn = Some r → fastIDoms f' fn = Some r.
Proof.
  intros Hf. unfold fastIDoms, entryOrder.
  intros (p & (st & Hdfs & [= <-])%bind_Some_inv & Hrest)%bind_Some_inv.
  rewrite (DFSUtil_mono _ f f' _ _ _ Hf Hdfs). cbn -[buildIdx solve] in *.
  apply bind_Some_inv in Hrest as (I & Hsolve & [= <-]).
  by rewrite (solve_mono _ _ _ _ _ f f' Hf _ Hsolve).
Qed.

Lemma fastIPdoms_mono fn f f' r :
  f ≤ f' → fastIPdoms f fn = Some r → fastIPdoms f' fn = Some r.
Proof.
  intros Hf. unfold fastIPdoms, exitOrder.
  intros (p & (st & Hdfs & [= <-])%bind_Some_inv & Hrest)%bind_Some_inv.
  rewrite (DFSFrom_mono _ f f' _ _ _ Hf Hdfs). cbn -[buildIdx solve] in *.
  apply bind_Some_inv in Hrest as (I & Hsolve & [= <-]).
  by rewrite (solve_mono _ _ _ _ _ f f' Hf _ Hsolve).
Qed.

Lemma computeDominators_mono fn f f' m r :
  f ≤ f' → computeDominators f fn m = Some r →
  computeDominators f' fn m = Some r.
Proof.
  intros Hf. unfold computeDominators.
  intros ([order I] & Hfast & Hrest)%bind_Some_inv.
  by rewrite (fastIDoms_mono fn f f' _ Hf Hfast).
Qed.

Lemma computePostDominators_mono fn f f' m r :
  f ≤ f' → computePostDominators f fn m = Some r →
  computePostDominators f' fn m = Some r.
Proof.
  intros Hf. unfold computePostDominators.
  intros ([order I] & Hfast & Hrest)%bind_Some_inv.
  by rewrite (fastIPdoms_mono fn f f' _ Hf Hfast).
Qed.

(** A run of [analyze] that ends gives the same result with any larger
    fuel. *)
Lemma analyze_mono fn f f' r0 r :
  f ≤ f' → analyze f fn r0 = Some r → analyze f' fn r0 = Some r.
Proof.
  intros Hf. unfold analyze.
  intros (dt & Hdt & (pdt & Hpdt & Hr)%bind_Some_inv)%bind_Some_inv.
  rewrite (computeDominators_mono fn f f' _ _ Hf Hdt). simpl.
  by rewrite (computePostDominators_mono fn f f' _ _ Hf Hpdt).
Qed.

Local Open Scope Z_scope.

(** ** Typestate labels and fresh symbolic states *)

Lemma labelToState_registered label t :
  labelToState label = inr t ↔ _typeMap !! label = Some t.
Proof.
  unfold labelToState. destruct (_typeMap !! label); split; congruence.
Qed.

(** C8. Every typestate has a label that [labelToState] maps back to it,
    and [labelToState] fails with [UnknownLabelError] on every string that
    the table does not hold. *)
Theorem label_bijection :
  (∀ t, ∃ label, stateToLabel t = Some label ∧ labelToState label = inr t)
  ∧ (∀ label, _typeMap !! label = None →
       labelToState label = inl UnknownLabelError).
Proof.
  split.
  - intros []; eexists; (split; [vm_compute; reflexivity|vm_compute; reflexivity]).
  - intros label Hnone. unfold labelToState. by rewrite Hnone.
Qed.

Lemma label_bijection_witness :
  _typeMap !! "bogus"%string = None
  ∧ labelToState "bogus" = inl UnknownLabelError.
Proof.
  assert (_typeMap !! "bogus"%string = None) as H by (vm_compute; reflexivity).
  split; [exact H|]. exact (proj2 label_bijection "bogus"%string H).
Defined.

(** C9. A symbolic state built from any execution state and any typestate
    carries the constant true as its branch condition. *)
Theorem fresh_state_condition (ConsExeState Z3Expr : Type)
    (bool_val : bool → Z3Expr) (es : ConsExeState) (ts : TypeState) :
  _branchCondition ConsExeState Z3Expr (newSymState ConsExeState Z3Expr bool_val es ts)
  = bool_val true.
Proof. reflexivity. Qed.

(** ** The diamond *)

(** C5. On the diamond the dominator map sends Entry to {A, B, C}, so the
    immediate dominator of C is Entry and neither A nor B has a child; the
    post-dominator map sends C to {A, B, Entry}. *)
Theorem diamond_maps (fuel : nat) :
  (7 ≤ fuel)%nat →
  ∃ r, analyze fuel diamond emptyInfo = Some r
       ∧ getDomTreeMap r !! Some 0%nat
         = Some {[Some 1%nat; Some 2%nat; Some 3%nat]}
       ∧ getDomTreeMap r !! Some 1%nat = None
       ∧ getDomTreeMap r !! Some 2%nat = None
       ∧ getPostDomTreeMap r !! Some 3%nat
         = Some {[Some 1%nat; Some 2%nat; Some 0%nat]}.
Proof.
  intros Hfuel. eexists. split.
  - apply (analyze_mono diamond 7 fuel); [lia|]. vm_compute. reflexivity.
  - repeat split; vm_compute; reflexivity.
Qed.

Lemma diamond_maps_witness :
  ∃ r, analyze 7 diamond emptyInfo = Some r
       ∧ getDomTreeMap r !! Some 0%nat
         = Some {[Some 1%nat; Some 2%nat; Some 3%nat]}
       ∧ getDomTreeMap r !! Some 1%nat = None
       ∧ getDomTreeMap r !! Some 2%nat = None
       ∧ getPostDomTreeMap r !! Some 3%nat
         = Some {[Some 1%nat; Some 2%nat; Some 0%nat]}.
Proof. apply (diamond_maps 7). lia. Defined.

Local Open Scope Z_scope.

(** ** Running the analysis twice *)

Lemma computeDominators_again f fuel m :
  wfCFG f = true → (length (getBasicBlockList f) < fuel)%nat →
  ∃ m', computeDominators fuel f m = Some m'
        ∧ computeDominators fuel f m' = Some m'
        ∧ ∀ k v, child m k v → child m' k v.
Proof.
  intros Hwf Hfuel.
  destruct (computeDominators_spec f fuel m Hwf Hfuel)
    as (seg' & I & m' & Hfast & Hrun & Hseg & HT & Hall & HE & Hch & Hkey).
  exists m'. split; [done|].
  split; [|intros k v Hkv; apply Hch; by left].
  unfold computeDominators. rewrite Hfast. simpl.
  set (order := Some <$> reverse (seg' ++ [getEntryBlock f]) : list BBPtr) in *.
  assert (length order = length (seg' ++ [getEntryBlock f])) as Hlen
    by (unfold order; by rewrite length_fmap, length_reverse).
  apply publish_absorb.
  - apply (publish_ready order keepDom (Z.of_nat (length order)));
      [done|by rewrite Hlen..|lia|lia].
  - intros k v Hp. apply Hch. right. by rewrite Z.add_0_l, Hlen in Hp.
Qed.

Lemma computePostDominators_again f fuel m :
  wfCFG f = true → (S (length (getBasicBlockList f)) < fuel)%nat →
  ∃ m', computePostDominators fuel f m = Some m'
        ∧ computePostDominators fuel f m' = Some m'
        ∧ ∀ k v, child m k v → child m' k v.
Proof.
  intros Hwf Hfuel.
  destruct (computePostDominators_spec f fuel m Hwf Hfuel)
    as (seg & I & m' & Hfast & Hrun & Hseg & Hexits & HT & Hall & HE & Hch & Hkey).
  exists m'. split; [done|].
  split; [|intros k v Hkv; apply Hch; by left].
  unfold computePostDominators. rewrite Hfast. simpl.
  set (order := None :: (Some <$> reverse seg) : list BBPtr) in *.
  assert (length order = S (length seg)) as Hlen
    by (unfold order; simpl; by rewrite length_fmap, length_reverse).
  replace (length (Some <$> reverse seg) - 0)%nat with (length order - 1)%nat
    by (unfold order; simpl; lia).
  apply publish_absorb.
  - apply (publish_ready order keepPostDom (Z.of_nat (length order)));
      [done|by rewrite Hlen..|lia|lia].
  - intros k v Hp. apply Hch. right.
    replace (1 + Z.of_nat (length order - 1)) with (Z.of_nat (S (length seg)))
      in Hp by lia.
    done.
Qed.

(** C7. On a well-formed function and with enough fuel, [analyze] returns
    from any prior contents of the two maps, and a second run on its result
    returns that result unchanged. The maps are added to, not overwritten:
    every edge they held before the first run is still in them after it. *)
Theorem analyze_idempotent f fuel r0 :
  wfCFG f = true → (S (length (getBasicBlockList f)) < fuel)%nat →
  ∃ r1, analyze fuel f r0 = Some r1
        ∧ analyze fuel f r1 = Some r1
        ∧ (∀ k v, child (getDomTreeMap r0) k v → child (getDomTreeMap r1) k v)
        ∧ (∀ k v, child (getPostDomTreeMap r0) k v →
             child (getPostDomTreeMap r1) k v).
Proof.
  intros Hwf Hfuel.
  destruct (computeDominators_again f fuel (getDomTreeMap r0) Hwf)
    as (dt & Hdt & Hdt' & Hkeep); [lia|].
  destruct (computePostDominators_again f fuel (getPostDomTreeMap r0) Hwf Hfuel)
    as (pdt & Hpdt & Hpdt' & Hpkeep).
  exists {| getDomTreeMap := dt; getPostDomTreeMap := pdt |}.
  unfold analyze. simpl. rewrite Hdt, Hdt'. simpl. rewrite Hpdt, Hpdt'. done.
Qed.

Lemma analyze_idempotent_witness :
  ∃ r1, analyze 7 diamond staleInfo = Some r1
        ∧ analyze 7 diamond r1 = Some r1
        ∧ (∀ k v, child (getDomTreeMap staleInfo) k v →
             child (getDomTreeMap r1) k v)
        ∧ (∀ k v, child (getPostDomTreeMap staleInfo) k v →
             child (getPostDomTreeMap r1) k v).
Proof.
  apply (analyze_idempotent diamond 7 staleInfo); [reflexivity|simpl; lia].
Defined.

(** C7, as stated, fails on the diamond when the dominator map already
    records A as the immediate dominator of C: the run keeps that entry,
    which a run on an empty map does not produce, so that C is left with
    the two parents Entry and A. *)
Lemma analyze_overwrite_counterexample :
  ∃ r1 r,
    analyze 7 diamond staleInfo = Some r1
    ∧ analyze 7 diamond emptyInfo = Some r
    ∧ getDomTreeMap r1 !! Some 1%nat = Some {[Some 3%nat]}
    ∧ getDomTreeMap r !! Some 1%nat = None
    ∧ child (getDomTreeMap r1) (Some 0%nat) (Some 3%nat)
    ∧ child (getDomTreeMap r1) (Some 1%nat) (Some 3%nat)
    ∧ getDomTreeMap r1 ≠ getDomTreeMap r.
Proof.
  eexists. eexists.
  split; [vm_compute; reflexivity|]. split; [vm_compute; reflexivity|].
  split; [vm_compute; reflexivity|]. split; [vm_compute; reflexivity|].
  split; [|split].
  - eexists. split; [vm_compute; reflexivity|]. set_solver.
  - eexists. split; [vm_compute; reflexivity|]. set_solver.
  - intros Heq.
    apply (f_equal (λ m : DominatorMap, m !! Some 1%nat)) in Heq.
    vm_compute in Heq. discriminate.
Qed.

(** ** The analysis from a fresh result *)

Lemma child_empty k v : ¬ child ∅ k v.
Proof. intros (s & Hs & _). by rewrite lookup_empty in Hs. Qed.

Lemma analyze_spec f fuel :
  wfCFG f = true → (S (length (getBasicBlockList f)) < fuel)%nat →
  ∃ seg' I seg J r,
    analyze fuel f emptyInfo = Some r
    ∧ fastIDoms fuel f = Some (domOrder f seg', I)
    ∧ fastIPdoms fuel f = Some (postOrder seg, J)
    ∧ DFSSeg (getSuccessors f) [getEntryBlock f] ∅ (seg' ++ [getEntryBlock f])
    ∧ Tree (Z.of_nat (length (domOrder f seg'))) I
    ∧ (∀ u, 0 ≤ u < Z.of_nat (length (domOrder f seg')) → assigned I u)
    ∧ Exact (domOrder f seg') (list_to_set (domOrder f seg'))
        (buildIdx (domOrder f seg') 0 ∅) (predsOf f)
        (Z.of_nat (length (domOrder f seg'))) I
    ∧ (∀ k v, child (getDomTreeMap r) k v ↔
         published (domOrder f seg') keepDom I
           0 (Z.of_nat (length (domOrder f seg'))) k v)
    ∧ (∀ k, is_Some (getDomTreeMap r !! k) ↔
         ∃ v, child (getDomTreeMap r) k v)
    ∧ DFSSeg (getPredecessors f) (elements (exitBBs f)) ∅ seg
    ∧ (∀ e, isExit f e → e ∈ seg)
    ∧ Tree (Z.of_nat (length (postOrder seg))) J
    ∧ (∀ u, 0 ≤ u < Z.of_nat (length (postOrder seg)) → assigned J u)
    ∧ Exact (postOrder seg) (list_to_set (postOrder seg))
        (buildIdx (postOrder seg) 0 ∅) (succsOrExit f)
        (Z.of_nat (length (postOrder seg))) J
    ∧ (∀ k v, child (getPostDomTreeMap r) k v ↔
         published (postOrder seg) keepPostDom J
           1 (Z.of_nat (length (postOrder seg))) k v)
    ∧ (∀ k, is_Some (getPostDomTreeMap r !! k) ↔
         ∃ v, child (getPostDomTreeMap r) k v).
Proof.
  intros Hwf Hfuel.
  destruct (computeDominators_spec f fuel ∅ Hwf)
    as (seg' & I & dt & Hfast & Hrun & Hseg & HT & Hall & HE & Hch & Hkey); [lia|].
  destruct (computePostDominators_spec f fuel ∅ Hwf Hfuel)
    as (seg & J & pdt & Hfast' & Hrun' & Hseg' & Hexits & HT' & Hall' & HE'
        & Hch' & Hkey').
  assert (length (domOrder f seg') = length (seg' ++ [getEntryBlock f])) as Hlen
    by (unfold domOrder; by rewrite length_fmap, length_reverse).
  assert (length (postOrder seg) = S (length seg)) as Hlen'
    by (unfold postOrder; simpl; by rewrite length_fmap, length_reverse).
  exists seg', I, seg, J, {| getDomTreeMap := dt; getPostDomTreeMap := pdt |}.
  rewrite Hlen, Hlen'. fold (domOrder f seg') in *. fold (postOrder seg) in *.
  simpl.
  assert (∀ k v, child dt k v ↔
            published (domOrder f seg') keepDom I 0
              (Z.of_nat (length (seg' ++ [getEntryBlock f]))) k v) as Hch1.
  { intros k v. rewrite Hch. split; [|by right].
    intros [?%child_empty|?]; done. }
  assert (∀ k v, child pdt k v ↔
            published (postOrder seg) keepPostDom J 1
              (Z.of_nat (S (length seg))) k v) as Hch1'.
  { intros k v. rewrite Hch'. split; [|by right].
    intros [?%child_empty|?]; done. }
  split; [unfold analyze; simpl; rewrite Hrun; simpl; by rewrite Hrun'|].
  do 7 (split; [done|]).
  split.
  { intros k. rewrite Hkey, lookup_empty. setoid_rewrite Hch1.
    split; [intros [[? [=]]|?]; done|by right]. }
  do 6 (split; [done|]).
  intros k. rewrite Hkey', lookup_empty. setoid_rewrite Hch1'.
  split; [intros [[? [=]]|?]; done|by right].
Qed.

Lemma rtc_preds_reverse f t b :
  wfCFG f = true → t ∈ getBasicBlockList f →
  rtc (stepTo (getPredecessors f)) t b → rtc (cfgEdge f) b t.
Proof.
  intros Hwf Ht Hrtc. destruct (wfCFG_spec f Hwf) as (_ & _ & Hp).
  induction Hrtc as [|t a b Hta _ IH]; [done|].
  destruct (Hp t a Ht Hta) as [Ha Hsucc].
  eapply rtc_r; [by apply IH|done].
Qed.

(** The blocks of the dominator order are those the entry block reaches. *)
Lemma dom_seg_reachable f seg' b :
  DFSSeg (getSuccessors f) [getEntryBlock f] ∅ (seg' ++ [getEntryBlock f]) →
  b ∈ seg' ++ [getEntryBlock f] ↔ reachableFromEntry f b.
Proof.
  intros Hseg. split.
  - intros Hb. destruct Hseg as (_ & _ & _ & _ & Hre).
    destruct (Hre b Hb) as (t & ->%list_elem_of_singleton & Hrtc). done.
  - intros Hrtc.
    apply (DFSSeg_complete (getSuccessors f) _ _ (getEntryBlock f) b Hseg);
      [|done].
    apply elem_of_app. right. by left.
Qed.

(** The blocks of the post-dominator order are the blocks of the function
    that reach an exit block. *)
Lemma post_seg_reachable f seg b :
  wfCFG f = true →
  DFSSeg (getPredecessors f) (elements (exitBBs f)) ∅ seg →
  (∀ e, isExit f e → e ∈ seg) →
  b ∈ seg ↔ b ∈ getBasicBlockList f ∧ reachesExit f b.
Proof.
  intros Hwf Hseg Hexits. split.
  - intros Hb. split; [by apply (post_seg_blocks f seg Hwf Hseg)|].
    pose proof Hseg as (_ & _ & _ & _ & Hre).
    destruct (Hre b Hb) as (t & Ht%elem_of_exitBBs & Hrtc).
    exists t. split; [done|]. apply rtc_preds_reverse; [done|by destruct Ht|done].
  - intros [Hb (e & He & Hrtc)].
    destruct (wfCFG_spec f Hwf) as (_ & Hs & _).
    pose proof Hseg as (_ & _ & _ & Hcl & _).
    induction Hrtc as [|b a e Hba _ IH]; [by apply Hexits|].
    destruct (Hs b a Hb Hba) as [Ha Hpred].
    specialize (IH Ha He).
    destruct (Hcl a b IH Hpred) as [Hemp|?]; [|done].
    by apply elem_of_empty in Hemp.
Qed.

Local Open Scope Z_scope.

(** ** The blocks the maps mention *)

Lemma published_dom_blocks f seg' I k v :
  Tree (Z.of_nat (length (domOrder f seg'))) I →
  (∀ u, 0 ≤ u < Z.of_nat (length (domOrder f seg')) → assigned I u) →
  published (domOrder f seg') keepDom I
    0 (Z.of_nat (length (domOrder f seg'))) k v →
  ∃ d b, k = Some d ∧ v = Some b
         ∧ d ∈ seg' ++ [getEntryBlock f] ∧ b ∈ seg' ++ [getEntryBlock f].
Proof.
  intros HT Hall (j & d & Hj & Hd & Hdj & Hk & Hv)%published_dom; [|done..].
  destruct (dom_order_elem f seg' _ _ Hk) as (x & -> & Hx).
  destruct (dom_order_elem f seg' _ _ Hv) as (y & -> & Hy).
  by exists x, y.
Qed.

Lemma published_postdom_blocks seg J k v :
  Tree (Z.of_nat (length (postOrder seg))) J →
  (∀ u, 0 ≤ u < Z.of_nat (length (postOrder seg)) → assigned J u) →
  published (postOrder seg) keepPostDom J
    1 (Z.of_nat (length (postOrder seg))) k v →
  ∃ d b, k = Some d ∧ v = Some b ∧ d ∈ seg ∧ b ∈ seg.
Proof.
  intros HT Hall (j & d & Hj & Hd & Hdj & Hk & Hv)%published_postdom; [|done..].
  destruct (post_order_tail seg d k) as (x & -> & Hx); [lia|done|].
  destruct (post_order_tail seg j v) as (y & -> & Hy); [lia|done|].
  by exists x, y.
Qed.

(** C10. From a fresh result, the post-dominator map never mentions the
    null block: each key and each child is a block of the function. *)
Theorem postdom_map_real_blocks f fuel :
  wfCFG f = true → (S (length (getBasicBlockList f)) < fuel)%nat →
  ∃ r, analyze fuel f emptyInfo = Some r
       ∧ ¬ occurs (getPostDomTreeMap r) None
       ∧ ∀ p, occurs (getPostDomTreeMap r) p →
           ∃ b, p = Some b ∧ b ∈ getBasicBlockList f.
Proof.
  intros Hwf Hfuel.
  destruct (analyze_spec f fuel Hwf Hfuel)
    as (seg' & I & seg & J & r & Hrun & _ & _ & _ & _ & _ & _ & _ & _
        & Hseg & _ & HT & Hall & _ & Hch & Hkey).
  exists r. split; [done|].
  assert (∀ p, occurs (getPostDomTreeMap r) p →
            ∃ b, p = Some b ∧ b ∈ getBasicBlockList f) as Hreal.
  { intros p [(v & Hp)%Hkey|(d & Hp)].
    - apply Hch, published_postdom_blocks in Hp as (x & y & -> & _ & Hx & _);
        [|done..].
      exists x. split; [done|]. by apply (post_seg_blocks f seg).
    - apply Hch, published_postdom_blocks in Hp as (x & y & _ & -> & _ & Hy);
        [|done..].
      exists y. split; [done|]. by apply (post_seg_blocks f seg). }
  split; [|done]. intros (b & [=] & _)%Hreal.
Qed.

Lemma postdom_map_real_blocks_witness :
  ∃ r, analyze 7 diamond emptyInfo = Some r
       ∧ ¬ occurs (getPostDomTreeMap r) None
       ∧ ∀ p, occurs (getPostDomTreeMap r) p →
           ∃ b, p = Some b ∧ b ∈ getBasicBlockList diamond.
Proof.
  apply (postdom_map_real_blocks diamond 7); [reflexivity|simpl; lia].
Defined.

(** C6. From a fresh result, a block that the entry block does not reach
    occurs nowhere in the dominator map, and a block that reaches no exit
    block occurs nowhere in the post-dominator map. *)
Theorem unreachable_blocks_absent f fuel :
  wfCFG f = true → (S (length (getBasicBlockList f)) < fuel)%nat →
  ∃ r, analyze fuel f emptyInfo = Some r
       ∧ (∀ b, ¬ reachableFromEntry f b →
            ¬ occurs (getDomTreeMap r) (Some b))
       ∧ (∀ b, ¬ reachesExit f b →
            ¬ occurs (getPostDomTreeMap r) (Some b)).
Proof.
  intros Hwf Hfuel.
  destruct (analyze_spec f fuel Hwf Hfuel)
    as (seg' & I & seg & J & r & Hrun & _ & _ & Hseg' & HT' & Hall' & _
        & Hch' & Hkey' & Hseg & Hexits & HT & Hall & _ & Hch & Hkey).
  exists r. split; [done|]. split.
  - intros b Hnot Hocc. apply Hnot.
    apply (dom_seg_reachable f seg' b Hseg').
    destruct Hocc as [(v & Hp)%Hkey'|(d & Hp)].
    + apply Hch', published_dom_blocks in Hp as (x & y & [= <-] & _ & Hx & _);
        done.
    + apply Hch', published_dom_blocks in Hp as (x & y & _ & [= <-] & _ & Hy);
        done.
  - intros b Hnot Hocc. apply Hnot.
    apply (post_seg_reachable f seg b Hwf Hseg Hexits).
    destruct Hocc as [(v & Hp)%Hkey|(d & Hp)].
    + apply Hch, published_postdom_blocks in Hp as (x & y & [= <-] & _ & Hx & _);
        done.
    + apply Hch, published_postdom_blocks in Hp as (x & y & _ & [= <-] & _ & Hy);
        done.
Qed.

(** In [deadEnds] no path leads from the entry block to block 3. *)
Lemma deadEnds_unreachable : ¬ reachableFromEntry deadEnds 3%nat.
Proof.
  intros Hreach. cut (3%nat ≠ 3%nat); [done|].
  revert Hreach. unfold reachableFromEntry.
  apply (rtc_ind_r (λ a : BB, a ≠ 3%nat)); [done|].
  intros y z _ Hyz Hy. unfold cfgEdge in Hyz.
  do 3 (destruct y as [|y];
        [simpl in Hyz; rewrite ?elem_of_cons, ?elem_of_nil in Hyz; lia|]).
  destruct y as [|y]; [done|]. simpl in Hyz.
  by apply elem_of_nil in Hyz.
Qed.

(** In [deadEnds] every path from block 1 stays in block 1, which is no
    exit block. *)
Lemma deadEnds_no_exit : ¬ reachesExit deadEnds 1%nat.
Proof.
  intros (e & [_ He] & Hreach).
  assert (e = 1%nat) as ->; [|done].
  clear He. revert e Hreach. apply (rtc_ind_r (λ a : BB, a = 1%nat)); [done|].
  intros y z _ Hyz ->. unfold cfgEdge in Hyz. simpl in Hyz.
  rewrite ?elem_of_cons, ?elem_of_nil in Hyz. tauto.
Qed.

Lemma unreachable_blocks_absent_witness :
  ∃ r, analyze 6 deadEnds emptyInfo = Some r
       ∧ (∀ b, ¬ reachableFromEntry deadEnds b →
            ¬ occurs (getDomTreeMap r) (Some b))
       ∧ (∀ b, ¬ reachesExit deadEnds b →
            ¬ occurs (getPostDomTreeMap r) (Some b))
       ∧ ¬ reachableFromEntry deadEnds 3%nat
       ∧ ¬ occurs (getDomTreeMap r) (Some 3%nat)
       ∧ ¬ reachesExit deadEnds 1%nat
       ∧ ¬ occurs (getPostDomTreeMap r) (Some 1%nat).
Proof.
  destruct (unreachable_blocks_absent deadEnds 6) as (r & Hr & Hd & Hp);
    [reflexivity|simpl; lia|].
  exists r. split; [exact Hr|]. split; [exact Hd|]. split; [exact Hp|].
  split; [exact deadEnds_unreachable|].
  split; [exact (Hd _ deadEnds_unreachable)|].
  split; [exact deadEnds_no_exit|].
  exact (Hp _ deadEnds_no_exit).
Defined.

(** ** Exit blocks *)

(** The slot of an exit block holds index [0], the virtual exit. *)
Lemma exit_slot f seg J e :
  wfCFG f = true →
  DFSSeg (getPredecessors f) (elements (exitBBs f)) ∅ seg →
  Tree (Z.of_nat (length (postOrder seg))) J →
  (∀ u, 0 ≤ u < Z.of_nat (length (postOrder seg)) → assigned J u) →
  Exact (postOrder seg) (list_to_set (postOrder seg))
    (buildIdx (postOrder seg) 0 ∅) (succsOrExit f)
    (Z.of_nat (length (postOrder seg))) J →
  isExit f e → e ∈ seg →
  ∃ i, 0 < i ∧ at_ (postOrder seg) i = Some (Some e) ∧ at_ J i = Some 0.
Proof.
  intros Hwf Hseg HT Hall HE He Hin.
  destruct (post_order_pos seg e Hin) as (i & Hi & Hie).
  exists i. split; [done|]. split; [done|].
  pose proof (at_range _ _ _ Hie) as Hir.
  destruct (Tree_slot _ J i HT Hall) as (d & Hd & Hdi); [unfold postOrder in *; lia|].
  rewrite Hd. f_equal.
  assert (anc J d i) as Hanc by (eapply anc_up; [done|lia|constructor]).
  apply HE in Hanc; [|unfold postOrder in *; lia].
  assert (iedge (postOrder seg) (list_to_set (postOrder seg))
            (buildIdx (postOrder seg) 0 ∅) (succsOrExit f) 0 i) as Hedge.
  { apply (iedge_order _ _ (post_order_NoDup f seg Hseg)).
    exists (Some e), [None], None. split; [done|].
    split; [apply succsOrExit_exit; by destruct He|]. split; [by left|done]. }
  specialize (Hanc 0%nat [i; 0]
                (bwalk_fwd _ _ _ _ _ _ _ _ (bwalk_root _ _ _ _ _) Hedge Hi)).
  apply elem_of_cons in Hanc as [?|Hanc]; [lia|].
  by apply list_elem_of_singleton in Hanc.
Qed.

(** C3. With two distinct exit blocks, the slot of each holds the index of
    the virtual exit, which heads the order; the map has no entry for the
    virtual exit, and no edge leads to either exit block. *)
Theorem exit_blocks_ipdom f fuel E1 E2 :
  wfCFG f = true → (S (length (getBasicBlockList f)) < fuel)%nat →
  isExit f E1 → isExit f E2 → E1 ≠ E2 →
  ∃ order IPdoms r,
    fastIPdoms fuel f = Some (order, IPdoms)
    ∧ analyze fuel f emptyInfo = Some r
    ∧ at_ order 0 = Some None
    ∧ (∃ i, at_ order i = Some (Some E1) ∧ at_ IPdoms i = Some 0)
    ∧ (∃ i, at_ order i = Some (Some E2) ∧ at_ IPdoms i = Some 0)
    ∧ getPostDomTreeMap r !! None = None
    ∧ ¬ occurs (getPostDomTreeMap r) None
    ∧ (¬ ∃ d, child (getPostDomTreeMap r) d (Some E1))
    ∧ (¬ ∃ d, child (getPostDomTreeMap r) d (Some E2)).
Proof.
  intros Hwf Hfuel He1 He2 Hne.
  destruct (analyze_spec f fuel Hwf Hfuel)
    as (seg' & I & seg & J & r & Hrun & _ & Hfast & _ & _ & _ & _ & _ & _
        & Hseg & Hexits & HT & Hall & HE & Hch & Hkey).
  exists (postOrder seg), J, r. split; [done|]. split; [done|].
  split; [done|].
  destruct (exit_slot f seg J E1 Hwf Hseg HT Hall HE He1 (Hexits E1 He1))
    as (i1 & Hi1 & Ho1 & Hs1).
  destruct (exit_slot f seg J E2 Hwf Hseg HT Hall HE He2 (Hexits E2 He2))
    as (i2 & Hi2 & Ho2 & Hs2).
  split; [by exists i1|]. split; [by exists i2|].
  assert (¬ occurs (getPostDomTreeMap r) None) as Hnone.
  { intros [(v & Hp)%Hkey|(d & Hp)].
    - by apply Hch, published_postdom_blocks in Hp as (x & y & [=] & _).
    - by apply Hch, published_postdom_blocks in Hp as (x & y & _ & [=] & _). }
  split.
  { destruct (getPostDomTreeMap r !! None) eqn:Hl; [|done].
    exfalso. apply Hnone. left. by rewrite Hl. }
  split; [done|].
  assert (∀ e i, at_ (postOrder seg) i = Some (Some e) → at_ J i = Some 0 →
            ¬ ∃ d, child (getPostDomTreeMap r) d (Some e)) as Hroot.
  { intros e i Ho Hs (d & (j & dj & Hj & Hdj & Hpos & Hk & Hv)%Hch%published_postdom);
      [|done..].
    pose proof (at_order_inj _ (post_order_NoDup f seg Hseg) _ _ _ Ho Hv) as ->.
    rewrite Hs in Hdj. injection Hdj as <-. lia. }
  split; [by apply (Hroot E1 i1)|by apply (Hroot E2 i2)].
Qed.

Lemma exit_blocks_ipdom_witness :
  ∃ order IPdoms r,
    fastIPdoms 5 twoExits = Some (order, IPdoms)
    ∧ analyze 5 twoExits emptyInfo = Some r
    ∧ at_ order 0 = Some None
    ∧ (∃ i, at_ order i = Some (Some 1%nat) ∧ at_ IPdoms i = Some 0)
    ∧ (∃ i, at_ order i = Some (Some 2%nat) ∧ at_ IPdoms i = Some 0)
    ∧ getPostDomTreeMap r !! None = None
    ∧ ¬ occurs (getPostDomTreeMap r) None
    ∧ (¬ ∃ d, child (getPostDomTreeMap r) d (Some 1%nat))
    ∧ (¬ ∃ d, child (getPostDomTreeMap r) d (Some 2%nat)).
Proof.
  apply (exit_blocks_ipdom twoExits 5 1%nat 2%nat);
    [reflexivity|simpl; lia| | |lia].
  - split; [vm_compute; right; left|reflexivity].
  - split; [vm_compute; right; right; left|reflexivity].
Defined.

Local Open Scope Z_scope.

(** ** Paths of the graph and paths of the index graph *)

Section DomWalks.
Variable f : SVFFunction.
Variable seg' : list BB.
Hypothesis Hwf : wfCFG f = true.
Hypothesis Hseg :
  DFSSeg (getSuccessors f) [getEntryBlock f] ∅ (seg' ++ [getEntryBlock f]).

Local Abbreviation seg := (seg' ++ [getEntryBlock f]).
Local Abbreviation order := (domOrder f seg').
Local Abbreviation pos := (λ x : BB, idxOf (buildIdx order 0 ∅) (Some x)).

Lemma dom_pos_at b : b ∈ seg → at_ order (pos b) = Some (Some b).
Proof using Hseg.
  intros Hb. destruct (dom_order_pos f seg' b Hb) as (i & Hi).
  fold (domOrder f seg') in Hi.
  by rewrite (idxOf_buildIdx order (Some b) i (dom_order_NoDup f seg' Hseg) Hi).
Qed.

Lemma walk_bwalk b W :
  walk f b W →
  (∀ x, x ∈ W → x ∈ seg) ∧ b ∈ seg
  ∧ ∃ k, bwalk order (list_to_set order) (buildIdx order 0 ∅) (predsOf f)
           k (pos b) (pos <$> W).
Proof using Hwf Hseg.
  induction 1 as [|a b W Hw (Hall & Ha & k & Hk) Hab].
  - assert (getEntryBlock f ∈ seg) as He by (apply elem_of_app; right; by left).
    split; [by intros x ->%list_elem_of_singleton|]. split; [done|].
    exists 0%nat. simpl. unfold domOrder. rewrite (dom_root_idx f seg' Hseg).
    constructor.
  - assert (b ∈ seg) as Hb.
    { pose proof Hseg as (_ & _ & _ & Hcl & _).
      destruct (Hcl a b Ha Hab) as [Hemp|?]; [|done].
      by apply elem_of_empty in Hemp. }
    split; [intros x [->|?]%elem_of_cons; [done|by apply Hall]|].
    split; [done|].
    assert (iedge order (list_to_set order) (buildIdx order 0 ∅) (predsOf f)
              (pos a) (pos b)) as Hedge.
    { apply (dom_iedge f seg' Hseg). exists a, b.
      split; [by apply dom_pos_at|]. split; [by apply dom_pos_at|].
      destruct (wfCFG_spec f Hwf) as (_ & Hs & _).
      apply (Hs a b); [|done]. by apply (dom_seg_blocks f seg'). }
    destruct (decide (pos a < pos b)) as [Hlt|Hge].
    + exists k. simpl. by eapply bwalk_fwd.
    + exists (S k). simpl. eapply bwalk_back; [done..|lia].
Qed.
End DomWalks.

(** ** Immediate dominators *)

Lemma dom_unique_parent (f : SVFFunction) (seg' : list BB) (I : list Z)
    (m : DominatorMap) (d d' b : BBPtr) :
  DFSSeg (getSuccessors f) [getEntryBlock f] ∅ (seg' ++ [getEntryBlock f]) →
  Tree (Z.of_nat (length (domOrder f seg'))) I →
  (∀ u, 0 ≤ u < Z.of_nat (length (domOrder f seg')) → assigned I u) →
  (∀ k v, child m k v ↔
     published (domOrder f seg') keepDom I
       0 (Z.of_nat (length (domOrder f seg'))) k v) →
  child m d b → child m d' b → d = d'.
Proof.
  intros Hseg HT Hall Hch H1%Hch H2%Hch.
  apply published_dom in H1 as (j & dj & Hj & Hdj & _ & Hk & Hv); [|done..].
  apply published_dom in H2 as (j' & dj' & Hj' & Hdj' & _ & Hk' & Hv'); [|done..].
  pose proof (at_order_inj _ (dom_order_NoDup f seg' Hseg) _ _ _ Hv Hv') as <-.
  congruence.
Qed.

(** C4. From a fresh result, when the dominator map gives block [b] the
    immediate dominator [d], the entry block reaches [b], [d] lies on
    every path from the entry block to [b], and the ancestors of [b] in the
    map, with [b], are [b] and the ancestors of [d], with [d]. *)
Theorem idom_dominates f fuel :
  wfCFG f = true → (S (length (getBasicBlockList f)) < fuel)%nat →
  ∃ r, analyze fuel f emptyInfo = Some r
       ∧ ∀ d b, child (getDomTreeMap r) (Some d) (Some b) →
           reachableFromEntry f b
           ∧ dominates f d b
           ∧ ∀ x, treeDom (getDomTreeMap r) x (Some b) ↔
                  x = Some b ∨ treeDom (getDomTreeMap r) x (Some d).
Proof.
  intros Hwf Hfuel.
  destruct (analyze_spec f fuel Hwf Hfuel)
    as (seg' & I & seg & J & r & Hrun & _ & _ & Hseg & HT & Hall & HE
        & Hch & Hkey & _).
  exists r. split; [done|]. intros d b Hdb.
  pose proof Hdb as Hpub%Hch.
  apply published_dom in Hpub as (j & dj & Hj & Hdj & Hlt & Hk & Hv); [|done..].
  assert (b ∈ seg' ++ [getEntryBlock f]) as Hb.
  { destruct (dom_order_elem f seg' _ _ Hv) as (y & [= <-] & Hy). done. }
  assert (d ∈ seg' ++ [getEntryBlock f]) as Hd.
  { destruct (dom_order_elem f seg' _ _ Hk) as (y & [= <-] & Hy). done. }
  split; [by apply (dom_seg_reachable f seg' b Hseg)|]. split.
  - intros W HW.
    destruct (walk_bwalk f seg' Hwf Hseg b W HW) as (HallW & _ & k & Hbw).
    pose proof (dom_pos_at f seg' Hseg b Hb) as Hpb.
    pose proof (at_order_inj _ (dom_order_NoDup f seg' Hseg) _ _ _ Hpb Hv) as Hj'.
    rewrite Hj' in Hbw.
    assert (anc I dj j) as Hanc by (eapply anc_up; [done|lia|constructor]).
    apply HE in Hanc; [|lia].
    specialize (Hanc k _ Hbw).
    apply list_elem_of_fmap in Hanc as (x & Hx & HxW).
    pose proof (dom_pos_at f seg' Hseg x (HallW x HxW)) as Hpx.
    cbv beta in Hx. rewrite Hx, Hpx in Hk. by injection Hk as ->.
  - intros x. unfold treeDom. split.
    + intros [->|(p & Hxp & Hpb)]%rtc_inv_r; [by left|right].
      by rewrite (dom_unique_parent f seg' I _ _ _ _ Hseg HT Hall Hch Hdb Hpb).
    + intros [->|Hxd]; [done|]. by eapply rtc_r.
Qed.

Lemma idom_dominates_witness :
  ∃ r, analyze 7 diamond emptyInfo = Some r
       ∧ ∀ d b, child (getDomTreeMap r) (Some d) (Some b) →
           reachableFromEntry diamond b
           ∧ dominates diamond d b
           ∧ ∀ x, treeDom (getDomTreeMap r) x (Some b) ↔
                  x = Some b ∨ treeDom (getDomTreeMap r) x (Some d).
Proof.
  apply (idom_dominates diamond 7); [reflexivity|simpl; lia].
Defined.

Local Open Scope Z_scope.

(** ** Counting edges *)

Lemma size_set_map_inj `{Countable A} `{Countable B} (g : A → B) (X : gset A) :
  (∀ x y, x ∈ X → y ∈ X → g x = g y → x = y) →
  size (set_map g X : gset B) = size X.
Proof.
  intros Hinj. unfold set_map. rewrite size_list_to_set.
  - by rewrite length_fmap.
  - apply NoDup_fmap_2_strong; [|apply NoDup_elements].
    intros x y Hx%elem_of_elements Hy%elem_of_elements. by apply Hinj.
Qed.

(** A map in which every child has one parent has as many edges as
    children. *)
Lemma edge_count (m : DominatorMap) (C : BBSet) :
  (∀ v, v ∈ C ↔ ∃ k, child m k v) →
  (∀ v k k', child m k v → child m k' v → k = k') →
  size (edgeSet m) = size C.
Proof.
  intros HC Huniq.
  assert (C = set_map snd (edgeSet m)) as ->.
  { apply set_eq. intros v. rewrite HC, elem_of_map. split.
    - intros (k & Hk). exists (k, v). split; [done|]. by apply elem_of_edgeSet.
    - intros ([k v'] & -> & Hk%elem_of_edgeSet). by exists k. }
  symmetry. apply size_set_map_inj.
  intros [k v] [k' v'] Hkv%elem_of_edgeSet Hkv'%elem_of_edgeSet Heq.
  simpl in Heq. destruct Heq. f_equal. by apply (Huniq v).
Qed.

Lemma acyclic_by_rank (m : DominatorMap) (rank : BBPtr → Z) :
  (∀ k v, child m k v → rank k < rank v) → acyclic m.
Proof.
  intros Hrank b Hb.
  assert (∀ x y, tc (child m) x y → rank x < rank y) as Htc.
  { intros x y Hxy. induction Hxy as [x y Hxy|x y z Hxy _ IH].
    - by apply Hrank.
    - specialize (Hrank x y Hxy). lia. }
  specialize (Htc b b Hb). lia.
Qed.

(** ** The shape of the two maps *)

Lemma dom_child_rank (f : SVFFunction) (seg' : list BB) (I : list Z) k v :
  DFSSeg (getSuccessors f) [getEntryBlock f] ∅ (seg' ++ [getEntryBlock f]) →
  Tree (Z.of_nat (length (domOrder f seg'))) I →
  (∀ u, 0 ≤ u < Z.of_nat (length (domOrder f seg')) → assigned I u) →
  published (domOrder f seg') keepDom I
    0 (Z.of_nat (length (domOrder f seg'))) k v →
  idxOf (buildIdx (domOrder f seg') 0 ∅) k
  < idxOf (buildIdx (domOrder f seg') 0 ∅) v.
Proof.
  intros Hseg HT Hall Hp.
  apply published_dom in Hp as (j & d & Hj & Hd & Hdj & Hk & Hv); [|done..].
  rewrite (idxOf_buildIdx (domOrder f seg') k d (dom_order_NoDup f seg' Hseg) Hk).
  rewrite (idxOf_buildIdx (domOrder f seg') v j (dom_order_NoDup f seg' Hseg) Hv). lia.
Qed.

Lemma post_child_rank (f : SVFFunction) (seg : list BB) (J : list Z) k v :
  DFSSeg (getPredecessors f) (elements (exitBBs f)) ∅ seg →
  Tree (Z.of_nat (length (postOrder seg))) J →
  (∀ u, 0 ≤ u < Z.of_nat (length (postOrder seg)) → assigned J u) →
  published (postOrder seg) keepPostDom J
    1 (Z.of_nat (length (postOrder seg))) k v →
  idxOf (buildIdx (postOrder seg) 0 ∅) k
  < idxOf (buildIdx (postOrder seg) 0 ∅) v.
Proof.
  intros Hseg HT Hall Hp.
  apply published_postdom in Hp as (j & d & Hj & Hd & Hdj & Hk & Hv); [|done..].
  rewrite (idxOf_buildIdx (postOrder seg) k d (post_order_NoDup f seg Hseg) Hk).
  rewrite (idxOf_buildIdx (postOrder seg) v j (post_order_NoDup f seg Hseg) Hv). lia.
Qed.

Lemma post_unique_parent (f : SVFFunction) (seg : list BB) (J : list Z)
    (m : DominatorMap) (d d' b : BBPtr) :
  DFSSeg (getPredecessors f) (elements (exitBBs f)) ∅ seg →
  Tree (Z.of_nat (length (postOrder seg))) J →
  (∀ u, 0 ≤ u < Z.of_nat (length (postOrder seg)) → assigned J u) →
  (∀ k v, child m k v ↔
     published (postOrder seg) keepPostDom J
       1 (Z.of_nat (length (postOrder seg))) k v) →
  child m d b → child m d' b → d = d'.
Proof.
  intros Hseg HT Hall Hch H1%Hch H2%Hch.
  apply published_postdom in H1 as (j & dj & Hj & Hdj & _ & Hk & Hv); [|done..].
  apply published_postdom in H2 as (j' & dj' & Hj' & Hdj' & _ & Hk' & Hv'); [|done..].
  pose proof (at_order_inj _ (post_order_NoDup f seg Hseg) _ _ _ Hv Hv') as <-.
  congruence.
Qed.

(** A block of the dominator order other than the entry block has a
    parent. *)
Lemma dom_has_parent (f : SVFFunction) (seg' : list BB) (I : list Z) b :
  DFSSeg (getSuccessors f) [getEntryBlock f] ∅ (seg' ++ [getEntryBlock f]) →
  Tree (Z.of_nat (length (domOrder f seg'))) I →
  (∀ u, 0 ≤ u < Z.of_nat (length (domOrder f seg')) → assigned I u) →
  b ∈ seg' ++ [getEntryBlock f] → b ≠ getEntryBlock f →
  ∃ k, published (domOrder f seg') keepDom I
         0 (Z.of_nat (length (domOrder f seg'))) k (Some b).
Proof.
  intros Hseg HT Hall Hb Hne.
  destruct (dom_order_pos f seg' b Hb) as (j & Hj).
  fold (domOrder f seg') in Hj. pose proof (at_range _ _ _ Hj) as Hjr.
  assert (j ≠ 0) as Hj0.
  { intros ->. pose proof (dom_order_head f seg') as Hh.
    fold (domOrder f seg') in Hh. congruence. }
  destruct (Tree_slot _ I j HT Hall) as (d & Hd & Hdj); [lia|].
  destruct (at_defined (domOrder f seg') d) as (k & Hk); [lia|].
  exists k. apply published_dom; [done..|]. exists j, d.
  split; [lia|done].
Qed.

Lemma dom_entry_no_parent (f : SVFFunction) (seg' : list BB) (I : list Z) k :
  DFSSeg (getSuccessors f) [getEntryBlock f] ∅ (seg' ++ [getEntryBlock f]) →
  Tree (Z.of_nat (length (domOrder f seg'))) I →
  (∀ u, 0 ≤ u < Z.of_nat (length (domOrder f seg')) → assigned I u) →
  ¬ published (domOrder f seg') keepDom I
      0 (Z.of_nat (length (domOrder f seg'))) k (Some (getEntryBlock f)).
Proof.
  intros Hseg HT Hall Hp.
  apply published_dom in Hp as (j & d & Hj & Hd & Hdj & Hk & Hv); [|done..].
  pose proof (dom_order_head f seg') as Hh. fold (domOrder f seg') in Hh.
  pose proof (at_order_inj _ (dom_order_NoDup f seg' Hseg) _ _ _ Hv Hh). lia.
Qed.

Lemma post_pos_at (f : SVFFunction) (seg : list BB) b :
  DFSSeg (getPredecessors f) (elements (exitBBs f)) ∅ seg → b ∈ seg →
  0 < idxOf (buildIdx (postOrder seg) 0 ∅) (Some b)
  ∧ at_ (postOrder seg) (idxOf (buildIdx (postOrder seg) 0 ∅) (Some b))
    = Some (Some b).
Proof.
  intros Hseg Hb. destruct (post_order_pos seg b Hb) as (i & Hi & Hie).
  fold (postOrder seg) in Hie.
  by rewrite (idxOf_buildIdx (postOrder seg) (Some b) i
                (post_order_NoDup f seg Hseg) Hie).
Qed.

(** C2, as stated, fails on the function with two exit blocks: its three
    blocks all reach an exit block, yet the post-dominator map is empty, so
    that it holds no edge at all and gives the exit block E1 no parent. *)
Lemma postdom_tree_counterexample :
  ∃ r, analyze 5 twoExits emptyInfo = Some r
       ∧ (∀ b, b ∈ getBasicBlockList twoExits → reachesExit twoExits b)
       ∧ getPostDomTreeMap r = ∅
       ∧ size (edgeSet (getPostDomTreeMap r)) = 0%nat
       ∧ ¬ ∃ d, child (getPostDomTreeMap r) d (Some 1%nat).
Proof.
  eexists. split; [vm_compute; reflexivity|].
  assert (isExit twoExits 1%nat) as He1.
  { split; [|reflexivity]. right. by left. }
  assert (isExit twoExits 2%nat) as He2.
  { split; [|reflexivity]. right. right. by left. }
  split; [|split; [vm_compute; reflexivity|split; [vm_compute; reflexivity|]]].
  - intros b Hb. simpl in Hb.
    apply elem_of_cons in Hb as [->|Hb].
    { exists 1%nat. split; [done|]. apply rtc_once. left. }
    apply elem_of_cons in Hb as [->|Hb]; [by exists 1%nat|].
    apply elem_of_cons in Hb as [->|Hb]; [by exists 2%nat|].
    by apply elem_of_nil in Hb.
  - intros (d & s & Hs & _). vm_compute in Hs. discriminate.
Qed.

Local Open Scope Z_scope.

(** ** The classical set-intersection loop *)

Lemma inDom_insert_eq (D : list (gset Z)) v s x :
  0 ≤ v < Z.of_nat (length D) → inDom (<[Z.to_nat v := s]> D) v x ↔ x ∈ s.
Proof.
  intros Hv. unfold inDom. rewrite at_insert_eq by done. split.
  - intros (s' & [= <-] & ?). done.
  - intros ?. by exists s.
Qed.

Lemma inDom_insert_ne (D : list (gset Z)) v w s x :
  0 ≤ v → v ≠ w → inDom (<[Z.to_nat v := s]> D) w x ↔ inDom D w x.
Proof.
  intros Hv Hne. unfold inDom. by rewrite at_insert_ne.
Qed.

Lemma weight_insert (D : list (gset Z)) v s s' :
  at_ D v = Some s →
  (weight (<[Z.to_nat v := s']> D) + size s = weight D + size s')%nat.
Proof.
  intros [_ H]%at_Some. revert H. generalize (Z.to_nat v). clear v.
  unfold weight. induction D as [|a D IH]; intros [|i] H; try done.
  - injection H as ->. simpl. lia.
  - cbn in *. specialize (IH i H). rewrite <- !Nat.add_assoc. f_equal. exact IH.
Qed.

Lemma weight_bound (D : list (gset Z)) (m : nat) :
  (∀ s, s ∈ D → (size s ≤ m)%nat) → (weight D ≤ length D * m)%nat.
Proof.
  unfold weight. induction D as [|a D IH]; intros H; [done|].
  change (sum_list (size <$> a :: D)) with (size a + sum_list (size <$> D))%nat.
  change (length (a :: D)) with (S (length D)).
  assert (size a ≤ m)%nat by (apply H; left).
  assert (sum_list (size <$> D) ≤ length D * m)%nat
    by (apply IH; intros s Hs; apply H; by right).
  lia.
Qed.

Lemma size_indices_le (l : list Z) :
  (size (list_to_set (C := gset Z) l) ≤ length l)%nat.
Proof.
  induction l as [|a l IH]; [by rewrite list_to_set_nil, size_empty|].
  rewrite list_to_set_cons. simpl.
  pose proof (size_union_alt (C := gset Z) {[a]} (list_to_set l)) as Hsz.
  rewrite size_singleton in Hsz.
  assert (size (list_to_set (C := gset Z) l ∖ {[a]})
          ≤ size (list_to_set (C := gset Z) l))%nat
    by (apply subseteq_size; set_solver).
  lia.
Qed.

Lemma at_fmap_seqZ {A} (g : Z → A) n v :
  0 ≤ v < n → at_ (g <$> seqZ 0 n) v = Some (g v).
Proof.
  intros Hv. apply at_Some. split; [lia|].
  rewrite list_lookup_fmap.
  assert (seqZ 0 n !! Z.to_nat v = Some v) as ->; [|done].
  apply lookup_seqZ. lia.
Qed.

Section ClassicLoop.
Variable revPostOrder : list BBPtr.
Variable reachable : BBSet.
Variable bbToIdx : gmap BBPtr Z.
Variable neighbours : BBPtr → option (list BBPtr).
Variable n : Z.
Hypothesis Hn : 0 < n.
Hypothesis Hlen : Z.of_nat (length revPostOrder) = n.
Hypothesis Hrange :
  ∀ p v, iedge revPostOrder reachable bbToIdx neighbours p v → 0 ≤ p < n.
Hypothesis Hnbrs :
  ∀ v, 0 < v < n →
    ∃ b nbrs, at_ revPostOrder v = Some b ∧ neighbours b = Some nbrs.
Hypothesis Hfwd :
  ∀ v, 0 < v < n →
    ∃ p, iedge revPostOrder reachable bbToIdx neighbours p v ∧ p < v.

Local Abbreviation iedge := (iedge revPostOrder reachable bbToIdx neighbours).
Local Abbreviation bwalk := (bwalk revPostOrder reachable bbToIdx neighbours).
Local Abbreviation idom_star :=
  (idom_star revPostOrder reachable bbToIdx neighbours).
Local Abbreviation joined :=
  (joined revPostOrder reachable bbToIdx neighbours).
Local Abbreviation Refining :=
  (Refining revPostOrder reachable bbToIdx neighbours n).
Local Abbreviation Settled :=
  (Settled revPostOrder reachable bbToIdx neighbours n).
Local Abbreviation ExactSets :=
  (ExactSets revPostOrder reachable bbToIdx neighbours n).
Local Abbreviation refineNode :=
  (refineNode revPostOrder reachable bbToIdx neighbours 0).
Local Abbreviation refineSweep :=
  (refineSweep revPostOrder reachable bbToIdx neighbours 0).
Local Abbreviation refine :=
  (refine revPostOrder reachable bbToIdx neighbours 0).

(** Every index is reached from the root by increasing edges. *)
Lemma walk_to v : 0 ≤ v < n → ∃ W, bwalk 0 v W.
Proof using Hrange Hfwd.
  intros Hv. remember (Z.to_nat v) as m eqn:Hm. revert v Hv Hm.
  induction m as [m IH] using lt_wf_ind. intros v Hv Hm.
  destruct (decide (v = 0)) as [->|Hv0].
  - exists [0]. constructor.
  - destruct (Hfwd v) as (p & He & Hp); [lia|].
    pose proof (Hrange p v He) as Hpr.
    destruct (IH (Z.to_nat p)) with (v := p) as [W HW]; [lia|lia|done|].
    exists (v :: W). by eapply bwalk_fwd.
Qed.

Lemma idom_star_range x v : 0 ≤ v < n → idom_star x v → 0 ≤ x < n.
Proof using Hn Hlen Hrange Hfwd.
  intros Hv H. destruct (walk_to v Hv) as [W HW].
  eapply (bwalk_elem_range revPostOrder reachable bbToIdx neighbours n);
    [done..|exact HW|by apply H in HW].
Qed.

(** The loop over the neighbours leaves their common members. *)
Lemma joinAll_spec (D : list (gset Z)) l acc first :
  (∀ p, p ∈ idxsOf reachable bbToIdx l → ∃ s, at_ D p = Some s) →
  ∃ acc' first',
    joinAll reachable bbToIdx D (acc, first) l = Some (acc', first')
    ∧ (first' = true →
         first = true ∧ idxsOf reachable bbToIdx l = [] ∧ acc' = acc)
    ∧ (first' = false →
         ∀ x, x ∈ acc' ↔
           (first = false → x ∈ acc)
           ∧ ∀ p, p ∈ idxsOf reachable bbToIdx l → inDom D p x).
Proof.
  revert acc first. induction l as [|pb l IH]; intros acc first Hdef.
  - exists acc, first. split; [done|]. split; [done|].
    intros -> x. split.
    + intros Hx. split; [done|]. intros p Hp. by apply elem_of_nil in Hp.
    + intros [Hx _]. by apply Hx.
  - simpl. unfold joinOne. rewrite idxsOf_cons in Hdef |- *.
    case_decide as Hreach.
    + destruct (Hdef (idxOf bbToIdx pb)) as [s Hs]; [left|].
      rewrite Hs. simpl.
      destruct (IH (if first then s else acc ∩ s) false) as
        (acc' & first' & Hj & Htrue & Hfalse).
      { intros p Hp. apply Hdef. by right. }
      exists acc', first'.
      split; [by destruct first|].
      split; [intros Hf; by destruct (Htrue Hf)|].
      intros Hf x. rewrite (Hfalse Hf x). split.
      * intros [Hx Hall]. specialize (Hx eq_refl). split.
        -- intros ->. set_solver.
        -- intros p [->|Hp]%elem_of_cons; [|by apply Hall].
           exists s. split; [done|]. destruct first; set_solver.
      * intros [Hacc Hall]. split.
        -- intros _. destruct (Hall (idxOf bbToIdx pb)) as (s' & Hs' & Hx);
             [left|]. assert (s' = s) as -> by congruence.
           destruct first; [done|]. specialize (Hacc eq_refl). set_solver.
        -- intros p Hp. apply Hall. by right.
    + simpl. apply IH. done.
Qed.

(** One visit replaces the set of [v] by what its neighbours share, with
    [v] added. *)
Lemma refineNode_spec (D : list (gset Z)) ch v :
  Refining D → 0 < v < n →
  ∃ s,
    refineNode v (D, ch) =
      Some (<[Z.to_nat v := s]> D, ch || bool_decide (at_ D v ≠ Some s))
    ∧ ∀ x, x ∈ s ↔ joined D v x.
Proof using Hn Hlen Hrange Hnbrs Hfwd.
  intros (HDlen & HD0 & HDr & HDs & HDp) Hv.
  destruct (Hnbrs v Hv) as (b & nbrs & Hb & Hnb).
  unfold Dominance.refineNode. rewrite decide_False by lia.
  rewrite Hb. simpl. rewrite Hnb. simpl.
  destruct (joinAll_spec D nbrs ∅ true) as (acc & first & Hj & Htrue & Hfalse).
  { intros p Hp. apply at_defined. rewrite HDlen.
    apply (Hrange p v). by apply (iedge_idxs revPostOrder reachable bbToIdx neighbours p v b nbrs). }
  rewrite Hj. simpl.
  destruct (at_defined D v) as [cur Hcur]; [lia|].
  rewrite Hcur. simpl.
  assert (first = false) as ->.
  { destruct first; [|done]. destruct (Htrue eq_refl) as (_ & Hnil & _).
    destruct (Hfwd v Hv) as (p & Hp & _).
    apply (iedge_idxs revPostOrder reachable bbToIdx neighbours p v b nbrs) in Hp; [|done..].
    rewrite Hnil in Hp. by apply elem_of_nil in Hp. }
  exists ({[v]} ∪ acc). split.
  - case_decide as Hne.
    + rewrite bool_decide_true by congruence. by rewrite orb_true_r.
    + assert (cur = {[v]} ∪ acc) as ->
        by (destruct (decide (cur = {[v]} ∪ acc)); [done|]; by exfalso).
      rewrite bool_decide_false by (intros H; by apply H).
      rewrite orb_false_r. f_equal. f_equal. symmetry.
      apply list_insert_id. by apply at_Some in Hcur as [_ ?].
  - intros x. rewrite elem_of_union, elem_of_singleton, (Hfalse eq_refl x).
    unfold Dominance.joined. split.
    + intros [->|[_ Hall]]; [by left|]. right. intros p Hp.
      apply Hall. by apply (iedge_idxs revPostOrder reachable bbToIdx neighbours p v b nbrs).
    + intros [->|Hall]; [by left|]. right. split; [done|].
      intros p Hp. apply Hall. by apply (iedge_idxs revPostOrder reachable bbToIdx neighbours p v b nbrs).
Qed.

(** A visit keeps the invariant and never adds a member. *)
Lemma Refining_step (D : list (gset Z)) v s :
  Refining D → 0 < v < n → (∀ x, x ∈ s ↔ joined D v x) →
  Refining (<[Z.to_nat v := s]> D)
  ∧ (weight (<[Z.to_nat v := s]> D) ≤ weight D)%nat
  ∧ (at_ D v ≠ Some s → (weight (<[Z.to_nat v := s]> D) < weight D)%nat).
Proof using Hn Hlen Hrange Hfwd.
  intros (HDlen & HD0 & HDr & HDs & HDp) Hv Hs.
  destruct (at_defined D v) as [cur Hcur]; [lia|].
  assert (s ⊆ cur) as Hsub.
  { intros x Hx. apply Hs in Hx. destruct (HDp v x Hv Hx) as (c & Hc & ?).
    congruence. }
  assert (∀ w x, inDom (<[Z.to_nat v := s]> D) w x → inDom D w x) as Hmono.
  { intros w x. destruct (decide (w = v)) as [->|Hne].
    - rewrite inDom_insert_eq by lia. intros Hx. exists cur. split; [done|].
      by apply Hsub.
    - by rewrite inDom_insert_ne by lia. }
  split; [|split].
  - split; [by rewrite length_insert|].
    split; [by rewrite at_insert_ne by lia|].
    split; [intros w x Hx; eapply HDr, Hmono, Hx|].
    split.
    + intros w x Hw Hx. destruct (decide (w = v)) as [->|Hne].
      * rewrite inDom_insert_eq by lia. apply Hs.
        destruct (decide (x = v)) as [->|Hxv]; [by left|]. right.
        intros p Hp. apply HDs; [by eapply Hrange|].
        by eapply idom_star_pred.
      * rewrite inDom_insert_ne by lia. by apply HDs.
    + intros w x Hw Hj.
      assert (joined D w x) as Hj'.
      { destruct Hj as [->|Hall]; [by left|]. right. intros p Hp.
        by apply Hmono, Hall. }
      destruct (decide (w = v)) as [->|Hne].
      * rewrite inDom_insert_eq by lia. by apply Hs.
      * rewrite inDom_insert_ne by lia. by apply HDp.
  - pose proof (weight_insert D v cur s Hcur).
    pose proof (subseteq_size s cur Hsub). lia.
  - intros Hne. pose proof (weight_insert D v cur s Hcur).
    assert (s ⊂ cur) as Hstrict.
    { split; [done|]. intros Hsup. apply Hne. rewrite Hcur. f_equal.
      apply set_eq. intros x. split; [apply Hsup|apply Hsub]. }
    pose proof (subset_size s cur Hstrict). lia.
Qed.

Lemma refineSweep_spec cnt j (D : list (gset Z)) ch :
  Refining D → 0 ≤ j → j + Z.of_nat cnt = n →
  ∃ D' ch',
    refineSweep cnt j (D, ch) = Some (D', ch')
    ∧ Refining D'
    ∧ (weight D' ≤ weight D)%nat
    ∧ (ch' = true → ch = true ∨ (weight D' < weight D)%nat)
    ∧ (ch' = false →
         ch = false ∧ D' = D
         ∧ ∀ v x, j ≤ v < n → 0 < v → inDom D v x → joined D v x).
Proof using Hn Hlen Hrange Hnbrs Hfwd.
  revert j D ch. induction cnt as [|cnt IH]; intros j D ch HD Hj0 Hjn.
  - exists D, ch. split; [done|]. split; [done|]. split; [done|].
    split; [by left|]. intros ->. split; [done|]. split; [done|]. intros; lia.
  - simpl. destruct (decide (j = 0)) as [->|Hj].
    + unfold Dominance.refineNode. rewrite decide_True by done. simpl.
      destruct (IH 1 D ch) as (D' & ch' & Hsw & HD' & Hw & Ht & Hf);
        [done|lia|lia|].
      exists D', ch'. split; [done|]. split; [done|]. split; [done|].
      split; [done|].
      intros Hch. destruct (Hf Hch) as (? & ? & Hrest).
      split; [done|]. split; [done|]. intros v x ? ?. apply Hrest; lia.
    + destruct (refineNode_spec D ch j HD) as (s & Hv & Hs); [lia|].
      rewrite Hv. simpl.
      destruct (Refining_step D j s HD) as (HD1 & Hw1 & Hlt1); [lia|done|].
      destruct (IH (j + 1) (<[Z.to_nat j := s]> D)
                  (ch || bool_decide (at_ D j ≠ Some s)))
        as (D' & ch' & Hsw & HD' & Hw & Ht & Hf); [done|lia|lia|].
      exists D', ch'. split; [done|]. split; [done|]. split; [lia|].
      split.
      * intros Hch. destruct (Ht Hch) as [Hor|Hlt]; [|right; lia].
        apply orb_true_iff in Hor as [->|Hdiff]; [by left|].
        apply bool_decide_eq_true in Hdiff. right.
        specialize (Hlt1 Hdiff). lia.
      * intros Hch. destruct (Hf Hch) as (Hor & -> & Hrest).
        apply orb_false_iff in Hor as [-> Hsame].
        apply bool_decide_eq_false in Hsame.
        assert (at_ D j = Some s) as Hat
          by (destruct (decide (at_ D j = Some s)); [done|contradiction]).
        assert (<[Z.to_nat j := s]> D = D) as Heq
          by (apply list_insert_id; by apply at_Some in Hat as [_ ?]).
        rewrite Heq in Hrest |- *.
        split; [done|]. split; [done|]. intros v x Hvr Hv0 Hx.
        destruct (decide (v = j)) as [->|Hne].
        -- apply Hs. destruct Hx as (s' & Hs' & Hx). congruence.
        -- apply Hrest; [lia|done..].
Qed.

(** The loop ends before it has run more sweeps than the sets have
    members. *)
Lemma refine_spec k (D : list (gset Z)) :
  Refining D → (weight D < k)%nat →
  ∃ D', refine k D = Some D' ∧ Refining D' ∧ Settled D'.
Proof using Hn Hlen Hrange Hnbrs Hfwd.
  revert D. induction k as [|k IH]; intros D HD Hk; [lia|].
  simpl.
  destruct (refineSweep_spec (length revPostOrder) 0 D false HD)
    as (D1 & ch1 & Hsw & HD1 & Hw & Ht & Hf); [lia|lia|].
  rewrite Hsw. simpl. destruct ch1.
  - destruct (Ht eq_refl) as [?|Hlt]; [done|]. apply IH; [done|lia].
  - destruct (Hf eq_refl) as (_ & -> & Hst). exists D.
    split; [done|]. split; [done|]. intros v x Hv Hx. apply Hst; [lia..|done].
Qed.

(** Sets that no visit changes hold exactly the dominators. *)
Lemma Settled_exact (D : list (gset Z)) :
  Refining D → Settled D → ExactSets D.
Proof using Hn Hlen Hrange.
  intros (HDlen & HD0 & HDr & HDs & HDp) Hst. split; [done|].
  intros v x Hv. split; [|by apply HDs].
  intros Hx k W HW. revert x Hx.
  induction HW as [k|k p v W HW IH He Hlt|k p v W HW IH He Hle]; intros x Hx.
  - destruct Hx as (s & Hs & Hx). rewrite HD0 in Hs. injection Hs as <-.
    apply elem_of_singleton in Hx as ->. left.
  - assert (0 ≤ p < n) as Hp by (by eapply Hrange).
    destruct (Hst v x) as [->|Hall]; [lia|done|left|].
    right. apply IH; [done|]. by apply Hall.
  - assert (0 ≤ p < n) as Hp by (by eapply Hrange).
    destruct (decide (v = 0)) as [->|Hv0].
    + destruct Hx as (s & Hs & Hx). rewrite HD0 in Hs. injection Hs as <-.
      apply elem_of_singleton in Hx as ->. left.
    + destruct (Hst v x) as [->|Hall]; [lia|done|left|].
      right. apply IH; [done|]. by apply Hall.
Qed.

Lemma Refining_init :
  Refining (initialDominators revPostOrder 0)
  ∧ (weight (initialDominators revPostOrder 0)
     ≤ length revPostOrder * length revPostOrder)%nat.
Proof using Hn Hlen Hrange Hfwd.
  unfold initialDominators. rewrite Hlen.
  set (g := λ i : Z, if decide (i = 0) then ({[i]} : gset Z)
                     else list_to_set (seqZ 0 n)).
  assert (∀ v, 0 ≤ v < n → at_ (g <$> seqZ 0 n) v = Some (g v)) as Hat
    by (intros v Hv; by apply at_fmap_seqZ).
  assert (length (g <$> seqZ 0 n) = Z.to_nat n) as Hl
    by (by rewrite length_fmap, length_seqZ).
  assert (∀ v x, inDom (g <$> seqZ 0 n) v x ↔
                 0 ≤ v < n ∧ (if decide (v = 0) then x = 0 else 0 ≤ x < n))
    as Hin.
  { intros v x. split.
    - intros (s & Hs & Hx). pose proof (at_range _ _ _ Hs) as Hv.
      rewrite Hl in Hv. assert (0 ≤ v < n) as Hv' by lia.
      split; [done|]. rewrite (Hat v Hv') in Hs. injection Hs as <-.
      unfold g in Hx. case_decide.
      + apply elem_of_singleton in Hx. lia.
      + apply elem_of_list_to_set, elem_of_seqZ in Hx. lia.
    - intros [Hv Hx]. exists (g v). split; [by apply Hat|]. unfold g.
      case_decide.
      + apply elem_of_singleton. lia.
      + apply elem_of_list_to_set, elem_of_seqZ. lia. }
  split.
  - split; [rewrite Hl; lia|].
    split; [by rewrite (Hat 0) by lia|].
    split.
    { intros v x [Hv Hx]%Hin. case_decide; lia. }
    split.
    + intros v x Hv Hx. apply Hin. split; [done|]. case_decide as Hv0.
      * rewrite Hv0 in Hx.
        by apply (idom_star_root revPostOrder reachable bbToIdx neighbours).
      * by eapply idom_star_range.
    + intros v x Hv Hj. apply Hin. split; [lia|].
      rewrite decide_False by lia. destruct Hj as [->|Hall]; [lia|].
      destruct (Hfwd v Hv) as (p & Hp & _).
      apply Hall, Hin in Hp as [_ Hx]. case_decide; lia.
  - pose proof (weight_bound (g <$> seqZ 0 n) (Z.to_nat n)) as Hb.
    rewrite Hl in Hb. assert (length revPostOrder = Z.to_nat n) as -> by lia.
    apply Hb. intros s (i & -> & Hi)%list_elem_of_fmap. unfold g.
    case_decide.
    + rewrite size_singleton. lia.
    + etrans; [apply size_indices_le|]. by rewrite length_seqZ.
Qed.

(** The classical loop terminates with the sets of dominators. *)
Lemma refine_init_spec fuel :
  (length revPostOrder * length revPostOrder < fuel)%nat →
  ∃ D, refine fuel (initialDominators revPostOrder 0) = Some D ∧ ExactSets D.
Proof using Hn Hlen Hrange Hnbrs Hfwd.
  intros Hfuel. destruct Refining_init as [HD Hw].
  destruct (refine_spec fuel _ HD) as (D & Href & HD' & Hst); [lia|].
  exists D. split; [done|]. by apply Settled_exact.
Qed.

(** *** The choice of the immediate dominator *)

Section Pick.
Variable I : list Z.
Variable D : list (gset Z).
Hypothesis HT : Tree n I.
Hypothesis Hall : ∀ u, 0 ≤ u < n → assigned I u.
Hypothesis HE : Exact revPostOrder reachable bbToIdx neighbours n I.
Hypothesis HD : ExactSets D.

Lemma inDom_anc v x : 0 ≤ v < n → inDom D v x ↔ anc I x v.
Proof using HE HD.
  intros Hv. destruct HD as [_ H]. rewrite (H v x Hv). symmetry.
  by apply HE.
Qed.

(** A dominator of [u] other than [u] and its parent [d] has fewer
    dominators than [d]. *)
Lemma candidate_smaller u d x sx sd :
  0 < u < n → at_ I u = Some d →
  inDom D u x → x ≠ u → x ≠ d →
  at_ D x = Some sx → at_ D d = Some sd → (size sx < size sd)%nat.
Proof using HT Hall HE HD.
  intros Hu Hd Hx Hxu Hxd Hsx Hsd.
  assert (0 ≤ d < u) as Hdr.
  { destruct HT as (_ & _ & Hup). destruct (Hup u d Hu Hd) as [->|[? _]]; [|done].
    assert (0 ≤ u < n) as Hu' by lia.
    destruct (Hall u Hu') as (d' & Hd' & Hne). congruence. }
  apply inDom_anc in Hx; [|lia].
  assert (anc I x d) as Hxd'.
  { apply anc_inv in Hx as [?|(d' & Hd' & _ & Ha)]; [done|]. congruence. }
  assert (0 ≤ d < n) as Hdn by lia.
  pose proof (anc_le n I x d HT Hdn Hxd') as Hxr.
  apply subset_size. split.
  - intros y Hy. assert (inDom D x y) as Hy' by (by exists sx).
    apply inDom_anc in Hy'; [|lia].
    assert (inDom D d y) as (s & Hs & ?); [|congruence].
    apply inDom_anc; [lia|]. by eapply anc_trans.
  - intros Hsup. assert (d ∈ sx) as Hdx.
    { apply Hsup. assert (inDom D d d) as (s & Hs & ?); [|congruence].
      apply inDom_anc; [lia|]. constructor. }
    assert (inDom D x d) as Hdx' by (by exists sx).
    apply inDom_anc in Hdx'; [|lia].
    assert (0 ≤ x < n) as Hxn by lia.
    pose proof (anc_le n I d x HT Hxn Hdx'). lia.
Qed.

Lemma inDom_slot u x : 0 ≤ u < n → inDom D u x → ∃ s, at_ D x = Some s.
Proof using HT HE HD.
  intros Hu Hx. apply inDom_anc in Hx; [|done].
  pose proof (anc_le n I x u HT Hu Hx). apply at_defined.
  destruct HD as [-> _]. lia.
Qed.

Lemma parent_below u d : 0 < u < n → at_ I u = Some d → 0 ≤ d < u.
Proof using HT Hall.
  clear Hlen Hn Hrange Hnbrs Hfwd HE HD.
  intros Hu Hd. destruct HT as (_ & _ & Hup).
  destruct (Hup u d Hu Hd) as [->|[? _]]; [|done].
  assert (0 ≤ u < n) as Hu' by lia.
  destruct (Hall u Hu') as (d' & Hd' & Hne). congruence.
Qed.

(** The scan of [dominators[u]] ends on the parent [d] of [u] once it
    has met it, in whatever order the members come. *)
Lemma closest_spec u d l cur :
  0 < u < n → at_ I u = Some d →
  NoDup l → (∀ x, x ∈ l → inDom D u x) →
  cur = -1 ∨ (inDom D u cur ∧ cur ≠ u ∧ cur ∉ l) →
  ∃ c, closest D u cur l = Some c ∧ (cur = d ∨ d ∈ l → c = d).
Proof using HT Hall HE HD.
  intros Hu Hd. pose proof (parent_below u d Hu Hd) as Hdr.
  assert (0 ≤ u < n) as Hu' by lia.
  revert cur. induction l as [|x l IH]; intros cur Hnd Hl Hcur.
  - exists cur. split; [done|]. by intros [?|?%elem_of_nil].
  - apply NoDup_cons in Hnd as [Hxl Hnd].
    assert (∀ y, y ∈ l → inDom D u y) as Hl' by (intros y Hy; apply Hl; by right).
    assert (inDom D u x) as Hx by (apply Hl; left).
    simpl. unfold closer. destruct (decide (x ≠ u)) as [Hxu|Hxu].
    + destruct (decide (cur = -1)) as [Hc1|Hc1].
      * simpl. destruct (IH x Hnd Hl') as (c & Hc & Hcd); [by right|].
        exists c. split; [done|].
        intros [?|[->|?]%elem_of_cons]; [lia|by apply Hcd; left|].
        apply Hcd. by right.
      * destruct Hcur as [?|(Hcu & Hcne & Hcl)]; [done|].
        destruct (inDom_slot u x Hu' Hx) as [sx Hsx].
        destruct (inDom_slot u cur Hu' Hcu) as [sc Hsc].
        rewrite Hsx. simpl. rewrite Hsc. simpl.
        apply not_elem_of_cons in Hcl as [Hcx Hcl].
        destruct (decide (size sc < size sx)%nat) as [Hlt|Hge].
        -- destruct (IH x Hnd Hl') as (c & Hc & Hcd); [by right|].
           exists c. split; [done|].
           intros [Hcd'|[->|?]%elem_of_cons];
             [|by apply Hcd; left|by apply Hcd; right].
           rewrite Hcd' in Hsc, Hcx.
           pose proof (candidate_smaller u d x sx sc Hu Hd Hx Hxu
                         ltac:(congruence) Hsx Hsc).
           lia.
        -- destruct (IH cur Hnd Hl') as (c & Hc & Hcd); [right; done|].
           exists c. split; [done|].
           intros [?|[Hdx|?]%elem_of_cons];
             [by apply Hcd; left| |by apply Hcd; right].
           rewrite Hdx in Hd.
           pose proof (candidate_smaller u x cur sc sx Hu Hd Hcu Hcne
                         Hcx Hsc Hsx).
           lia.
    + assert (x = u) as Hxu' by (destruct (decide (x = u)); [done|contradiction]).
      simpl. destruct (IH cur Hnd Hl') as (c & Hc & Hcd).
      { destruct Hcur as [?|(? & ? & [_ ?]%not_elem_of_cons)]; [by left|by right]. }
      exists c. split; [done|].
      intros [?|[?|?]%elem_of_cons]; [by apply Hcd; left|lia|by apply Hcd; right].
Qed.

(** The classical choice for [u] is the parent of [u] in the tree. *)
Lemma pickIDom_spec u :
  0 < u < n → ∃ d, at_ I u = Some d ∧ pickIDom 0 D u = Some d.
Proof using HT Hall HE HD.
  intros Hu. assert (0 ≤ u < n) as Hu' by lia.
  destruct (Hall u Hu') as (d & Hd & Hne). exists d. split; [done|].
  pose proof (parent_below u d Hu Hd) as Hdr.
  unfold pickIDom. rewrite decide_False by lia.
  destruct (at_defined D u) as [s Hs]; [destruct HD as [-> _]; lia|].
  rewrite Hs. simpl.
  assert (∀ x, x ∈ ascending s ↔ x ∈ s) as Hasc.
  { intros x. unfold ascending. rewrite merge_sort_Permutation.
    apply elem_of_elements. }
  destruct (closest_spec u d (ascending s) (-1) Hu Hd) as (c & Hc & Hcd).
  - unfold ascending. rewrite merge_sort_Permutation. apply NoDup_elements.
  - intros x Hx%Hasc. by exists s.
  - by left.
  - rewrite Hc. f_equal. apply Hcd. right. apply Hasc.
    assert (inDom D u d) as (s' & Hs' & ?); [|congruence].
    apply inDom_anc; [done|]. eapply anc_up; [done|lia|constructor].
Qed.
End Pick.

(** The classical algorithm fills every slot but the root's with the
    parent that the tree [I] gives. *)
Lemma classicSolve_spec (I : list Z) fuel :
  Tree n I → (∀ u, 0 ≤ u < n → assigned I u) →
  Exact revPostOrder reachable bbToIdx neighbours n I →
  (length revPostOrder * length revPostOrder < fuel)%nat →
  classicSolve revPostOrder reachable bbToIdx neighbours 0 fuel
  = Some (classicSlots n I).
Proof using Hn Hlen Hrange Hnbrs Hfwd.
  intros HT Hall HE Hfuel.
  destruct (refine_init_spec fuel Hfuel) as (D & Href & HD).
  unfold classicSolve. rewrite Href. simpl. rewrite Hlen.
  apply mapM_Some_2. unfold classicSlots.
  apply Forall2_fmap_r, Forall_Forall2_diag, Forall_forall.
  intros u Hu%elem_of_seqZ. simpl.
  destruct (decide (u = 0)) as [->|Hu0].
  - unfold pickIDom. by rewrite decide_True.
  - destruct (pickIDom_spec I D HT Hall HE HD u) as (d & Hd & Hp); [lia|].
    by rewrite Hd.
Qed.

Lemma classicSlots_root (I : list Z) : at_ (classicSlots n I) 0 = Some (-1).
Proof using Hn.
  clear -Hn. unfold classicSlots. rewrite at_fmap_seqZ by lia. by rewrite decide_True.
Qed.

Lemma classicSlots_other (I : list Z) u d :
  0 < u < n → at_ I u = Some d → at_ (classicSlots n I) u = Some d.
Proof.
  intros Hu Hd. unfold classicSlots. rewrite at_fmap_seqZ by lia.
  rewrite decide_False by lia. by rewrite Hd.
Qed.

(** Both vectors make the loop that fills the map add the same pairs. *)
Lemma publish_classic (I : list Z) cnt lo m :
  Tree n I → (∀ u, 0 ≤ u < n → assigned I u) →
  0 ≤ lo → lo + Z.of_nat cnt ≤ n →
  publish revPostOrder keepDom I cnt lo m
  = publish revPostOrder keepClassic (classicSlots n I) cnt lo m.
Proof using Hn revPostOrder.
  intros HT Hall. revert lo m. induction cnt as [|cnt IH]; intros lo m Hlo Hhi;
    [done|].
  simpl.
  assert (publishOne revPostOrder keepDom I lo m
          = publishOne revPostOrder keepClassic (classicSlots n I) lo m) as ->.
  { unfold publishOne. destruct (decide (lo = 0)) as [->|Hlo0].
    - destruct HT as (_ & -> & _). rewrite classicSlots_root. done.
    - assert (0 ≤ lo < n) as Hlo' by lia.
      destruct (Hall lo Hlo') as (d & Hd & Hne).
      rewrite Hd, (classicSlots_other I lo d) by (done || lia). simpl.
      assert (0 ≤ d < lo) as Hdr.
      { destruct HT as (_ & _ & Hup).
        destruct (Hup lo d) as [->|[? _]]; [lia|done|done|done]. }
      unfold keepDom, keepClassic.
      rewrite !bool_decide_true by lia. done. }
  destruct (publishOne revPostOrder keepClassic (classicSlots n I) lo m)
    as [m1|]; [|done].
  simpl. apply IH; lia.
Qed.
End ClassicLoop.

Local Open Scope Z_scope.

(** ** The fast and the classical algorithm *)

(** On a well-formed graph the classical algorithm returns, over the same
    order, the vector of the fast one with [-1] in the slot of the
    root. *)
Lemma classicIDoms_spec f fuel :
  wfCFG f = true →
  (length (getBasicBlockList f) * length (getBasicBlockList f) < fuel)%nat →
  ∃ (order : list BBPtr) (I : list Z),
    fastIDoms fuel f = Some (order, I)
    ∧ classicIDoms fuel f
      = Some (order, classicSlots (Z.of_nat (length order)) I)
    ∧ 0 < Z.of_nat (length order)
    ∧ Tree (Z.of_nat (length order)) I
    ∧ (∀ u, 0 ≤ u < Z.of_nat (length order) → assigned I u)
    ∧ (∀ j, 0 ≤ j < Z.of_nat (length order) → ∃ v, at_ order j = Some v).
Proof.
  intros Hwf Hfuel.
  assert (length (getBasicBlockList f) < fuel)%nat as Hlt.
  { destruct (wfCFG_spec f Hwf) as (He & _).
    destruct (getBasicBlockList f) as [|b l]; [by apply elem_of_nil in He|].
    simpl in *. nia. }
  destruct (entryOrder_spec f fuel Hwf Hlt) as (seg' & Horder & Hseg).
  set (order := Some <$> reverse (seg' ++ [getEntryBlock f]) : list BBPtr) in *.
  assert (length order = length (seg' ++ [getEntryBlock f])) as Hlen
    by (unfold order; by rewrite length_fmap, length_reverse).
  pose proof (dom_order_length f seg' Hwf Hseg) as Hle. fold order in Hle.
  assert (0 < Z.of_nat (length order)) as Hn
    by apply (dom_order_length_pos f seg').
  assert (∀ p v, iedge order (list_to_set order) (buildIdx order 0 ∅)
                   (predsOf f) p v → 0 ≤ p < Z.of_nat (length order)) as Hrange.
  { intros p v. apply iedge_order_range. by apply dom_order_NoDup. }
  assert (∀ v, 0 < v < Z.of_nat (length order) →
            ∃ b nbrs, at_ order v = Some b ∧ predsOf f b = Some nbrs) as Hnbrs.
  { intros v Hv. apply (dom_Hnbrs f seg'). fold order. lia. }
  assert (∀ v, 0 < v < Z.of_nat (length order) →
            ∃ p, iedge order (list_to_set order) (buildIdx order 0 ∅)
                   (predsOf f) p v ∧ p < v) as Hfwd.
  { intros v Hv. apply (dom_Hfwd f seg' Hwf Hseg). fold order. lia. }
  destruct (solve_spec order (list_to_set order) (buildIdx order 0 ∅)
              (predsOf f) (Z.of_nat (length order)) fuel)
    as (I & Hsolve & HT & Hall & HE); [done|done|lia|done..|].
  assert (length order * length order < fuel)%nat as Hfuel' by nia.
  pose proof (classicSolve_spec order (list_to_set order) (buildIdx order 0 ∅)
                (predsOf f) (Z.of_nat (length order)) Hn eq_refl Hrange Hnbrs
                Hfwd I fuel HT Hall HE Hfuel') as Hclassic.
  exists order, I.
  split; [|split; [|split; [done|split; [done|split; [done|]]]]].
  - unfold fastIDoms. rewrite Horder. cbn -[buildIdx solve].
    unfold order in *.
    rewrite (dom_reachable_set f seg'), (dom_root_idx f seg' Hseg).
    by rewrite Hsolve.
  - unfold classicIDoms. rewrite Horder. cbn -[buildIdx classicSolve].
    unfold order in *.
    rewrite (dom_reachable_set f seg'), (dom_root_idx f seg' Hseg).
    by rewrite Hclassic.
  - intros j Hj. apply at_defined. lia.
Qed.

(** C1. On every well-formed control-flow graph, reducible or not and
    with or without blocks that the entry does not reach, and with enough
    fuel, [computeDominators] and [computeDominators_classic] both
    return: over the same reverse postorder their vectors [IDoms] hold the
    same immediate dominator in the slot of every block but the entry,
    whose slot holds the entry itself in the fast algorithm and [-1] in
    the classical one, and from the same map both produce the same
    dominator-tree map. *)
Theorem fast_classic_agree f fuel m :
  wfCFG f = true →
  (length (getBasicBlockList f) * length (getBasicBlockList f) < fuel)%nat →
  ∃ (order : list BBPtr) (I Ic : list Z) (m' : DominatorMap),
    fastIDoms fuel f = Some (order, I)
    ∧ classicIDoms fuel f = Some (order, Ic)
    ∧ length I = length order ∧ length Ic = length order
    ∧ at_ order 0 = Some (Some (getEntryBlock f))
    ∧ at_ I 0 = Some 0 ∧ at_ Ic 0 = Some (-1)
    ∧ (∀ i, 0 < i < Z.of_nat (length order) →
         ∃ d, at_ I i = Some d ∧ at_ Ic i = Some d ∧ 0 ≤ d < i)
    ∧ computeDominators fuel f m = Some m'
    ∧ computeDominators_classic fuel f m = Some m'.
Proof.
  intros Hwf Hfuel.
  destruct (classicIDoms_spec f fuel Hwf Hfuel)
    as (order & I & Hfast & Hclassic & Hn & HT & Hall & Hord).
  destruct (publish_spec order keepDom I (length order) 0 m)
    as (m' & Hpub & _).
  { apply (publish_ready order keepDom (Z.of_nat (length order)));
      [done..|lia|lia]. }
  exists order, I, (classicSlots (Z.of_nat (length order)) I), m'.
  split; [done|]. split; [done|].
  split; [destruct HT as (HIlen & _); lia|].
  split.
  { unfold classicSlots. rewrite length_fmap, length_seqZ. lia. }
  split.
  { assert (length (getBasicBlockList f) < fuel)%nat as Hlt.
    { destruct (wfCFG_spec f Hwf) as (He & _).
      destruct (getBasicBlockList f) as [|b l]; [by apply elem_of_nil in He|].
      simpl in *. nia. }
    destruct (fastIDoms_spec f fuel Hwf Hlt) as (seg' & I' & Hfast' & _).
    rewrite Hfast in Hfast'. injection Hfast' as -> _.
    apply (dom_order_head f seg'). }
  split; [by destruct HT as (_ & ? & _)|].
  split; [by apply classicSlots_root|].
  split.
  { intros i Hi. destruct (Tree_slot (Z.of_nat (length order)) I i HT Hall)
      as (d & Hd & Hdi); [lia|].
    exists d. split; [done|]. split; [|lia].
    by apply classicSlots_other. }
  split.
  - unfold computeDominators. rewrite Hfast. simpl. done.
  - unfold computeDominators_classic. rewrite Hclassic. simpl.
    rewrite <- (publish_classic order (Z.of_nat (length order)) Hn I
                  (length order) 0 m HT Hall); [done|lia|lia].
Qed.

Lemma fast_classic_agree_witness :
  ∃ (order : list BBPtr) (I Ic : list Z) (m' : DominatorMap),
    fastIDoms 26 twoEntryLoop = Some (order, I)
    ∧ classicIDoms 26 twoEntryLoop = Some (order, Ic)
    ∧ length I = length order ∧ length Ic = length order
    ∧ at_ order 0 = Some (Some (getEntryBlock twoEntryLoop))
    ∧ at_ I 0 = Some 0 ∧ at_ Ic 0 = Some (-1)
    ∧ (∀ i, 0 < i < Z.of_nat (length order) →
         ∃ d, at_ I i = Some d ∧ at_ Ic i = Some d ∧ 0 ≤ d < i)
    ∧ computeDominators 26 twoEntryLoop ∅ = Some m'
    ∧ computeDominators_classic 26 twoEntryLoop ∅ = Some m'.
Proof.
  apply (fast_classic_agree twoEntryLoop 26 ∅); [reflexivity|simpl; lia].
Defined.

Local Open Scope Z_scope.

(** ** The two typestate tables *)

(** X1. The two tables of [TypeStateParser] are inverse to each other:
    [_typeMap] sends a label to a typestate exactly when [_revTypeMap] sends
    that typestate to that label. *)
Theorem type_tables_inverse (label : string) (t : TypeState) :
  _typeMap !! label = Some t ↔ _revTypeMap !! t = Some label.
Proof.
  split.
  - unfold _typeMap. intros H%elem_of_list_to_map_2.
    repeat (apply elem_of_cons in H as [[= -> ->]|H]; [reflexivity|]).
    by apply elem_of_nil in H.
  - unfold _revTypeMap. intros H%elem_of_list_to_map_2.
    repeat (apply elem_of_cons in H as [[= -> ->]|H]; [reflexivity|]).
    by apply elem_of_nil in H.
Qed.

(** ** The diagnostics *)

Section Diagnostics.
Variable getName : BB → string.
Variable funcName : string.

Local Abbreviation dumpEntries := (dumpEntries getName).
Local Abbreviation dumpDominatorMap := (dumpDominatorMap getName).
Local Abbreviation checkEntry := (checkEntry getName).
Local Abbreviation checkEntries := (checkEntries getName).
Local Abbreviation differentialTesting :=
  (differentialTesting getName funcName).

Lemma dumpEntries_defined (l : list (BBPtr * BBSet)) :
  is_Some (dumpEntries l) ↔ ∀ s, (None, s) ∉ l.
Proof.
  induction l as [|[k s] l IH].
  - split; [intros _ s Hs; by apply elem_of_nil in Hs|by eexists].
  - simpl. unfold dumpEntry. simpl. destruct k as [b|]; simpl.
    + split.
      * intros Hsome s' [[=]|Hs']%elem_of_cons.
        destruct (dumpEntries l) as [rest|] eqn:Hrest;
          [|by destruct Hsome].
        by apply (proj1 IH (mk_is_Some _ _ eq_refl) s').
      * intros Hno. destruct (proj2 IH) as [rest ->].
        { intros s' Hs'. apply (Hno s'). by right. }
        simpl. by eexists.
    + split; [by intros [? ?]|]. intros Hno. exfalso. apply (Hno s). left.
Qed.

Lemma dump_defined (m : DominatorMap) :
  is_Some (dumpDominatorMap m) ↔ m !! None = None.
Proof.
  unfold Dominance.dumpDominatorMap. rewrite dumpEntries_defined. split.
  - intros Hno. destruct (m !! None) as [s|] eqn:Hs; [|done].
    exfalso. apply (Hno s). by apply elem_of_map_to_list.
  - intros Hnone s Hs%elem_of_map_to_list. congruence.
Qed.

(** What the loop over the entries of [llvmMap] finds. *)
Lemma checkEntries_spec (svfMap : DominatorMap) (l : list (BBPtr * BBSet)) :
  (∀ s, (None, s) ∉ l) →
  ∃ r, checkEntries svfMap l = Some r
       ∧ (r = None ↔ ∀ k s, (k, s) ∈ l → svfMap !! k = Some s)
       ∧ ∀ msg, r = Some msg →
           ∃ b s, (Some b, s) ∈ l
             ∧ ((svfMap !! Some b = None
                 ∧ msg = getName b +:+ " not found in svfMap")
                ∨ (∃ s', svfMap !! Some b = Some s' ∧ s' ≠ s
                     ∧ msg = getName b +:+ "'s children are different")).
Proof.
  induction l as [|[k s] l IH]; intros Hno.
  - exists None. split; [done|]. split; [|done].
    split; [intros _ k s Hks; by apply elem_of_nil in Hks|done].
  - destruct k as [b|]; [|exfalso; apply (Hno s); left].
    destruct IH as (r & Hr & Hnone & Hmsg).
    { intros s' Hs'. apply (Hno s'). by right. }
    simpl. unfold Dominance.checkEntry. simpl.
    destruct (svfMap !! Some b) as [s'|] eqn:Hlook.
    + destruct (decide (s' = s)) as [->|Hne]; simpl.
      * exists r. split; [done|]. split.
        -- rewrite Hnone. split.
           ++ intros Hall k s' [[= -> ->]|Hin]%elem_of_cons; [done|].
              by apply Hall.
           ++ intros Hall k s' Hin. apply Hall. by right.
        -- intros msg Hm. destruct (Hmsg msg Hm) as (b' & s' & Hin & Hcase).
           exists b', s'. split; [by right|done].
      * eexists. split; [done|]. split.
        -- split; [done|]. intros Hall.
           specialize (Hall (Some b) s (list_elem_of_here _ _)). congruence.
        -- intros msg [= <-]. exists b, s. split; [left|].
           right. by exists s'.
    + simpl. eexists. split; [done|]. split.
      * split; [done|]. intros Hall.
        specialize (Hall (Some b) s (list_elem_of_here _ _)). congruence.
      * intros msg [= <-]. exists b, s. split; [left|]. by left.
Qed.

Lemma no_null_entry (m : DominatorMap) :
  m !! None = None → ∀ s, (None, s) ∉ map_to_list m.
Proof. intros Hnone s Hs%elem_of_map_to_list. congruence. Qed.

(** X2. [dumpDominatorMap] reads the name of every key and of no null
    child: it is defined exactly on the maps that do not have the null
    block as a key, whatever their child sets hold. *)
Theorem dumpDominatorMap_defined (m : DominatorMap) :
  (is_Some (dumpDominatorMap m) ↔ m !! None = None)
  ∧ ∀ k s, k ≠ None →
      (is_Some (dumpDominatorMap (<[k := s ∪ {[None]}]> m))
       ↔ is_Some (dumpDominatorMap m)).
Proof.
  split; [apply dump_defined|].
  intros k s Hk. rewrite !dump_defined. by rewrite lookup_insert_ne.
Qed.

(** X3. [differentialTesting] dereferences a null pointer exactly when one
    of the two maps has the null block as a key; otherwise it ends, by
    returning or by aborting. *)
Theorem differentialTesting_undefined (llvmMap svfMap : DominatorMap) :
  differentialTesting llvmMap svfMap = None
  ↔ is_Some (llvmMap !! None) ∨ is_Some (svfMap !! None).
Proof.
  unfold Dominance.differentialTesting. split.
  - intros Hrun.
    destruct (svfMap !! None) as [s|] eqn:Hsvf; [right; by eexists|].
    destruct (llvmMap !! None) as [s|] eqn:Hllvm; [left; by eexists|].
    exfalso.
    destruct (proj2 (dump_defined svfMap) Hsvf) as [t1 Ht1].
    destruct (proj2 (dump_defined llvmMap) Hllvm) as [t2 Ht2].
    rewrite Ht1, Ht2 in Hrun. simpl in Hrun.
    destruct (checkEntries_spec svfMap (map_to_list llvmMap)
                (no_null_entry llvmMap Hllvm)) as (r & Hr & _).
    rewrite Hr in Hrun. simpl in Hrun.
    case_decide; [destruct r|]; discriminate.
  - intros Hnull.
    destruct (Dominance.dumpDominatorMap getName svfMap) as [t1|] eqn:Ht1;
      [|done].
    simpl.
    destruct (Dominance.dumpDominatorMap getName llvmMap) as [t2|] eqn:Ht2;
      [|done].
    exfalso.
    pose proof (proj1 (dump_defined svfMap) (mk_is_Some _ _ Ht1)) as H1.
    pose proof (proj1 (dump_defined llvmMap) (mk_is_Some _ _ Ht2)) as H2.
    rewrite H1, H2 in Hnull. by destruct Hnull as [[? ?]|[? ?]].
Qed.

(** X4. On two maps without the null key, [differentialTesting] returns
    exactly when the two maps are equal. *)
Theorem differentialTesting_returns (llvmMap svfMap : DominatorMap) :
  llvmMap !! None = None → svfMap !! None = None →
  (∃ out, differentialTesting llvmMap svfMap = Some (Returns out))
  ↔ llvmMap = svfMap.
Proof.
  intros Hllvm Hsvf. unfold Dominance.differentialTesting.
  destruct (proj2 (dump_defined svfMap) Hsvf) as [t1 Ht1].
  destruct (proj2 (dump_defined llvmMap) Hllvm) as [t2 Ht2].
  rewrite Ht1, Ht2. simpl.
  destruct (checkEntries_spec svfMap (map_to_list llvmMap)
              (no_null_entry llvmMap Hllvm)) as (r & Hr & Hnone & _).
  rewrite Hr. simpl. split.
  - intros [out Hout]. case_decide as Hsize; [|discriminate].
    destruct r as [msg|]; [discriminate|].
    apply map_subseteq_size_eq; [|lia].
    apply map_subseteq_spec. intros k s Hks.
    apply (proj1 Hnone eq_refl). by apply elem_of_map_to_list.
  - intros Heq. rewrite decide_True by (by rewrite Heq).
    assert (r = None) as ->; [|by eexists].
    apply Hnone. intros k s Hks%elem_of_map_to_list. by rewrite <- Heq.
Qed.

(** X5. When [differentialTesting] aborts, its message tells the truth:
    the maps differ in size, or the block it names is a key of [llvmMap]
    that [svfMap] lacks, or it is a key of both with different child sets;
    a difference in size is reported before any entry is compared. *)
Theorem differentialTesting_aborts (llvmMap svfMap : DominatorMap) out msg :
  differentialTesting llvmMap svfMap = Some (Aborts out msg) →
  (size llvmMap ≠ size svfMap ∧ msg = "different size")
  ∨ (size llvmMap = size svfMap
     ∧ ∃ b s, llvmMap !! Some b = Some s
         ∧ ((svfMap !! Some b = None
             ∧ msg = getName b +:+ " not found in svfMap")
            ∨ (∃ s', svfMap !! Some b = Some s' ∧ s' ≠ s
                 ∧ msg = getName b +:+ "'s children are different"))).
Proof.
  unfold Dominance.differentialTesting. intros Hrun.
  destruct (Dominance.dumpDominatorMap getName svfMap) as [t1|] eqn:Ht1;
    [|done].
  simpl in Hrun.
  destruct (Dominance.dumpDominatorMap getName llvmMap) as [t2|] eqn:Ht2;
    [|done].
  simpl in Hrun.
  pose proof (proj1 (dump_defined llvmMap) (mk_is_Some _ _ Ht2)) as Hllvm.
  case_decide as Hsize.
  - right. split; [done|].
    destruct (checkEntries_spec svfMap (map_to_list llvmMap)
                (no_null_entry llvmMap Hllvm)) as (r & Hr & _ & Hmsg).
    rewrite Hr in Hrun. simpl in Hrun.
    destruct r as [msg'|]; [|discriminate]. injection Hrun as _ <-.
    destruct (Hmsg msg' eq_refl) as (b & s & Hin%elem_of_map_to_list & Hcase).
    by exists b, s.
  - left. by injection Hrun as _ <-.
Qed.

(** X6. The two maps that [analyze] leaves in a fresh result can be
    dumped and compared: neither has the null block as a key, so that
    [dumpDominatorMap] is defined on both and [differentialTesting] of
    each against itself returns. *)
Theorem analyze_maps_printable f fuel :
  wfCFG f = true → (S (length (getBasicBlockList f)) < fuel)%nat →
  ∃ r, analyze fuel f emptyInfo = Some r
       ∧ is_Some (dumpDominatorMap (getDomTreeMap r))
       ∧ is_Some (dumpDominatorMap (getPostDomTreeMap r))
       ∧ (∃ out, differentialTesting (getDomTreeMap r) (getDomTreeMap r)
                 = Some (Returns out))
       ∧ (∃ out, differentialTesting (getPostDomTreeMap r)
                   (getPostDomTreeMap r) = Some (Returns out)).
Proof.
  intros Hwf Hfuel.
  destruct (analyze_spec f fuel Hwf Hfuel)
    as (seg' & I & seg & J & r & Hrun & _ & _ & _ & HT' & Hall' & _
        & Hch' & Hkey' & _ & _ & HT & Hall & _ & Hch & Hkey).
  exists r. split; [done|].
  assert (getDomTreeMap r !! None = None) as Hd.
  { destruct (getDomTreeMap r !! None) as [s|] eqn:Hs; [|done].
    destruct (proj1 (Hkey' None)) as (v & Hv); [by eexists|].
    by apply Hch', published_dom_blocks in Hv as (x & y & [=] & _). }
  assert (getPostDomTreeMap r !! None = None) as Hp.
  { destruct (getPostDomTreeMap r !! None) as [s|] eqn:Hs; [|done].
    destruct (proj1 (Hkey None)) as (v & Hv); [by eexists|].
    by apply Hch, published_postdom_blocks in Hv as (x & y & [=] & _). }
  split; [by apply dump_defined|]. split; [by apply dump_defined|].
  split.
  - assert (∀ m : DominatorMap, m !! None = None →
              ∃ out, differentialTesting m m = Some (Returns out)) as Hself.
    { intros m Hm. unfold Dominance.differentialTesting.
      destruct (proj2 (dump_defined m) Hm) as [t Ht]. rewrite Ht. simpl.
      rewrite decide_True by done.
      destruct (checkEntries_spec m (map_to_list m) (no_null_entry m Hm))
        as (r0 & Hr0 & Hnone & _).
      rewrite Hr0. simpl.
      assert (r0 = None) as ->; [|by eexists].
      apply Hnone. by intros k s Hks%elem_of_map_to_list. }
    by apply Hself.
  - unfold Dominance.differentialTesting.
    destruct (proj2 (dump_defined _) Hp) as [t Ht]. rewrite Ht. simpl.
    rewrite decide_True by done.
    destruct (checkEntries_spec (getPostDomTreeMap r)
                (map_to_list (getPostDomTreeMap r))
                (no_null_entry _ Hp)) as (r0 & Hr0 & Hnone & _).
    rewrite Hr0. simpl.
    assert (r0 = None) as ->; [|by eexists].
    apply Hnone. by intros k s Hks%elem_of_map_to_list.
Qed.
End Diagnostics.

(** [diamondDomsShort] lacks the child C (3) of Entry (0). *)
Lemma diamondDoms_differ : diamondDoms ≠ diamondDomsShort.
Proof.
  intros Heq.
  apply (f_equal (λ m : DominatorMap,
           bool_decide (Some 3%nat ∈ default ∅ (m !! Some 0%nat)))) in Heq.
  vm_compute in Heq. discriminate.
Qed.

Lemma differentialTesting_returns_witness :
  computeDominators 7 diamond ∅ = Some diamondDoms
  ∧ (∃ out, differentialTesting (λ _, "bb"%string) "main"
              diamondDoms diamondDoms = Some (Returns out))
  ∧ size diamondDoms = size diamondDomsShort
  ∧ ¬ (∃ out, differentialTesting (λ _, "bb"%string) "main"
                diamondDoms diamondDomsShort = Some (Returns out)).
Proof.
  split; [vm_compute; reflexivity|].
  split.
  { apply (differentialTesting_returns (λ _, "bb"%string) "main"
             diamondDoms diamondDoms); reflexivity. }
  split; [vm_compute; reflexivity|].
  intros Hret. apply diamondDoms_differ.
  apply (differentialTesting_returns (λ _, "bb"%string) "main"
           diamondDoms diamondDomsShort); [reflexivity..|exact Hret].
Defined.

Lemma analyze_maps_printable_witness :
  ∃ r, analyze 7 diamond emptyInfo = Some r
       ∧ is_Some (dumpDominatorMap (λ _, "bb"%string) (getDomTreeMap r))
       ∧ is_Some (dumpDominatorMap (λ _, "bb"%string) (getPostDomTreeMap r))
       ∧ (∃ out, differentialTesting (λ _, "bb"%string) "main"
                   (getDomTreeMap r) (getDomTreeMap r) = Some (Returns out))
       ∧ (∃ out, differentialTesting (λ _, "bb"%string) "main"
                   (getPostDomTreeMap r) (getPostDomTreeMap r)
                 = Some (Returns out)).
Proof.
  apply (analyze_maps_printable (λ _, "bb"%string) "main" diamond 7);
    [reflexivity|simpl; lia].
Defined.

Lemma differentialTesting_aborts_witness :
  (size ({[Some 1%nat := ∅]} : DominatorMap) ≠ size (∅ : DominatorMap)
   ∧ "different size"%string = "different size"%string)
  ∨ (size ({[Some 1%nat := ∅]} : DominatorMap) = size (∅ : DominatorMap)
     ∧ ∃ b s, ({[Some 1%nat := ∅]} : DominatorMap) !! Some b = Some s
         ∧ (((∅ : DominatorMap) !! Some b = None
             ∧ "different size"%string = ("bb" +:+ " not found in svfMap")%string)
            ∨ (∃ s', (∅ : DominatorMap) !! Some b = Some s' ∧ s' ≠ s
                 ∧ "different size"%string
                   = ("bb" +:+ "'s children are different")%string))).
Proof.
  eapply (differentialTesting_aborts (λ _, "bb"%string) "main"
            {[Some 1%nat := ∅]} ∅ _ "different size").
  reflexivity.
Defined.

Local Open Scope Z_scope.

(** ** The two reverse postorders *)

(** X7. On a well-formed graph the depth-first visit of
    [computeDominators] returns: its order lists without repetition the
    blocks that the entry block reaches, the entry block first, its set
    [reachable] holds the same blocks, and every later block comes after
    one of its predecessors. *)
Theorem entry_order_reverse_postorder f fuel :
  wfCFG f = true → (length (getBasicBlockList f) < fuel)%nat →
  ∃ (reachable : BBSet) (order : list BBPtr),
    entryOrder fuel f = Some (reachable, order)
    ∧ NoDup order
    ∧ reachable = list_to_set order
    ∧ at_ order 0 = Some (Some (getEntryBlock f))
    ∧ (∀ pb, pb ∈ order ↔ ∃ b, pb = Some b ∧ reachableFromEntry f b)
    ∧ (∀ i b, 0 < i → at_ order i = Some (Some b) →
         ∃ j a, 0 ≤ j < i ∧ at_ order j = Some (Some a)
                ∧ a ∈ getPredecessors f b ∧ b ∈ getSuccessors f a).
Proof.
  intros Hwf Hfuel.
  destruct (entryOrder_spec f fuel Hwf Hfuel) as (seg' & Horder & Hseg).
  eexists _, _. split; [exact Horder|].
  split; [by apply dom_order_NoDup|].
  split; [by apply dom_reachable_set|].
  split; [apply dom_order_head|].
  split.
  - intros pb. rewrite list_elem_of_fmap. setoid_rewrite elem_of_reverse.
    split.
    + intros (b & -> & Hb). exists b. split; [done|].
      by apply (dom_seg_reachable f seg').
    + intros (b & -> & Hb). exists b. split; [done|].
      by apply (dom_seg_reachable f seg').
  - intros i b Hi Hb.
    destruct (dom_Hfwd f seg' Hwf Hseg i) as (p & Hedge & Hp).
    { pose proof (at_range _ _ _ Hb). lia. }
    apply (dom_iedge f seg' Hseg) in Hedge as (a & b' & Hb' & Ha & Hab).
    assert (b' = b) as -> by congruence.
    exists p, a. split; [pose proof (at_range _ _ _ Ha); lia|].
    split; [done|]. split; [done|].
    destruct (wfCFG_spec f Hwf) as (_ & _ & Hp').
    apply (Hp' b a); [|done].
    apply (dom_seg_blocks f seg' Hwf Hseg).
    destruct (dom_order_elem f seg' _ _ Hb) as (x & [= <-] & Hx). done.
Qed.

Lemma entry_order_reverse_postorder_witness :
  ∃ (reachable : BBSet) (order : list BBPtr),
    entryOrder 6 twoEntryLoop = Some (reachable, order)
    ∧ NoDup order
    ∧ reachable = list_to_set order
    ∧ at_ order 0 = Some (Some (getEntryBlock twoEntryLoop))
    ∧ (∀ pb, pb ∈ order ↔
         ∃ b, pb = Some b ∧ reachableFromEntry twoEntryLoop b)
    ∧ (∀ i b, 0 < i → at_ order i = Some (Some b) →
         ∃ j a, 0 ≤ j < i ∧ at_ order j = Some (Some a)
                ∧ a ∈ getPredecessors twoEntryLoop b
                ∧ b ∈ getSuccessors twoEntryLoop a).
Proof.
  apply (entry_order_reverse_postorder twoEntryLoop 6); [reflexivity|simpl; lia].
Defined.

(** X8. On a well-formed graph the depth-first visit of
    [computePostDominators] returns: its order starts with the null block
    and then lists without repetition the blocks of the function that
    reach an exit block, its set [reachable] holds the same pointers, and
    every block of the order is an exit block or comes after one of its
    successors. *)
Theorem exit_order_reverse_postorder f fuel :
  wfCFG f = true → (length (getBasicBlockList f) < fuel)%nat →
  ∃ (reachable : BBSet) (order : list BBPtr),
    exitOrder fuel f = Some (reachable, order)
    ∧ NoDup order
    ∧ reachable = list_to_set order
    ∧ at_ order 0 = Some None
    ∧ (∀ i, 0 < i → at_ order i ≠ Some None)
    ∧ (∀ b, Some b ∈ order ↔ b ∈ getBasicBlockList f ∧ reachesExit f b)
    ∧ (∀ i b, 0 < i → at_ order i = Some (Some b) →
         isExit f b
         ∨ ∃ j a, 0 < j < i ∧ at_ order j = Some (Some a)
                  ∧ a ∈ getSuccessors f b).
Proof.
  intros Hwf Hfuel.
  destruct (exitOrder_spec f fuel Hwf Hfuel) as (seg & Horder & Hseg & Hexits).
  eexists _, _. split; [exact Horder|].
  pose proof (post_order_NoDup f seg Hseg) as Hnd.
  split; [done|].
  split; [by apply post_reachable_set|].
  split; [done|].
  split.
  { intros i Hi Hnone.
    by destruct (post_order_tail seg i None Hi Hnone) as (b & [=] & _). }
  split.
  - intros b. rewrite <- (post_seg_reachable f seg b Hwf Hseg Hexits).
    rewrite elem_of_cons, list_elem_of_fmap. setoid_rewrite elem_of_reverse.
    split.
    + intros [[=]|(x & [= <-] & Hx)]. done.
    + intros Hb. right. by exists b.
  - intros i b Hi Hb.
    destruct (decide (getSuccessors f b = [])) as [Hnil|Hsucc].
    { left. split; [|done]. apply (post_seg_blocks f seg Hwf Hseg).
      by destruct (post_order_tail seg i _ Hi Hb) as (x & [= <-] & Hx). }
    right.
    destruct (post_Hfwd f seg Hwf Hseg i) as (p & Hedge & Hp).
    { pose proof (at_range _ _ _ Hb). lia. }
    apply (iedge_order _ (succsOrExit f) Hnd) in Hedge
      as (pb & nbrs & pa & Hpb & Hnb & Hpa & Hp').
    assert (pb = Some b) as -> by congruence.
    rewrite (succsOrExit_nonempty f b Hsucc) in Hnb. injection Hnb as <-.
    apply list_elem_of_fmap in Hpa as (a & -> & Ha).
    exists p, a. split; [|done].
    split; [|done]. destruct (decide (p = 0)) as [->|?]; [|pose proof (at_range _ _ _ Hp'); lia].
    done.
Qed.

Lemma exit_order_reverse_postorder_witness :
  ∃ (reachable : BBSet) (order : list BBPtr),
    exitOrder 6 twoEntryLoop = Some (reachable, order)
    ∧ NoDup order
    ∧ reachable = list_to_set order
    ∧ at_ order 0 = Some None
    ∧ (∀ i, 0 < i → at_ order i ≠ Some None)
    ∧ (∀ b, Some b ∈ order ↔
         b ∈ getBasicBlockList twoEntryLoop ∧ reachesExit twoEntryLoop b)
    ∧ (∀ i b, 0 < i → at_ order i = Some (Some b) →
         isExit twoEntryLoop b
         ∨ ∃ j a, 0 < j < i ∧ at_ order j = Some (Some a)
                  ∧ a ∈ getSuccessors twoEntryLoop b).
Proof.
  apply (exit_order_reverse_postorder twoEntryLoop 6); [reflexivity|simpl; lia].
Defined.

(** ** The index map *)

Lemma buildIdx_last (l : list BBPtr) (s : Z) (m : gmap BBPtr Z) b (i : nat) :
  l !! i = Some b → (∀ j, (i < j)%nat → l !! j ≠ Some b) →
  buildIdx l s m !! b = Some (s + Z.of_nat i).
Proof.
  revert s m i. induction l as [|a l IH]; intros s m i Hi Hlast; [done|].
  simpl. destruct i as [|i]; simpl in Hi.
  - injection Hi as ->. rewrite buildIdx_notin.
    + rewrite lookup_insert_eq. f_equal. lia.
    + intros [j Hj]%list_elem_of_lookup. apply (Hlast (S j)); [lia|done].
  - rewrite (IH _ _ i Hi).
    + f_equal. lia.
    + intros j Hj. apply (Hlast (S j)). lia.
Qed.

(** X9. The map [bbToIdx] built from an order sends a pointer to the last
    index at which the order holds it, so that on an order without
    repetition it inverts the order; reading a pointer that the order does
    not hold gives [0], the index of the root. *)
Theorem bbToIdx_lookup (order : list BBPtr) :
  (∀ i b, at_ order i = Some b →
     (∀ j, i < j → at_ order j ≠ Some b) →
     idxOf (buildIdx order 0 ∅) b = i)
  ∧ (NoDup order →
     ∀ i b, at_ order i = Some b → idxOf (buildIdx order 0 ∅) b = i)
  ∧ (∀ b, b ∉ order → idxOf (buildIdx order 0 ∅) b = 0).
Proof.
  split; [|split].
  - intros i b [Hi Hb]%at_Some Hlast. unfold idxOf.
    rewrite (buildIdx_last order 0 ∅ b (Z.to_nat i) Hb).
    + simpl. lia.
    + intros j Hj Hjb. apply (Hlast (Z.of_nat j)); [lia|].
      apply at_Some. split; [lia|]. by rewrite Nat2Z.id.
  - intros Hnd i b Hb. by apply idxOf_buildIdx.
  - intros b Hb. unfold idxOf. by rewrite buildIdx_notin, lookup_empty.
Qed.

(** ** The intersect step *)

(** X10. On a vector [IDoms] that encodes a tree, the two climbing loops
    started on two assigned indices end, with fuel above the number of
    indices, on their nearest common ancestor: an ancestor of both that
    every common ancestor is an ancestor of. The result does not depend on
    the order of the two arguments, and two equal arguments are returned
    as they are. *)
Theorem intersect_nearest_common_ancestor n fuel (I : list Z) B1 B2 :
  Tree n I → n < Z.of_nat fuel →
  0 ≤ B1 < n → 0 ≤ B2 < n → assigned I B1 → assigned I B2 →
  ∃ c, intersect fuel fuel I B1 B2 = Some c
       ∧ intersect fuel fuel I B2 B1 = Some c
       ∧ anc I c B1 ∧ anc I c B2
       ∧ (∀ a, anc I a B1 → anc I a B2 → anc I a c)
       ∧ 0 ≤ c ≤ Z.min B1 B2
       ∧ (B1 = B2 → c = B1).
Proof.
  intros HT Hfuel HB1 HB2 Hs1 Hs2.
  destruct (intersect_spec n fuel Hfuel I fuel B1 B2 HT HB1 HB2 Hs1 Hs2)
    as (c & Hc & Hc1 & Hc2 & Hnear); [lia|].
  destruct (intersect_spec n fuel Hfuel I fuel B2 B1 HT HB2 HB1 Hs2 Hs1)
    as (c' & Hc' & Hc2' & Hc1' & Hnear'); [lia|].
  assert (c' = c) as ->.
  { pose proof (anc_le n I c B1 HT HB1 Hc1).
    pose proof (anc_le n I c' B1 HT HB1 Hc1').
    apply (anc_antisym n I); [done|lia|lia| |].
    - by apply Hnear.
    - by apply Hnear'. }
  exists c. split; [done|]. split; [done|]. split; [done|]. split; [done|].
  split; [done|].
  pose proof (anc_le n I c B1 HT HB1 Hc1).
  pose proof (anc_le n I c B2 HT HB2 Hc2).
  split; [lia|].
  intros <-. apply (anc_antisym n I); [done|lia|done|done|].
  apply Hnear; constructor.
Qed.

Lemma intersect_nearest_common_ancestor_witness :
  ∃ c, intersect 4 4 [0; 0; 0] 1 2 = Some c
       ∧ intersect 4 4 [0; 0; 0] 2 1 = Some c
       ∧ anc [0; 0; 0] c 1 ∧ anc [0; 0; 0] c 2
       ∧ (∀ a, anc [0; 0; 0] a 1 → anc [0; 0; 0] a 2 → anc [0; 0; 0] a c)
       ∧ 0 ≤ c ≤ Z.min 1 2
       ∧ (1 = 2 → c = 1).
Proof.
  apply (intersect_nearest_common_ancestor 3 4 [0; 0; 0] 1 2).
  - split; [reflexivity|]. split; [reflexivity|].
    intros v d Hv Hd. right.
    assert (v = 1 ∨ v = 2) as [-> | ->] by lia;
      injection Hd as <-; (split; [lia|discriminate]).
  - simpl; lia.
  - lia.
  - lia.
  - exists 0. split; [reflexivity|lia].
  - exists 0. split; [reflexivity|lia].
Defined.

(** ** Degenerate graphs *)

(** X11. On a function none of whose blocks has an empty successor list,
    [computePostDominators] returns and leaves the map as it found it: the
    order holds the null block alone. *)
Theorem no_exit_block_map_unchanged (f : SVFFunction) (fuel : nat)
    (m : DominatorMap) :
  (∀ b, b ∈ getBasicBlockList f → getSuccessors f b ≠ []) →
  (0 < fuel)%nat →
  fastIPdoms fuel f = Some ([None], [0])
  ∧ computePostDominators fuel f m = Some m.
Proof.
  intros Hsucc Hfuel.
  assert (exitBBs f = ∅) as Hex.
  { unfold exitBBs. apply set_eq. intros b.
    rewrite elem_of_list_to_set, list_elem_of_filter. split; [|set_solver].
    intros [Hnil Hb]. by destruct (Hsucc b Hb). }
  assert (fastIPdoms fuel f = Some ([None], [0])) as Hfast.
  { unfold fastIPdoms, exitOrder. rewrite Hex, elements_empty. simpl.
    destruct fuel as [|fuel]; [lia|]. reflexivity. }
  split; [done|].
  unfold computePostDominators. rewrite Hfast. reflexivity.
Qed.

Lemma no_exit_block_map_unchanged_witness :
  fastIPdoms 1
    {| getBasicBlockList := [0%nat]; getEntryBlock := 0%nat;
       getSuccessors := λ _, [0%nat]; getPredecessors := λ _, [0%nat] |}
  = Some ([None], [0])
  ∧ computePostDominators 1
      {| getBasicBlockList := [0%nat]; getEntryBlock := 0%nat;
         getSuccessors := λ _, [0%nat]; getPredecessors := λ _, [0%nat] |} ∅
    = Some ∅.
Proof.
  apply (no_exit_block_map_unchanged
           {| getBasicBlockList := [0%nat]; getEntryBlock := 0%nat;
              getSuccessors := λ _, [0%nat];
              getPredecessors := λ _, [0%nat] |} 1 ∅).
  - intros b _. simpl. discriminate.
  - lia.
Defined.

(** X12. On a function whose entry block has no successor, both
    [computeDominators] and [computeDominators_classic] return and leave
    the map as they found it: the order holds the entry block alone, and
    the slot of the root is never published. *)
Theorem lone_entry_map_unchanged (f : SVFFunction) (fuel : nat)
    (m : DominatorMap) :
  getSuccessors f (getEntryBlock f) = [] → (0 < fuel)%nat →
  fastIDoms fuel f = Some ([Some (getEntryBlock f)], [0])
  ∧ classicIDoms fuel f = Some ([Some (getEntryBlock f)], [-1])
  ∧ computeDominators fuel f m = Some m
  ∧ computeDominators_classic fuel f m = Some m.
Proof.
  intros Hnil Hfuel. destruct fuel as [|fuel]; [lia|].
  assert (entryOrder (S fuel) f
          = Some ({[Some (getEntryBlock f)]}, [Some (getEntryBlock f)]))
    as Horder.
  { unfold entryOrder. simpl. rewrite Hnil. simpl. f_equal. f_equal.
    rewrite union_empty_r_L. by rewrite set_map_singleton_L. }
  assert (idxOf (buildIdx [Some (getEntryBlock f)] 0 ∅)
            (Some (getEntryBlock f)) = 0) as Hroot.
  { unfold idxOf. simpl. by rewrite lookup_insert_eq. }
  assert (fastIDoms (S fuel) f = Some ([Some (getEntryBlock f)], [0]))
    as Hfast.
  { unfold fastIDoms. rewrite Horder. cbn -[buildIdx solve].
    rewrite Hroot. reflexivity. }
  assert (classicIDoms (S fuel) f = Some ([Some (getEntryBlock f)], [-1]))
    as Hclassic.
  { unfold classicIDoms. rewrite Horder. cbn -[buildIdx classicSolve].
    rewrite Hroot. reflexivity. }
  split; [done|]. split; [done|]. split.
  - unfold computeDominators. rewrite Hfast. reflexivity.
  - unfold computeDominators_classic. rewrite Hclassic. reflexivity.
Qed.

Lemma lone_entry_map_unchanged_witness :
  fastIDoms 1 (MkFunction [0%nat] 0%nat (λ _, []) (λ _, []))
  = Some ([Some (getEntryBlock
                   (MkFunction [0%nat] 0%nat (λ _, []) (λ _, [])))], [0])
  ∧ classicIDoms 1 (MkFunction [0%nat] 0%nat (λ _, []) (λ _, []))
    = Some ([Some (getEntryBlock
                     (MkFunction [0%nat] 0%nat (λ _, []) (λ _, [])))], [-1])
  ∧ computeDominators 1 (MkFunction [0%nat] 0%nat (λ _, []) (λ _, [])) ∅
    = Some ∅
  ∧ computeDominators_classic 1
      (MkFunction [0%nat] 0%nat (λ _, []) (λ _, [])) ∅ = Some ∅.
Proof.
  apply (lone_entry_map_unchanged
           (MkFunction [0%nat] 0%nat (λ _, []) (λ _, [])) 1 ∅);
    [reflexivity|lia].
Defined.

Local Open Scope Z_scope.

(** ** Child sets are never empty *)

Lemma keys_have_children (m m' : DominatorMap) (P : BBPtr → BBPtr → Prop) :
  (∀ k s, m !! k = Some s → s ≠ ∅) →
  (∀ k v, child m' k v ↔ child m k v ∨ P k v) →
  (∀ k, is_Some (m' !! k) ↔ is_Some (m !! k) ∨ ∃ v, P k v) →
  ∀ k s, m' !! k = Some s → s ≠ ∅.
Proof.
  intros Hm Hch Hkey k s Hs.
  assert (∃ v, child m' k v) as (v & s' & Hs' & Hv).
  { destruct (proj1 (Hkey k)) as [[s0 Hs0]|[v Hv]]; [by eexists| |].
    - destruct (set_choose_L s0 (Hm k s0 Hs0)) as [v Hv].
      exists v. apply Hch. left. by exists s0.
    - exists v. apply Hch. by right. }
  assert (s' = s) as -> by congruence. set_solver.
Qed.

(** X13. [analyze] never leaves an empty child set behind: when no key of
    the two maps holds the empty set before the run, none does after it,
    so that a block is a key of a map exactly when the map gives it a
    child. *)
Theorem analyze_no_empty_child_set (f : SVFFunction) (fuel : nat)
    (r0 : SVFLoopAndDomInfo) :
  wfCFG f = true → (S (length (getBasicBlockList f)) < fuel)%nat →
  (∀ k s, getDomTreeMap r0 !! k = Some s → s ≠ ∅) →
  (∀ k s, getPostDomTreeMap r0 !! k = Some s → s ≠ ∅) →
  ∃ r, analyze fuel f r0 = Some r
       ∧ (∀ k s, getDomTreeMap r !! k = Some s → s ≠ ∅)
       ∧ (∀ k s, getPostDomTreeMap r !! k = Some s → s ≠ ∅)
       ∧ (∀ k, is_Some (getDomTreeMap r !! k)
               ↔ ∃ v, child (getDomTreeMap r) k v)
       ∧ (∀ k, is_Some (getPostDomTreeMap r !! k)
               ↔ ∃ v, child (getPostDomTreeMap r) k v).
Proof.
  intros Hwf Hfuel Hd0 Hp0.
  destruct (computeDominators_spec f fuel (getDomTreeMap r0) Hwf)
    as (seg' & I & dt & _ & Hrun & _ & _ & _ & _ & Hch & Hkey); [lia|].
  destruct (computePostDominators_spec f fuel (getPostDomTreeMap r0) Hwf Hfuel)
    as (seg & J & pdt & _ & Hrun' & _ & _ & _ & _ & _ & Hch' & Hkey').
  exists {| getDomTreeMap := dt; getPostDomTreeMap := pdt |}. simpl.
  pose proof (keys_have_children _ _ _ Hd0 Hch Hkey) as Hd.
  pose proof (keys_have_children _ _ _ Hp0 Hch' Hkey') as Hp.
  split; [unfold analyze; rewrite Hrun; simpl; by rewrite Hrun'|].
  split; [done|]. split; [done|].
  assert (∀ m : DominatorMap, (∀ k s, m !! k = Some s → s ≠ ∅) →
            ∀ k, is_Some (m !! k) ↔ ∃ v, child m k v) as Hiff.
  { intros m Hm k. split.
    - intros [s Hs]. destruct (set_choose_L s (Hm k s Hs)) as [v Hv].
      exists v. by exists s.
    - intros (v & s & Hs & _). by exists s. }
  split; by apply Hiff.
Qed.

Lemma analyze_no_empty_child_set_witness :
  ∃ r, analyze 7 diamond staleInfo = Some r
       ∧ (∀ k s, getDomTreeMap r !! k = Some s → s ≠ ∅)
       ∧ (∀ k s, getPostDomTreeMap r !! k = Some s → s ≠ ∅)
       ∧ (∀ k, is_Some (getDomTreeMap r !! k)
               ↔ ∃ v, child (getDomTreeMap r) k v)
       ∧ (∀ k, is_Some (getPostDomTreeMap r !! k)
               ↔ ∃ v, child (getPostDomTreeMap r) k v).
Proof.
  apply (analyze_no_empty_child_set diamond 7 staleInfo).
  - reflexivity.
  - simpl; lia.
  - intros k s. simpl. intros [_ <-]%lookup_singleton_Some.
    apply non_empty_singleton_L.
  - intros k s. simpl. by rewrite lookup_empty.
Defined.

(** ** Paths of the index graph are paths of the graph *)

Lemma reachable_walk f b : reachableFromEntry f b → ∃ W, walk f b W.
Proof.
  unfold reachableFromEntry. revert b.
  apply (rtc_ind_r (λ b, ∃ W, walk f b W)).
  - exists [getEntryBlock f]. constructor.
  - intros a b Hra Hab [W HW]. exists (b :: W). by eapply walk_step.
Qed.

Section DomPaths.
Variable f : SVFFunction.
Variable seg' : list BB.
Hypothesis Hwf : wfCFG f = true.
Hypothesis Hseg :
  DFSSeg (getSuccessors f) [getEntryBlock f] ∅ (seg' ++ [getEntryBlock f]).

Local Abbreviation seg := (seg' ++ [getEntryBlock f]).
Local Abbreviation order := (domOrder f seg').
Local Abbreviation pos := (λ x : BB, idxOf (buildIdx order 0 ∅) (Some x)).
Local Abbreviation Bwalk :=
  (bwalk order (list_to_set order) (buildIdx order 0 ∅) (predsOf f)).
Local Abbreviation Idom_star :=
  (idom_star order (list_to_set order) (buildIdx order 0 ∅) (predsOf f)).

Lemma dom_at_pos i b : at_ order i = Some (Some b) → b ∈ seg ∧ pos b = i.
Proof using Hseg.
  intros Hi. destruct (dom_order_elem f seg' _ _ Hi) as (x & [= <-] & Hx).
  split; [done|].
  apply idxOf_buildIdx; [apply (dom_order_NoDup f seg' Hseg)|done].
Qed.

Lemma bwalk_walk k v W :
  Bwalk k v W →
  ∃ b W', at_ order v = Some (Some b) ∧ walk f b W' ∧ W = pos <$> W'.
Proof using Hwf Hseg.
  induction 1 as [k|k p v W HW (a & Wa & Ha & Hwa & HWa) He Hlt
                  |k p v W HW (a & Wa & Ha & Hwa & HWa) He Hle].
  - exists (getEntryBlock f), [getEntryBlock f].
    split; [apply (dom_order_head f seg')|]. split; [constructor|].
    simpl. unfold domOrder. by rewrite (dom_root_idx f seg' Hseg).
  - apply (dom_iedge f seg' Hseg) in He as (a' & b & Hb & Ha' & Hab).
    assert (a' = a) as -> by (unfold domOrder in *; congruence).
    destruct (dom_at_pos v b Hb) as [Hbs Hpb].
    exists b, (b :: Wa). split; [done|]. split.
    + apply (walk_step f a b Wa Hwa).
      destruct (wfCFG_spec f Hwf) as (_ & _ & Hp).
      apply (Hp b a); [|done]. by apply (dom_seg_blocks f seg').
    + simpl. by rewrite Hpb, HWa.
  - apply (dom_iedge f seg' Hseg) in He as (a' & b & Hb & Ha' & Hab).
    assert (a' = a) as -> by (unfold domOrder in *; congruence).
    destruct (dom_at_pos v b Hb) as [Hbs Hpb].
    exists b, (b :: Wa). split; [done|]. split.
    + apply (walk_step f a b Wa Hwa).
      destruct (wfCFG_spec f Hwf) as (_ & _ & Hp).
      apply (Hp b a); [|done]. by apply (dom_seg_blocks f seg').
    + simpl. by rewrite Hpb, HWa.
Qed.

Lemma dominates_seg x b : b ∈ seg → dominates f x b → x ∈ seg.
Proof using Hwf Hseg.
  intros Hb Hdom.
  destruct (reachable_walk f b) as [W HW].
  { by apply (dom_seg_reachable f seg' b Hseg). }
  destruct (walk_bwalk f seg' Hwf Hseg b W HW) as (HallW & _).
  apply HallW, Hdom, HW.
Qed.

(** Dominance in the graph is dominance in the index graph. *)
Lemma dominates_idom_star x b :
  x ∈ seg → b ∈ seg → dominates f x b ↔ Idom_star (pos x) (pos b).
Proof using Hwf Hseg.
  intros Hx Hb. split.
  - intros Hdom k W HW.
    destruct (bwalk_walk k _ W HW) as (b' & W' & Hb' & HW' & ->).
    rewrite (dom_pos_at f seg' Hseg b Hb) in Hb'. injection Hb' as <-.
    apply list_elem_of_fmap. exists x. split; [done|]. by apply Hdom.
  - intros Hstar W HW.
    destruct (walk_bwalk f seg' Hwf Hseg b W HW) as (HallW & _ & k & Hbw).
    specialize (Hstar k _ Hbw).
    apply list_elem_of_fmap in Hstar as (y & Hy & HyW).
    pose proof (dom_pos_at f seg' Hseg y (HallW y HyW)) as Hpy.
    pose proof (dom_pos_at f seg' Hseg x Hx) as Hpx.
    cbv beta in Hy, Hpx, Hpy. rewrite Hy, Hpy in Hpx.
    by injection Hpx as ->.
Qed.

(** *** The tree of the map and the tree of the vector *)

Section DomTree.
Variable I : list Z.
Variable m : DominatorMap.
Hypothesis HT : Tree (Z.of_nat (length order)) I.
Hypothesis Hall : ∀ u, 0 ≤ u < Z.of_nat (length order) → assigned I u.
Hypothesis Hch :
  ∀ k v, child m k v ↔
    published order keepDom I 0 (Z.of_nat (length order)) k v.

Lemma dom_treeDom_anc x y j :
  at_ order j = Some y → treeDom m x y →
  ∃ i, at_ order i = Some x ∧ anc I i j.
Proof using Hseg HT Hall Hch.
  intros Hj Hrtc. revert j Hj. unfold treeDom in Hrtc. revert y Hrtc.
  apply (rtc_ind_r (λ y, ∀ j, at_ order j = Some y →
                          ∃ i, at_ order i = Some x ∧ anc I i j)).
  - intros j Hj. exists j. split; [done|constructor].
  - intros p y Hxp Hpy IH j Hj.
    apply Hch, published_dom in Hpy as (j' & dj & Hj' & Hdj & Hlt & Hk & Hv);
      [|done..].
    pose proof (at_order_inj _ (dom_order_NoDup f seg' Hseg) _ _ _ Hv Hj) as ->.
    destruct (IH dj Hk) as (i & Hi & Hanc).
    exists i. split; [done|]. eapply anc_up; [done|lia|done].
Qed.

Lemma dom_anc_treeDom i j x y :
  anc I i j → 0 ≤ j < Z.of_nat (length order) →
  at_ order i = Some x → at_ order j = Some y → treeDom m x y.
Proof using Hseg HT Hall Hch.
  intros Hanc. revert y.
  induction Hanc as [v|a v d Hd Hd0 Hanc IH]; intros y Hv Hx Hy.
  - assert (x = y) as -> by congruence. apply rtc_refl.
  - destruct (decide (v = 0)) as [->|Hv0].
    + destruct HT as (_ & H0 & _). rewrite H0 in Hd. injection Hd as <-.
      by apply IH.
    + destruct (Tree_slot _ I v HT Hall) as (d' & Hd' & Hlt); [lia|].
      assert (d' = d) as -> by congruence.
      destruct (at_defined order d) as [yd Hyd]; [lia|].
      eapply rtc_r; [apply IH; [lia|done|done]|].
      apply Hch, published_dom; [done..|].
      exists v, d. split; [lia|]. split; [done|]. split; [lia|]. done.
Qed.
End DomTree.
End DomPaths.

(** X14. From a fresh result the dominator map holds the dominance
    relation itself: for a block [b] that the entry block reaches, [d] is
    [b] or an ancestor of [b] in the map exactly when every path from the
    entry block to [b] meets [d]. *)
Theorem dominator_tree_is_dominance f fuel :
  wfCFG f = true → (S (length (getBasicBlockList f)) < fuel)%nat →
  ∃ r, analyze fuel f emptyInfo = Some r
       ∧ ∀ d b, reachableFromEntry f b →
           (treeDom (getDomTreeMap r) (Some d) (Some b) ↔ dominates f d b).
Proof.
  intros Hwf Hfuel.
  destruct (analyze_spec f fuel Hwf Hfuel)
    as (seg' & I & seg & J & r & Hrun & _ & _ & Hseg & HT & Hall & HE
        & Hch & Hkey & _).
  exists r. split; [done|]. intros d b Hb%(dom_seg_reachable f seg' b Hseg).
  pose proof (dom_pos_at f seg' Hseg b Hb) as Hpb.
  assert (0 ≤ idxOf (buildIdx (domOrder f seg') 0 ∅) (Some b)
          < Z.of_nat (length (domOrder f seg'))) as Hbr
    by (by apply at_range in Hpb).
  split.
  - intros Htree.
    destruct (dom_treeDom_anc f seg' Hseg I _ HT Hall Hch _ _ _ Hpb Htree)
      as (i & Hi & Hanc).
    destruct (dom_at_pos f seg' Hseg i d Hi) as [Hd <-].
    apply (dominates_idom_star f seg' Hwf Hseg d b Hd Hb).
    by apply HE.
  - intros Hdom.
    pose proof (dominates_seg f seg' Hwf Hseg d b Hb Hdom) as Hd.
    pose proof (dom_pos_at f seg' Hseg d Hd) as Hpd.
    apply (dom_anc_treeDom f seg' Hseg I _ HT Hall Hch _ _ _ _
             (proj2 (HE _ _ Hbr)
                (proj1 (dominates_idom_star f seg' Hwf Hseg d b Hd Hb) Hdom))
             Hbr Hpd Hpb).
Qed.

Lemma dominator_tree_is_dominance_witness :
  ∃ r, analyze 7 twoEntryLoop emptyInfo = Some r
       ∧ ∀ d b, reachableFromEntry twoEntryLoop b →
           (treeDom (getDomTreeMap r) (Some d) (Some b)
            ↔ dominates twoEntryLoop d b).
Proof.
  apply (dominator_tree_is_dominance twoEntryLoop 7); [reflexivity|simpl; lia].
Defined.

(** The parent that the dominator map gives a block is its closest
    strict dominator. *)
Lemma dom_parent_closest (f : SVFFunction) (seg' : list BB) (I : list Z)
    (m : DominatorMap) d b :
  wfCFG f = true →
  DFSSeg (getSuccessors f) [getEntryBlock f] ∅ (seg' ++ [getEntryBlock f]) →
  Tree (Z.of_nat (length (domOrder f seg'))) I →
  (∀ u, 0 ≤ u < Z.of_nat (length (domOrder f seg')) → assigned I u) →
  Exact (domOrder f seg') (list_to_set (domOrder f seg'))
    (buildIdx (domOrder f seg') 0 ∅) (predsOf f)
    (Z.of_nat (length (domOrder f seg'))) I →
  (∀ k v, child m k v ↔
     published (domOrder f seg') keepDom I
       0 (Z.of_nat (length (domOrder f seg'))) k v) →
  child m (Some d) (Some b) → closestDom f d b.
Proof.
  intros Hwf Hseg HT Hall HE Hch Hdb.
  apply Hch, published_dom in Hdb as (j & dj & Hj & Hdj & Hlt & Hk & Hv);
    [|done..].
  destruct (dom_at_pos f seg' Hseg j b Hv) as [Hb Hpb].
  destruct (dom_at_pos f seg' Hseg dj d Hk) as [Hd Hpd].
  assert (anc I dj j) as Hanc by (eapply anc_up; [done|lia|constructor]).
  split; [by apply (dom_seg_reachable f seg' b Hseg)|].
  split; [intros ->; lia|]. split.
  - apply (dominates_idom_star f seg' Hwf Hseg d b Hd Hb).
    rewrite Hpb, Hpd. apply HE; [lia|done].
  - intros x Hx Hne.
    pose proof (dominates_seg f seg' Hwf Hseg x b Hb Hx) as Hxs.
    pose proof (dom_pos_at f seg' Hseg x Hxs) as Hpx. cbv beta in Hpx.
    apply (dominates_idom_star f seg' Hwf Hseg x b Hxs Hb) in Hx.
    rewrite Hpb in Hx. apply HE in Hx; [|lia].
    apply (dominates_idom_star f seg' Hwf Hseg x d Hxs Hd).
    rewrite Hpd. apply HE; [lia|].
    apply anc_inv in Hx as [Heq|(d' & Hd' & _ & Hx)].
    + rewrite Heq in Hpx. congruence.
    + congruence.
Qed.

(** Two blocks of the order that dominate each other are the same. *)
Lemma dominates_antisym (f : SVFFunction) (seg' : list BB) (I : list Z) x y :
  wfCFG f = true →
  DFSSeg (getSuccessors f) [getEntryBlock f] ∅ (seg' ++ [getEntryBlock f]) →
  Tree (Z.of_nat (length (domOrder f seg'))) I →
  Exact (domOrder f seg') (list_to_set (domOrder f seg'))
    (buildIdx (domOrder f seg') 0 ∅) (predsOf f)
    (Z.of_nat (length (domOrder f seg'))) I →
  x ∈ seg' ++ [getEntryBlock f] → y ∈ seg' ++ [getEntryBlock f] →
  dominates f x y → dominates f y x → x = y.
Proof.
  intros Hwf Hseg HT HE Hx Hy Hxy Hyx.
  pose proof (dom_pos_at f seg' Hseg x Hx) as Hpx. cbv beta in Hpx.
  pose proof (dom_pos_at f seg' Hseg y Hy) as Hpy. cbv beta in Hpy.
  pose proof (at_range _ _ _ Hpx) as Hxr.
  pose proof (at_range _ _ _ Hpy) as Hyr.
  apply (dominates_idom_star f seg' Hwf Hseg x y Hx Hy), HE in Hxy; [|done].
  apply (dominates_idom_star f seg' Hwf Hseg y x Hy Hx), HE in Hyx; [|done].
  pose proof (anc_antisym _ I _ _ HT Hxr Hyr Hxy Hyx) as Heq.
  rewrite Heq in Hpx. congruence.
Qed.

Local Open Scope Z_scope.

(** ** Paths to an exit block and paths of the index graph *)

Lemma reachesExit_walk f b : reachesExit f b → ∃ P, exitWalk f b P.
Proof.
  intros (e & He & Hrtc).
  induction Hrtc as [e|b a e Hba _ IH].
  - exists [e]. by constructor.
  - destruct (IH He) as [P HP]. exists (b :: P). by eapply exitWalk_step.
Qed.

Section PostPaths.
Variable f : SVFFunction.
Variable seg : list BB.
Hypothesis Hwf : wfCFG f = true.
Hypothesis Hseg : DFSSeg (getPredecessors f) (elements (exitBBs f)) ∅ seg.
Hypothesis Hexits : ∀ e, isExit f e → e ∈ seg.

Local Abbreviation order := (postOrder seg).
Local Abbreviation pos := (λ x : BB, idxOf (buildIdx order 0 ∅) (Some x)).
Local Abbreviation Iedge :=
  (iedge order (list_to_set order) (buildIdx order 0 ∅) (succsOrExit f)).
Local Abbreviation Bwalk :=
  (bwalk order (list_to_set order) (buildIdx order 0 ∅) (succsOrExit f)).
Local Abbreviation Idom_star :=
  (idom_star order (list_to_set order) (buildIdx order 0 ∅) (succsOrExit f)).

Lemma post_at_pos i b :
  at_ order i = Some (Some b) → b ∈ seg ∧ pos b = i ∧ 0 < i.
Proof using Hseg.
  intros Hi.
  assert (0 < i) as Hpos.
  { destruct (decide (i = 0)) as [->|?]; [done|].
    pose proof (at_range _ _ _ Hi). lia. }
  destruct (post_order_tail seg i _ Hpos Hi) as (x & [= <-] & Hx).
  split; [done|]. split; [|done].
  apply idxOf_buildIdx; [apply (post_order_NoDup f seg Hseg)|done].
Qed.

(** The edges of the index graph: from the null block to an exit block,
    and from a successor to the block. *)
Lemma post_iedge p v :
  Iedge p v ↔
  ∃ b, at_ order v = Some (Some b)
       ∧ ((getSuccessors f b = [] ∧ p = 0)
          ∨ ∃ a, a ∈ getSuccessors f b ∧ at_ order p = Some (Some a)).
Proof using Hseg.
  pose proof (post_order_NoDup f seg Hseg) as Hnd.
  rewrite (iedge_order order (succsOrExit f) Hnd). split.
  - intros (pb & nbrs & pa & Hpb & Hnb & Hpa & Hp).
    destruct pb as [b|]; [|done]. exists b. split; [done|].
    destruct (decide (getSuccessors f b = [])) as [Hnil|Hsucc].
    + left. split; [done|]. rewrite (succsOrExit_exit f b Hnil) in Hnb.
      injection Hnb as <-. apply list_elem_of_singleton in Hpa as ->.
      by apply (at_order_inj order Hnd p 0 None).
    + right. rewrite (succsOrExit_nonempty f b Hsucc) in Hnb.
      injection Hnb as <-. apply list_elem_of_fmap in Hpa as (a & -> & Ha).
      by exists a.
  - intros (b & Hb & [[Hnil ->]|(a & Ha & Hp)]).
    + exists (Some b), [None], None. split; [done|].
      split; [by apply succsOrExit_exit|]. split; [by left|done].
    + exists (Some b), (Some <$> getSuccessors f b), (Some a).
      split; [done|]. split; [|split; [by apply list_elem_of_fmap_2|done]].
      apply succsOrExit_nonempty. intros Hnil. rewrite Hnil in Ha.
      by apply elem_of_nil in Ha.
Qed.

Lemma bwalk_zero k W : Bwalk k 0 W → W = [0].
Proof using Hseg.
  intros HW.
  destruct (bwalk_inv _ _ _ _ _ _ _ HW) as [[_ ?]|(p & W' & _ & He & _)];
    [done|].
  by apply post_iedge in He as (b & [=] & _).
Qed.

Lemma exitWalk_bwalk b P :
  exitWalk f b P → b ∈ getBasicBlockList f →
  (∀ x, x ∈ P → x ∈ seg) ∧ b ∈ seg
  ∧ ∃ k, Bwalk k (pos b) ((pos <$> P) ++ [0]).
Proof using Hwf Hseg Hexits.
  induction 1 as [e He|a b P HP IH Hab]; intros Hblock.
  - pose proof (Hexits e He) as Hes.
    destruct (post_pos_at f seg e Hseg Hes) as [Hpos Hat].
    split; [by intros x ->%list_elem_of_singleton|]. split; [done|].
    exists 0%nat. simpl.
    apply (bwalk_fwd _ _ _ _ 0%nat 0); [constructor| |done].
    apply post_iedge. exists e. split; [done|]. left.
    split; [by destruct He|done].
  - destruct (wfCFG_spec f Hwf) as (_ & Hs & _).
    destruct (Hs a b Hblock Hab) as [Hbb Hpred].
    destruct (IH Hbb) as (HallP & Hbs & k & Hk).
    assert (a ∈ seg) as Has.
    { pose proof Hseg as (_ & _ & _ & Hcl & _).
      destruct (Hcl b a Hbs Hpred) as [Hemp|?]; [|done].
      by apply elem_of_empty in Hemp. }
    split; [intros x [->|?]%elem_of_cons; [done|by apply HallP]|].
    split; [done|].
    destruct (post_pos_at f seg a Hseg Has) as [Hpa Hata].
    destruct (post_pos_at f seg b Hseg Hbs) as [Hpb Hatb].
    assert (Iedge (pos b) (pos a)) as Hedge.
    { apply post_iedge. exists a. split; [done|]. right. by exists b. }
    destruct (decide (pos b < pos a)) as [Hlt|Hge].
    + exists k. simpl. by eapply bwalk_fwd.
    + exists (S k).
      change (Bwalk (S k) (pos a) (pos a :: (pos <$> P) ++ [0])).
      eapply bwalk_back; [done..|]. cbv beta in *. lia.
Qed.

Lemma bwalk_exitWalk k v W :
  Bwalk k v W → 0 < v →
  ∃ b P, at_ order v = Some (Some b) ∧ exitWalk f b P
         ∧ W = (pos <$> P) ++ [0].
Proof using Hwf Hseg.
  assert (∀ k p v W,
            Bwalk k p W →
            (0 < p → ∃ a Pa, at_ order p = Some (Some a) ∧ exitWalk f a Pa
                             ∧ W = (pos <$> Pa) ++ [0]) →
            Iedge p v → 0 < v →
            ∃ b P, at_ order v = Some (Some b) ∧ exitWalk f b P
                   ∧ v :: W = (pos <$> P) ++ [0]) as Hstep.
  { clear k v W. intros k p v W HW IH He Hv.
    apply post_iedge in He as (b & Hb & [[Hnil ->]|(a & Ha & Hp)]).
    - destruct (post_at_pos v b Hb) as (Hbs & Hpb & _).
      exists b, [b]. split; [done|]. split.
      + constructor. split; [by apply (post_seg_blocks f seg)|done].
      + rewrite (bwalk_zero k W HW). change (v :: [0] = [pos b; 0]).
        cbv beta. by rewrite Hpb.
    - destruct (post_at_pos p a Hp) as (_ & _ & Hp0).
      destruct (IH Hp0) as (a' & Pa & Ha' & Hwa & ->).
      assert (a' = a) as -> by congruence.
      destruct (post_at_pos v b Hb) as (_ & Hpb & _).
      exists b, (b :: Pa). split; [done|]. split.
      + by apply (exitWalk_step f b a Pa).
      + change (v :: (pos <$> Pa) ++ [0] = pos b :: (pos <$> Pa) ++ [0]).
        cbv beta. by rewrite Hpb. }
  induction 1 as [k|k p v W HW IH He Hlt|k p v W HW IH He Hle]; intros Hv.
  - lia.
  - by apply (Hstep k p v W).
  - by apply (Hstep k p v W).
Qed.

Lemma postDominates_seg x b :
  b ∈ seg → postDominates f x b → x ∈ seg.
Proof using Hwf Hseg Hexits.
  intros Hb Hdom.
  destruct (proj1 (post_seg_reachable f seg b Hwf Hseg Hexits) Hb)
    as [Hblock Hreach].
  destruct (reachesExit_walk f b Hreach) as [P HP].
  destruct (exitWalk_bwalk b P HP Hblock) as (HallP & _).
  apply HallP, Hdom, HP.
Qed.

(** Post-dominance in the graph is dominance in the index graph. *)
Lemma postDominates_idom_star x b :
  x ∈ seg → b ∈ seg → postDominates f x b ↔ Idom_star (pos x) (pos b).
Proof using Hwf Hseg Hexits.
  intros Hx Hb.
  destruct (post_pos_at f seg x Hseg Hx) as [Hpx Hatx].
  destruct (post_pos_at f seg b Hseg Hb) as [Hpb Hatb].
  split.
  - intros Hdom k W HW.
    destruct (bwalk_exitWalk k _ W HW Hpb) as (b' & P & Hb' & HP & ->).
    assert (b' = b) as -> by congruence.
    apply elem_of_app. left. apply list_elem_of_fmap. exists x.
    split; [done|]. by apply Hdom.
  - intros Hstar P HP.
    destruct (proj1 (post_seg_reachable f seg b Hwf Hseg Hexits) Hb)
      as [Hblock _].
    destruct (exitWalk_bwalk b P HP Hblock) as (HallP & _ & k & Hbw).
    specialize (Hstar k _ Hbw).
    apply elem_of_app in Hstar as [Hin|Hin%list_elem_of_singleton]; [|lia].
    apply list_elem_of_fmap in Hin as (y & Hy & HyP).
    destruct (post_pos_at f seg y Hseg (HallP y HyP)) as [_ Haty].
    cbv beta in Hy. rewrite <- Hy in Haty.
    assert (y = x) as -> by congruence. done.
Qed.

(** *** The forest of the map and the tree of the vector *)

Section PostTree.
Variable J : list Z.
Variable m : DominatorMap.
Hypothesis HT : Tree (Z.of_nat (length order)) J.
Hypothesis Hall : ∀ u, 0 ≤ u < Z.of_nat (length order) → assigned J u.
Hypothesis Hch :
  ∀ k v, child m k v ↔
    published order keepPostDom J 1 (Z.of_nat (length order)) k v.

Lemma post_treeDom_anc x y j :
  at_ order j = Some y → 0 < j → treeDom m x y →
  ∃ i, 0 < i ∧ at_ order i = Some x ∧ anc J i j.
Proof using Hseg HT Hall Hch.
  intros Hj Hpos Hrtc. revert j Hj Hpos. unfold treeDom in Hrtc.
  revert y Hrtc.
  apply (rtc_ind_r (λ y, ∀ j, at_ order j = Some y → 0 < j →
                          ∃ i, 0 < i ∧ at_ order i = Some x ∧ anc J i j)).
  - intros j Hj Hpos. exists j. split; [done|]. split; [done|constructor].
  - intros p y Hxp Hpy IH j Hj Hpos.
    apply Hch, published_postdom in Hpy
      as (j' & dj & Hj' & Hdj & Hlt & Hk & Hv); [|done..].
    pose proof (at_order_inj _ (post_order_NoDup f seg Hseg) _ _ _ Hv Hj) as ->.
    destruct (IH dj Hk) as (i & Hi0 & Hi & Hanc); [lia|].
    exists i. split; [done|]. split; [done|].
    eapply anc_up; [done|lia|done].
Qed.

Lemma post_anc_treeDom i j x y :
  anc J i j → 0 < i → 0 ≤ j < Z.of_nat (length order) →
  at_ order i = Some x → at_ order j = Some y → treeDom m x y.
Proof using Hseg HT Hall Hch.
  intros Hanc. revert y.
  induction Hanc as [v|a v d Hd Hd0 Hanc IH]; intros y Hi Hv Hx Hy.
  - assert (x = y) as -> by congruence. apply rtc_refl.
  - destruct (decide (v = 0)) as [->|Hv0].
    + destruct HT as (_ & H0 & _). rewrite H0 in Hd. injection Hd as <-.
      by apply IH.
    + destruct (Tree_slot _ J v HT Hall) as (d' & Hd' & Hlt); [lia|].
      assert (d' = d) as -> by congruence.
      assert (0 ≤ d < Z.of_nat (length order)) as Hdr by lia.
      pose proof (anc_le _ J a d HT Hdr Hanc) as Hle.
      destruct (at_defined order d) as [yd Hyd]; [lia|].
      eapply rtc_r; [apply IH; [lia|lia|done|done]|].
      apply Hch, published_postdom; [done..|].
      exists v, d. split; [lia|]. split; [done|]. split; [lia|]. done.
Qed.
End PostTree.
End PostPaths.

(** X15. From a fresh result the post-dominator map holds the
    post-dominance relation between blocks: for a block [b] of the
    function that reaches an exit block, [d] is [b] or an ancestor of [b]
    in the map exactly when every path from [b] to an exit block meets
    [d]. *)
Theorem postdominator_tree_is_postdominance f fuel :
  wfCFG f = true → (S (length (getBasicBlockList f)) < fuel)%nat →
  ∃ r, analyze fuel f emptyInfo = Some r
       ∧ ∀ d b, b ∈ getBasicBlockList f → reachesExit f b →
           (treeDom (getPostDomTreeMap r) (Some d) (Some b)
            ↔ postDominates f d b).
Proof.
  intros Hwf Hfuel.
  destruct (analyze_spec f fuel Hwf Hfuel)
    as (seg' & I & seg & J & r & Hrun & _ & _ & _ & _ & _ & _ & _ & _
        & Hseg & Hexits & HT & Hall & HE & Hch & Hkey).
  exists r. split; [done|]. intros d b Hblock Hreach.
  assert (b ∈ seg) as Hb
    by (by apply (post_seg_reachable f seg b Hwf Hseg Hexits)).
  destruct (post_pos_at f seg b Hseg Hb) as [Hpb Hatb].
  assert (0 ≤ idxOf (buildIdx (postOrder seg) 0 ∅) (Some b)
          < Z.of_nat (length (postOrder seg))) as Hbr
    by (by apply at_range in Hatb).
  split.
  - intros Htree.
    destruct (post_treeDom_anc f seg Hseg J _ HT Hall Hch _ _ _ Hatb Hpb Htree)
      as (i & Hi0 & Hi & Hanc).
    destruct (post_at_pos f seg Hseg i d Hi) as (Hd & <- & _).
    apply (postDominates_idom_star f seg Hwf Hseg Hexits d b Hd Hb).
    by apply HE.
  - intros Hdom.
    pose proof (postDominates_seg f seg Hwf Hseg Hexits d b Hb Hdom) as Hd.
    destruct (post_pos_at f seg d Hseg Hd) as [Hpd Hatd].
    apply (post_anc_treeDom f seg Hseg J _ HT Hall Hch _ _ _ _
             (proj2 (HE _ _ Hbr)
                (proj1 (postDominates_idom_star f seg Hwf Hseg Hexits d b
                          Hd Hb) Hdom))
             Hpd Hbr Hatd Hatb).
Qed.

Lemma postdominator_tree_is_postdominance_witness :
  ∃ r, analyze 7 diamond emptyInfo = Some r
       ∧ ∀ d b, b ∈ getBasicBlockList diamond → reachesExit diamond b →
           (treeDom (getPostDomTreeMap r) (Some d) (Some b)
            ↔ postDominates diamond d b).
Proof.
  apply (postdominator_tree_is_postdominance diamond 7);
    [reflexivity|simpl; lia].
Defined.


Local Open Scope Z_scope.

(** ** The sets of the classical algorithm *)

(** X16. On a well-formed graph, and with fuel above the square of the
    number of blocks, the [while (change)] loop of
    [computeDominators_classic] ends with one set per block of the order,
    and the set of a block holds exactly the indices of the blocks that
    dominate it, itself among them. *)
Theorem classic_sets_are_dominators f fuel :
  wfCFG f = true →
  (length (getBasicBlockList f) * length (getBasicBlockList f) < fuel)%nat →
  ∃ (order : list BBPtr) (dominators : list (gset Z)),
    classicDoms fuel f = Some (order, dominators)
    ∧ length dominators = length order
    ∧ (∀ j i, inDom dominators j i → 0 ≤ i < Z.of_nat (length order))
    ∧ (∀ j, 0 ≤ j < Z.of_nat (length order) → inDom dominators j j)
    ∧ (∀ i j x b,
         at_ order i = Some (Some x) → at_ order j = Some (Some b) →
         (inDom dominators j i ↔ dominates f x b)).
Proof.
  intros Hwf Hfuel.
  assert (length (getBasicBlockList f) < fuel)%nat as Hlt.
  { destruct (wfCFG_spec f Hwf) as (He & _).
    destruct (getBasicBlockList f) as [|b l]; [by apply elem_of_nil in He|].
    simpl in *. nia. }
  destruct (entryOrder_spec f fuel Hwf Hlt) as (seg' & Horder & Hseg).
  set (order := domOrder f seg').
  pose proof (dom_order_length f seg' Hwf Hseg) as Hle. fold order in Hle.
  assert (0 < Z.of_nat (length order)) as Hn
    by apply (dom_order_length_pos f seg').
  assert (∀ p v, iedge order (list_to_set order) (buildIdx order 0 ∅)
                   (predsOf f) p v → 0 ≤ p < Z.of_nat (length order)) as Hrange.
  { intros p v. apply iedge_order_range. by apply dom_order_NoDup. }
  assert (∀ v, 0 < v < Z.of_nat (length order) →
            ∃ b nbrs, at_ order v = Some b ∧ predsOf f b = Some nbrs) as Hnbrs.
  { intros v Hv. apply (dom_Hnbrs f seg'). unfold order, domOrder in Hv. lia. }
  assert (∀ v, 0 < v < Z.of_nat (length order) →
            ∃ p, iedge order (list_to_set order) (buildIdx order 0 ∅)
                   (predsOf f) p v ∧ p < v) as Hfwd.
  { intros v Hv. apply (dom_Hfwd f seg' Hwf Hseg). unfold order, domOrder in Hv. lia. }
  assert (length order * length order < fuel)%nat as Hfuel'
    by (unfold order, domOrder; nia).
  destruct (refine_init_spec order (list_to_set order) (buildIdx order 0 ∅)
              (predsOf f) (Z.of_nat (length order)) Hn eq_refl Hrange Hnbrs
              Hfwd fuel Hfuel') as (D & Href & HDlen & HD).
  exists order, D.
  split.
  { unfold classicDoms. rewrite Horder. cbn -[buildIdx refine initialDominators].
    rewrite (dom_reachable_set f seg'), (dom_root_idx f seg' Hseg).
    unfold order, domOrder in Href. by rewrite Href. }
  split; [lia|].
  split.
  { intros j i (s & Hs & Hi).
    assert (0 ≤ j < Z.of_nat (length order)) as Hj
      by (apply at_range in Hs; lia).
    apply (idom_star_range order (list_to_set order) (buildIdx order 0 ∅)
             (predsOf f) (Z.of_nat (length order)) Hn eq_refl Hrange Hfwd i j Hj).
    apply HD; [done|]. by exists s. }
  split.
  { intros j Hj. apply HD; [done|]. intros k W HW.
    destruct (bwalk_head _ _ _ _ _ _ _ HW) as [W' ->]. left. }
  intros i j x b Hi Hj.
  destruct (dom_at_pos f seg' Hseg i x Hi) as [Hx <-].
  destruct (dom_at_pos f seg' Hseg j b Hj) as [Hb <-].
  rewrite (dominates_idom_star f seg' Hwf Hseg x b Hx Hb).
  apply HD. by apply at_range in Hj.
Qed.

Lemma classic_sets_are_dominators_witness :
  ∃ (order : list BBPtr) (dominators : list (gset Z)),
    classicDoms 26 twoEntryLoop = Some (order, dominators)
    ∧ length dominators = length order
    ∧ (∀ j i, inDom dominators j i → 0 ≤ i < Z.of_nat (length order))
    ∧ (∀ j, 0 ≤ j < Z.of_nat (length order) → inDom dominators j j)
    ∧ (∀ i j x b,
         at_ order i = Some (Some x) → at_ order j = Some (Some b) →
         (inDom dominators j i ↔ dominates twoEntryLoop x b)).
Proof.
  apply (classic_sets_are_dominators twoEntryLoop 26);
    [reflexivity|simpl; lia].
Defined.

(** ** The vector of immediate post-dominators *)

(** X17. On a well-formed graph the loop of [computePostDominators] ends
    with no slot of [IPdoms] left at [-1]: the slot of the null block,
    which heads the order, holds its own index, and every other slot holds
    a smaller index, so that the tests [IPdoms[i] != -1] and
    [i != IPdoms[i]] of the loop that fills the map never reject an
    index. *)
Theorem ipdoms_all_resolved f fuel :
  wfCFG f = true → (S (length (getBasicBlockList f)) < fuel)%nat →
  ∃ (order : list BBPtr) (IPdoms : list Z),
    fastIPdoms fuel f = Some (order, IPdoms)
    ∧ length IPdoms = length order
    ∧ at_ order 0 = Some None
    ∧ at_ IPdoms 0 = Some 0
    ∧ ∀ i, 0 < i < Z.of_nat (length order) →
        ∃ d, at_ IPdoms i = Some d ∧ 0 ≤ d < i.
Proof.
  intros Hwf Hfuel.
  destruct (fastIPdoms_spec f fuel Hwf Hfuel)
    as (seg & I & Hfast & Hseg & _ & HT & Hall & _).
  exists (postOrder seg), I. split; [done|].
  assert (length (postOrder seg) = S (length seg)) as Hlen
    by (unfold postOrder; simpl; by rewrite length_fmap, length_reverse).
  split; [destruct HT as (HIlen & _); lia|].
  split; [done|]. split; [by destruct HT as (_ & ? & _)|].
  intros i Hi. apply (Tree_slot _ I i HT Hall). lia.
Qed.

Lemma ipdoms_all_resolved_witness :
  ∃ (order : list BBPtr) (IPdoms : list Z),
    fastIPdoms 7 twoEntryLoop = Some (order, IPdoms)
    ∧ length IPdoms = length order
    ∧ at_ order 0 = Some None
    ∧ at_ IPdoms 0 = Some 0
    ∧ ∀ i, 0 < i < Z.of_nat (length order) →
        ∃ d, at_ IPdoms i = Some d ∧ 0 ≤ d < i.
Proof.
  apply (ipdoms_all_resolved twoEntryLoop 7); [reflexivity|simpl; lia].
Defined.

Local Open Scope Z_scope.

(** ** The edges of the two maps *)

Section DomEdges.
Variable f : SVFFunction.
Variable seg' : list BB.
Variable I : list Z.
Variable m : DominatorMap.
Hypothesis Hwf : wfCFG f = true.
Hypothesis Hseg :
  DFSSeg (getSuccessors f) [getEntryBlock f] ∅ (seg' ++ [getEntryBlock f]).
Hypothesis HT : Tree (Z.of_nat (length (domOrder f seg'))) I.
Hypothesis Hall :
  ∀ u, 0 ≤ u < Z.of_nat (length (domOrder f seg')) → assigned I u.
Hypothesis HE :
  Exact (domOrder f seg') (list_to_set (domOrder f seg'))
    (buildIdx (domOrder f seg') 0 ∅) (predsOf f)
    (Z.of_nat (length (domOrder f seg'))) I.
Hypothesis Hch :
  ∀ k v, child m k v ↔
    published (domOrder f seg') keepDom I
      0 (Z.of_nat (length (domOrder f seg'))) k v.

Lemma dom_edges k v :
  child m k v ↔ ∃ d b, k = Some d ∧ v = Some b ∧ closestDom f d b.
Proof using Hwf Hseg HT Hall HE Hch.
  split.
  - intros Hkv. pose proof Hkv as Hp%Hch.
    apply published_dom_blocks in Hp as (d & b & -> & -> & _); [|done..].
    exists d, b. split; [done|]. split; [done|].
    by apply (dom_parent_closest f seg' I m).
  - intros (d & b & -> & -> & Hreach & Hne & Hdom & Hclose).
    assert (b ∈ seg' ++ [getEntryBlock f]) as Hb
      by (by apply (dom_seg_reachable f seg' b Hseg)).
    assert (b ≠ getEntryBlock f) as Hentry.
    { intros ->. specialize (Hdom _ (walk_entry f)).
      by apply list_elem_of_singleton in Hdom. }
    destruct (dom_has_parent f seg' I b Hseg HT Hall Hb Hentry) as (k & Hk).
    pose proof Hk as Hkb.
    apply published_dom_blocks in Hkb as (d0 & b0 & -> & [= <-] & Hd0 & _);
      [|done..].
    apply Hch in Hk.
    destruct (dom_parent_closest f seg' I m d0 b Hwf Hseg HT Hall HE Hch Hk)
      as (_ & Hne0 & Hdom0 & Hclose0).
    pose proof (dominates_seg f seg' Hwf Hseg d b Hb Hdom) as Hd.
    assert (d = d0) as ->; [|done].
    apply (dominates_antisym f seg' I d d0 Hwf Hseg HT HE Hd Hd0).
    + by apply Hclose0.
    + by apply Hclose.
Qed.
End DomEdges.

Section PostEdges.
Variable f : SVFFunction.
Variable seg : list BB.
Variable J : list Z.
Variable m : DominatorMap.
Hypothesis Hwf : wfCFG f = true.
Hypothesis Hseg : DFSSeg (getPredecessors f) (elements (exitBBs f)) ∅ seg.
Hypothesis Hexits : ∀ e, isExit f e → e ∈ seg.
Hypothesis HT : Tree (Z.of_nat (length (postOrder seg))) J.
Hypothesis Hall :
  ∀ u, 0 ≤ u < Z.of_nat (length (postOrder seg)) → assigned J u.
Hypothesis HE :
  Exact (postOrder seg) (list_to_set (postOrder seg))
    (buildIdx (postOrder seg) 0 ∅) (succsOrExit f)
    (Z.of_nat (length (postOrder seg))) J.
Hypothesis Hch :
  ∀ k v, child m k v ↔
    published (postOrder seg) keepPostDom J
      1 (Z.of_nat (length (postOrder seg))) k v.

(** A strict post-dominator of a block is an ancestor of the block held by
    its slot, which is not the null block. *)
Lemma post_strict x b j :
  b ∈ seg → at_ (postOrder seg) j = Some (Some b) →
  postDominates f x b → x ≠ b →
  ∃ i dj, at_ (postOrder seg) i = Some (Some x) ∧ x ∈ seg
          ∧ at_ J j = Some dj ∧ 0 < dj < j ∧ anc J i dj.
Proof using Hwf Hseg Hexits HT Hall HE.
  intros Hb Hj Hx Hne.
  destruct (post_at_pos f seg Hseg j b Hj) as (_ & Hpb & Hj0).
  pose proof (postDominates_seg f seg Hwf Hseg Hexits x b Hb Hx) as Hxs.
  destruct (post_pos_at f seg x Hseg Hxs) as [Hpx Hatx].
  apply (postDominates_idom_star f seg Hwf Hseg Hexits x b Hxs Hb) in Hx.
  rewrite Hpb in Hx. pose proof (at_range _ _ _ Hj) as Hjr.
  apply HE in Hx; [|lia].
  apply anc_inv in Hx as [Heq|(dj & Hdj & _ & Hx)].
  { rewrite Heq in Hatx. congruence. }
  destruct (Tree_slot _ J j HT Hall) as (d' & Hd' & Hlt); [lia|].
  assert (d' = dj) as -> by congruence.
  assert (0 ≤ dj < Z.of_nat (length (postOrder seg))) as Hdr by lia.
  pose proof (anc_le _ J _ dj HT Hdr Hx).
  eexists _, dj. split; [exact Hatx|]. split; [done|]. split; [done|].
  split; [lia|done].
Qed.

Lemma post_parent_closest d b :
  child m (Some d) (Some b) → closestPostDom f d b.
Proof using Hwf Hseg Hexits HT Hall HE Hch.
  intros Hdb.
  apply Hch, published_postdom in Hdb as (j & dj & Hj & Hdj & Hlt & Hk & Hv);
    [|done..].
  destruct (post_at_pos f seg Hseg j b Hv) as (Hb & Hpb & _).
  destruct (post_at_pos f seg Hseg dj d Hk) as (Hd & Hpd & _).
  assert (anc J dj j) as Hanc by (eapply anc_up; [done|lia|constructor]).
  destruct (proj1 (post_seg_reachable f seg b Hwf Hseg Hexits) Hb)
    as [Hblock Hreach].
  split; [done|]. split; [done|].
  split; [intros ->; lia|]. split.
  - apply (postDominates_idom_star f seg Hwf Hseg Hexits d b Hd Hb).
    rewrite Hpb, Hpd. apply HE; [lia|done].
  - intros x Hx Hne.
    destruct (post_strict x b j Hb Hv Hx Hne)
      as (i & dj' & Hi & Hxs & Hdj' & _ & Hxd).
    assert (dj' = dj) as -> by congruence.
    destruct (post_at_pos f seg Hseg i x Hi) as (_ & Hpx & _).
    apply (postDominates_idom_star f seg Hwf Hseg Hexits x d Hxs Hd).
    rewrite Hpx, Hpd. apply HE; [lia|done].
Qed.

Lemma postDominates_antisym x y :
  x ∈ seg → y ∈ seg → postDominates f x y → postDominates f y x → x = y.
Proof using Hwf Hseg Hexits HT HE.
  intros Hx Hy Hxy Hyx.
  destruct (post_pos_at f seg x Hseg Hx) as [_ Hpx].
  destruct (post_pos_at f seg y Hseg Hy) as [_ Hpy].
  pose proof (at_range _ _ _ Hpx) as Hxr.
  pose proof (at_range _ _ _ Hpy) as Hyr.
  apply (postDominates_idom_star f seg Hwf Hseg Hexits x y Hx Hy), HE in Hxy;
    [|done].
  apply (postDominates_idom_star f seg Hwf Hseg Hexits y x Hy Hx), HE in Hyx;
    [|done].
  pose proof (anc_antisym _ J _ _ HT Hxr Hyr Hxy Hyx) as Heq.
  rewrite Heq in Hpx. congruence.
Qed.

(** A block with a strict post-dominator has a parent in the map. *)
Lemma post_has_parent x b :
  b ∈ seg → postDominates f x b → x ≠ b →
  ∃ d0, child m (Some d0) (Some b).
Proof using Hwf Hseg Hexits HT Hall HE Hch.
  intros Hb Hx Hne.
  destruct (post_pos_at f seg b Hseg Hb) as [Hpb Hatb].
  destruct (post_strict x b _ Hb Hatb Hx Hne)
    as (i & dj & _ & _ & Hdj & Hlt & _).
  pose proof (at_range _ _ _ Hatb) as Hbr.
  destruct (at_defined (postOrder seg) dj) as [k Hk]; [lia|].
  destruct (post_order_tail seg dj k) as (d0 & -> & _); [lia|done|].
  exists d0. apply Hch, published_postdom; [done..|].
  eexists _, dj. split; [split; [exact Hpb|lia]|].
  split; [done|]. split; [done|]. done.
Qed.

Lemma post_edges k v :
  child m k v ↔ ∃ d b, k = Some d ∧ v = Some b ∧ closestPostDom f d b.
Proof using Hwf Hseg Hexits HT Hall HE Hch.
  split.
  - intros Hkv. pose proof Hkv as Hp%Hch.
    apply published_postdom_blocks in Hp as (d & b & -> & -> & _); [|done..].
    exists d, b. split; [done|]. split; [done|].
    by apply post_parent_closest.
  - intros (d & b & -> & -> & Hblock & Hreach & Hne & Hdom & Hclose).
    assert (b ∈ seg) as Hb
      by (by apply (post_seg_reachable f seg b Hwf Hseg Hexits)).
    destruct (post_has_parent d b Hb Hdom Hne) as (d0 & Hd0).
    destruct (post_parent_closest d0 b Hd0) as (_ & _ & Hne0 & Hdom0 & Hclose0).
    pose proof (postDominates_seg f seg Hwf Hseg Hexits d b Hb Hdom) as Hd.
    pose proof (postDominates_seg f seg Hwf Hseg Hexits d0 b Hb Hdom0) as Hd0s.
    assert (d = d0) as ->; [|done].
    apply postDominates_antisym; [done|done| |].
    + by apply Hclose0.
    + by apply Hclose.
Qed.
End PostEdges.

(** The edges of the two maps that [analyze] leaves in a fresh result. *)
Lemma analyze_edges f fuel :
  wfCFG f = true → (S (length (getBasicBlockList f)) < fuel)%nat →
  ∃ r, analyze fuel f emptyInfo = Some r
       ∧ (∀ k v, child (getDomTreeMap r) k v ↔
            ∃ d b, k = Some d ∧ v = Some b ∧ closestDom f d b)
       ∧ (∀ k v, child (getPostDomTreeMap r) k v ↔
            ∃ d b, k = Some d ∧ v = Some b ∧ closestPostDom f d b)
       ∧ (∀ k, is_Some (getDomTreeMap r !! k)
               ↔ ∃ v, child (getDomTreeMap r) k v)
       ∧ (∀ k, is_Some (getPostDomTreeMap r !! k)
               ↔ ∃ v, child (getPostDomTreeMap r) k v)
       ∧ (∀ x b, b ∈ getBasicBlockList f → reachesExit f b →
            postDominates f x b → x ≠ b →
            ∃ d, child (getPostDomTreeMap r) (Some d) (Some b)).
Proof.
  intros Hwf Hfuel.
  destruct (analyze_spec f fuel Hwf Hfuel)
    as (seg' & I & seg & J & r & Hrun & _ & _ & Hseg' & HT' & Hall' & HE'
        & Hch' & Hkey' & Hseg & Hexits & HT & Hall & HE & Hch & Hkey).
  exists r. split; [done|].
  split; [intros k v; by apply (dom_edges f seg' I)|].
  split; [intros k v; by apply (post_edges f seg J)|].
  split; [done|]. split; [done|].
  intros x b Hblock Hreach Hx Hne.
  apply (post_has_parent f seg J _ Hwf Hseg Hexits HT Hall HE Hch x b);
    [|done..].
  by apply (post_seg_reachable f seg b Hwf Hseg Hexits).
Qed.

(** X18. From a fresh result the dominator map holds the edge from [d] to
    [b] exactly when [d] is the closest strict dominator of [b]: the entry
    block reaches [b], [d] differs from [b] and dominates it, and every
    other dominator of [b] dominates [d]. *)
Theorem immediate_dominator_is_closest f fuel :
  wfCFG f = true → (S (length (getBasicBlockList f)) < fuel)%nat →
  ∃ r, analyze fuel f emptyInfo = Some r
       ∧ ∀ d b, child (getDomTreeMap r) (Some d) (Some b) ↔
           (reachableFromEntry f b ∧ d ≠ b ∧ dominates f d b
            ∧ ∀ x, dominates f x b → x ≠ b → dominates f x d).
Proof.
  intros Hwf Hfuel.
  destruct (analyze_edges f fuel Hwf Hfuel) as (r & Hrun & Hdom & _).
  exists r. split; [done|]. intros d b. rewrite Hdom. split.
  - by intros (d' & b' & [= <-] & [= <-] & H).
  - intros H. by exists d, b.
Qed.

Lemma immediate_dominator_is_closest_witness :
  ∃ r, analyze 7 twoEntryLoop emptyInfo = Some r
       ∧ ∀ d b, child (getDomTreeMap r) (Some d) (Some b) ↔
           (reachableFromEntry twoEntryLoop b ∧ d ≠ b
            ∧ dominates twoEntryLoop d b
            ∧ ∀ x, dominates twoEntryLoop x b → x ≠ b →
                   dominates twoEntryLoop x d).
Proof.
  apply (immediate_dominator_is_closest twoEntryLoop 7);
    [reflexivity|simpl; lia].
Defined.

(** X19. From a fresh result the post-dominator map holds the edge from
    [d] to [b] exactly when [d] is the closest strict post-dominator of
    [b]: [b] is a block of the function that reaches an exit block, [d]
    differs from [b] and post-dominates it, and every other post-dominator
    of [b] post-dominates [d]. A block of the function that reaches an
    exit block has no parent in the map exactly when no other block
    post-dominates it. *)
Theorem immediate_postdominator_is_closest f fuel :
  wfCFG f = true → (S (length (getBasicBlockList f)) < fuel)%nat →
  ∃ r, analyze fuel f emptyInfo = Some r
       ∧ (∀ d b, child (getPostDomTreeMap r) (Some d) (Some b) ↔
            (b ∈ getBasicBlockList f ∧ reachesExit f b
             ∧ d ≠ b ∧ postDominates f d b
             ∧ ∀ x, postDominates f x b → x ≠ b → postDominates f x d))
       ∧ (∀ b, b ∈ getBasicBlockList f → reachesExit f b →
            ((¬ ∃ k, child (getPostDomTreeMap r) k (Some b))
             ↔ ∀ x, postDominates f x b → x = b)).
Proof.
  intros Hwf Hfuel.
  destruct (analyze_edges f fuel Hwf Hfuel)
    as (r & Hrun & _ & Hpost & _ & _ & Hparent).
  exists r. split; [done|]. split.
  - intros d b. rewrite Hpost. split.
    + by intros (d' & b' & [= <-] & [= <-] & H).
    + intros H. by exists d, b.
  - intros b Hblock Hreach. split.
    + intros Hnone x Hx. destruct (decide (x = b)) as [|Hne]; [done|].
      exfalso. apply Hnone.
      destruct (Hparent x b Hblock Hreach Hx Hne) as (d & Hd). by exists (Some d).
    + intros Honly (k & Hk). apply Hpost in Hk
        as (d & b' & -> & [= <-] & _ & _ & Hne & Hdom & _).
      by apply Hne, Honly.
Qed.

Lemma immediate_postdominator_is_closest_witness :
  ∃ r, analyze 7 diamond emptyInfo = Some r
       ∧ (∀ d b, child (getPostDomTreeMap r) (Some d) (Some b) ↔
            (b ∈ getBasicBlockList diamond ∧ reachesExit diamond b
             ∧ d ≠ b ∧ postDominates diamond d b
             ∧ ∀ x, postDominates diamond x b → x ≠ b →
                    postDominates diamond x d))
       ∧ (∀ b, b ∈ getBasicBlockList diamond → reachesExit diamond b →
            ((¬ ∃ k, child (getPostDomTreeMap r) k (Some b))
             ↔ ∀ x, postDominates diamond x b → x = b)).
Proof.
  apply (immediate_postdominator_is_closest diamond 7);
    [reflexivity|simpl; lia].
Defined.

(** ** The result depends on the graph alone *)

Lemma sameGraph_walk f f' b W : sameGraph f f' → walk f b W → walk f' b W.
Proof.
  intros (He & _ & Hs). induction 1 as [|a b W HW IH Hab].
  - rewrite He. constructor.
  - eapply walk_step; [done|]. by apply Hs.
Qed.

Lemma sameGraph_sym f f' : sameGraph f f' → sameGraph f' f.
Proof.
  intros (He & Hb & Hs). split; [done|]. split.
  - intros b. by rewrite Hb.
  - intros a b. by rewrite Hs.
Qed.

Lemma sameGraph_rtc f f' a b :
  sameGraph f f' → rtc (cfgEdge f) a b → rtc (cfgEdge f') a b.
Proof.
  intros (_ & _ & Hs). induction 1 as [|a c b Hac _ IH]; [done|].
  eapply rtc_l; [|done]. by apply Hs.
Qed.

Lemma sameGraph_isExit f f' e : sameGraph f f' → isExit f e → isExit f' e.
Proof.
  intros (_ & Hb & Hs) [He Hnil]. split; [by apply Hb|].
  destruct (getSuccessors f' e) as [|s l] eqn:Hl; [done|].
  assert (s ∈ getSuccessors f e) as Hin by (apply Hs; rewrite Hl; left).
  rewrite Hnil in Hin. by apply elem_of_nil in Hin.
Qed.

Lemma sameGraph_exitWalk f f' b P :
  sameGraph f f' → exitWalk f b P → exitWalk f' b P.
Proof.
  intros HG. induction 1 as [e He|a b P HP IH Hab].
  - constructor. by eapply sameGraph_isExit.
  - eapply exitWalk_step; [done|]. destruct HG as (_ & _ & Hs). by apply Hs.
Qed.

Lemma sameGraph_closestDom f f' d b :
  sameGraph f f' → closestDom f d b → closestDom f' d b.
Proof.
  intros HG (Hreach & Hne & Hdom & Hclose).
  pose proof (sameGraph_sym f f' HG) as HG'.
  assert (∀ x y, dominates f x y ↔ dominates f' x y) as Hiff.
  { intros x y. split; intros H W HW; apply H; by eapply sameGraph_walk. }
  split.
  { unfold reachableFromEntry in *. pose proof HG as (He & _).
    rewrite <- He. by apply (sameGraph_rtc f f'). }
  split; [done|]. split; [by apply Hiff|].
  intros x Hx Hxb. apply Hiff, Hclose; [by apply Hiff|done].
Qed.

Lemma sameGraph_closestPostDom f f' d b :
  sameGraph f f' → closestPostDom f d b → closestPostDom f' d b.
Proof.
  intros HG (Hblock & Hreach & Hne & Hdom & Hclose).
  pose proof (sameGraph_sym f f' HG) as HG'.
  assert (∀ x y, postDominates f x y ↔ postDominates f' x y) as Hiff.
  { intros x y. split; intros H P HP; apply H; by eapply sameGraph_exitWalk. }
  split; [destruct HG as (_ & Hb & _); by apply Hb|].
  split.
  { destruct Hreach as (e & He & Hrtc). exists e.
    split; [by apply (sameGraph_isExit f f')|by apply (sameGraph_rtc f f')]. }
  split; [done|]. split; [by apply Hiff|].
  intros x Hx Hxb. apply Hiff, Hclose; [by apply Hiff|done].
Qed.

(** Two maps with the same edges and no empty child set are equal. *)
Lemma map_eq_children (m m' : DominatorMap) :
  (∀ k v, child m k v ↔ child m' k v) →
  (∀ k, is_Some (m !! k) ↔ ∃ v, child m k v) →
  (∀ k, is_Some (m' !! k) ↔ ∃ v, child m' k v) →
  m = m'.
Proof.
  intros Hch Hk Hk'. apply map_eq. intros k.
  destruct (m !! k) as [s|] eqn:Hs; destruct (m' !! k) as [s'|] eqn:Hs'.
  - f_equal. apply set_eq. intros v. split.
    + intros Hv. destruct (proj1 (Hch k v)) as (s0 & Hs0 & ?); [by exists s|].
      congruence.
    + intros Hv. destruct (proj2 (Hch k v)) as (s0 & Hs0 & ?); [by exists s'|].
      congruence.
  - exfalso. destruct (proj1 (Hk k)) as (v & Hv); [by rewrite Hs|].
    apply Hch in Hv as (s0 & Hs0 & _). congruence.
  - exfalso. destruct (proj1 (Hk' k)) as (v & Hv); [by rewrite Hs'|].
    apply Hch in Hv as (s0 & Hs0 & _). congruence.
  - done.
Qed.

(** X20. The result of [analyze] on a fresh result depends on the graph
    alone: two well-formed functions with the same entry block, the same
    blocks and the same edges get the same two maps, in whatever order
    their block, successor and predecessor lists are given. *)
Theorem analyze_order_independent f f' fuel :
  wfCFG f = true → wfCFG f' = true → sameGraph f f' →
  (S (length (getBasicBlockList f)) < fuel)%nat →
  (S (length (getBasicBlockList f')) < fuel)%nat →
  ∃ r, analyze fuel f emptyInfo = Some r
       ∧ analyze fuel f' emptyInfo = Some r.
Proof.
  intros Hwf Hwf' HG Hfuel Hfuel'.
  destruct (analyze_edges f fuel Hwf Hfuel)
    as ([dt pdt] & Hrun & Hdom & Hpost & Hkd & Hkp & _).
  destruct (analyze_edges f' fuel Hwf' Hfuel')
    as ([dt' pdt'] & Hrun' & Hdom' & Hpost' & Hkd' & Hkp' & _).
  simpl in *. pose proof (sameGraph_sym f f' HG) as HG'.
  assert (dt = dt') as <-.
  { apply map_eq_children; [|done..]. intros k v.
    rewrite Hdom, Hdom'. split.
    - intros (d & b & -> & -> & H). exists d, b.
      split; [done|]. split; [done|]. by eapply sameGraph_closestDom.
    - intros (d & b & -> & -> & H). exists d, b.
      split; [done|]. split; [done|]. by eapply sameGraph_closestDom. }
  assert (pdt = pdt') as <-.
  { apply map_eq_children; [|done..]. intros k v.
    rewrite Hpost, Hpost'. split.
    - intros (d & b & -> & -> & H). exists d, b.
      split; [done|]. split; [done|]. by eapply sameGraph_closestPostDom.
    - intros (d & b & -> & -> & H). exists d, b.
      split; [done|]. split; [done|]. by eapply sameGraph_closestPostDom. }
  by eexists.
Qed.

Lemma analyze_order_independent_witness :
  ∃ r, analyze 7 diamond emptyInfo = Some r
       ∧ analyze 7 diamondSwapped emptyInfo = Some r.
Proof.
  apply (analyze_order_independent diamond diamondSwapped 7).
  - reflexivity.
  - reflexivity.
  - split; [reflexivity|]. split.
    + intros b. simpl. rewrite !elem_of_cons, !elem_of_nil. tauto.
    + intros a b.
      do 5 (destruct a as [|a];
            [simpl; rewrite ?elem_of_cons, ?elem_of_nil; tauto|]).
      simpl. tauto.
  - simpl; lia.
  - simpl; lia.
Defined.

(** ** Blocks that the entry block does not reach *)

Lemma walk_reachable f b W : walk f b W → reachableFromEntry f b.
Proof.
  unfold reachableFromEntry. induction 1 as [|a b W HW IH Hab]; [done|].
  by eapply rtc_r.
Qed.

Section SameReachable.
Variable f f' : SVFFunction.
Hypothesis Hentry : getEntryBlock f = getEntryBlock f'.
Hypothesis Hsuccs :
  ∀ a b, reachableFromEntry f a →
    (b ∈ getSuccessors f a ↔ b ∈ getSuccessors f' a).

Lemma reach_walk_l b W : walk f b W → walk f' b W.
Proof using Hentry Hsuccs.
  induction 1 as [|a b W HW IH Hab].
  - rewrite Hentry. constructor.
  - eapply walk_step; [done|]. apply Hsuccs; [|done].
    by eapply walk_reachable.
Qed.

Lemma reach_walk_r b W : walk f' b W → walk f b W.
Proof using Hentry Hsuccs.
  induction 1 as [|a b W HW IH Hab].
  - rewrite <- Hentry. constructor.
  - eapply walk_step; [done|]. apply Hsuccs; [|done].
    by eapply walk_reachable.
Qed.

Lemma reach_closestDom d b : closestDom f d b ↔ closestDom f' d b.
Proof using Hentry Hsuccs.
  assert (∀ x y, dominates f x y ↔ dominates f' x y) as Hiff.
  { intros x y. split; intros H W HW; apply H.
    - by apply reach_walk_r.
    - by apply reach_walk_l. }
  assert (∀ b, reachableFromEntry f b ↔ reachableFromEntry f' b) as Hreach.
  { intros y. split.
    - intros [W HW]%reachable_walk. eapply walk_reachable.
      by apply reach_walk_l.
    - intros [W HW]%reachable_walk. eapply walk_reachable.
      by apply reach_walk_r. }
  unfold closestDom. rewrite Hreach, Hiff. setoid_rewrite Hiff. done.
Qed.
End SameReachable.

(** X21. Blocks that the entry block does not reach have no influence on
    the dominator map: two well-formed functions with the same entry
    block whose reachable blocks have the same successors get the same
    map from [computeDominators], whatever other blocks and edges they
    hold. *)
Theorem unreachable_part_ignored f f' fuel :
  wfCFG f = true → wfCFG f' = true →
  getEntryBlock f = getEntryBlock f' →
  (∀ a b, reachableFromEntry f a →
     (b ∈ getSuccessors f a ↔ b ∈ getSuccessors f' a)) →
  (S (length (getBasicBlockList f)) < fuel)%nat →
  (S (length (getBasicBlockList f')) < fuel)%nat →
  ∃ m, computeDominators fuel f ∅ = Some m
       ∧ computeDominators fuel f' ∅ = Some m.
Proof.
  intros Hwf Hwf' Hentry Hsuccs Hfuel Hfuel'.
  destruct (analyze_edges f fuel Hwf Hfuel)
    as ([dt pdt] & Hrun & Hdom & _ & Hkd & _).
  destruct (analyze_edges f' fuel Hwf' Hfuel')
    as ([dt' pdt'] & Hrun' & Hdom' & _ & Hkd' & _).
  simpl in *.
  assert (∀ g r, analyze fuel g emptyInfo = Some r →
            computeDominators fuel g ∅ = Some (getDomTreeMap r)) as Hdt.
  { intros g r. unfold analyze. simpl.
    destruct (computeDominators fuel g ∅) as [m|]; [|done]. simpl.
    destruct (computePostDominators fuel g ∅) as [m'|]; [|done]. simpl.
    by intros [= <-]. }
  exists dt. split; [by apply (Hdt f _ Hrun)|].
  rewrite (Hdt f' _ Hrun'). simpl. f_equal.
  apply map_eq_children; [|done..]. intros k v.
  rewrite Hdom, Hdom'. split.
  - intros (d & b & -> & -> & H). exists d, b.
    split; [done|]. split; [done|]. by apply (reach_closestDom f f').
  - intros (d & b & -> & -> & H). exists d, b.
    split; [done|]. split; [done|]. by apply (reach_closestDom f f').
Qed.

Lemma unreachable_part_ignored_witness :
  ∃ m, computeDominators 7 twoEntryLoop ∅ = Some m
       ∧ computeDominators 7 twoEntryLoopAlone ∅ = Some m.
Proof.
  apply (unreachable_part_ignored twoEntryLoop twoEntryLoopAlone 7).
  - reflexivity.
  - reflexivity.
  - reflexivity.
  - intros a b Hreach.
    assert (a ≠ 4%nat) as Ha.
    { revert a Hreach. apply (rtc_ind_r (λ a : BB, a ≠ 4%nat)); [done|].
      intros y z _ Hyz Hy. unfold cfgEdge in Hyz.
      do 4 (destruct y as [|y];
            [simpl in Hyz; rewrite ?elem_of_cons, ?elem_of_nil in Hyz; lia|]).
      destruct y as [|y]; [done|]. simpl in Hyz.
      by apply elem_of_nil in Hyz. }
    do 4 (destruct a as [|a];
          [simpl; rewrite ?elem_of_cons, ?elem_of_nil; tauto|]).
    destruct a as [|a]; [done|]. simpl. tauto.
  - simpl; lia.
  - simpl; lia.
Defined.

Local Open Scope Z_scope.

(** ** The shape of the two maps, completed *)

(** C2, as amended. From a fresh result the dominator map is a tree on
    the blocks the entry block reaches: one edge fewer than blocks, no
    cycle, no parent for the entry block and exactly one parent for every
    other block. The post-dominator map is the tree on the null block and
    the blocks that reach an exit block, without the edges that leave the
    null block: it has no cycle; a block whose slot in [IPdoms] holds the
    index [0] of the null block, which are the exit blocks and the other
    blocks that no other block post-dominates, has no parent; every other
    block that reaches an exit block has exactly one parent; and the map
    holds one edge for each of these, that is, as many edges as the order
    has entries, less one and less the number of parentless blocks. *)
Theorem dominance_maps_shape f fuel :
  wfCFG f = true → (S (length (getBasicBlockList f)) < fuel)%nat →
  ∃ r (order : list BBPtr) (IPdoms : list Z) (Rd Rp Roots : gset BB),
    analyze fuel f emptyInfo = Some r
    ∧ fastIPdoms fuel f = Some (order, IPdoms)
    ∧ (∀ b, b ∈ Rd ↔ reachableFromEntry f b)
    ∧ (size (edgeSet (getDomTreeMap r)) + 1 = size Rd)%nat
    ∧ acyclic (getDomTreeMap r)
    ∧ (¬ ∃ d, child (getDomTreeMap r) d (Some (getEntryBlock f)))
    ∧ (∀ b, b ∈ Rd → b ≠ getEntryBlock f →
         ∃ d, child (getDomTreeMap r) d (Some b)
              ∧ ∀ d', child (getDomTreeMap r) d' (Some b) → d' = d)
    ∧ (∀ b, b ∈ Rp ↔ b ∈ getBasicBlockList f ∧ reachesExit f b)
    ∧ at_ order 0 = Some None
    ∧ length order = S (size Rp)
    ∧ (∀ b, b ∈ Roots ↔
         b ∈ Rp ∧ ∃ i, at_ order i = Some (Some b) ∧ at_ IPdoms i = Some 0)
    ∧ (∀ b, b ∈ Roots ↔ b ∈ Rp ∧ ∀ x, postDominates f x b → x = b)
    ∧ (∀ e, isExit f e → e ∈ Roots)
    ∧ acyclic (getPostDomTreeMap r)
    ∧ (∀ b, b ∈ Roots → ¬ ∃ d, child (getPostDomTreeMap r) d (Some b))
    ∧ (∀ b, b ∈ Rp → b ∉ Roots →
         ∃ d, child (getPostDomTreeMap r) (Some d) (Some b)
              ∧ ∀ d', child (getPostDomTreeMap r) d' (Some b) → d' = Some d)
    ∧ (∀ b d d', child (getPostDomTreeMap r) d b →
         child (getPostDomTreeMap r) d' b → d = d')
    ∧ (size (edgeSet (getPostDomTreeMap r)) + size Roots = size Rp)%nat
    ∧ (size (edgeSet (getPostDomTreeMap r)) + size Roots + 1
       = length order)%nat.
Proof.
  intros Hwf Hfuel.
  destruct (analyze_spec f fuel Hwf Hfuel)
    as (seg' & I & seg & J & r & Hrun & _ & Hfast & Hseg' & HT' & Hall' & _
        & Hch' & Hkey' & Hseg & Hexits & HT & Hall & HE & Hch & Hkey).
  set (Rd := list_to_set (seg' ++ [getEntryBlock f]) : gset BB).
  set (Rp := list_to_set seg : gset BB).
  set (pos := λ b : BB, idxOf (buildIdx (postOrder seg) 0 ∅) (Some b)).
  set (Roots := filter (λ b, at_ J (pos b) = Some 0) Rp).
  exists r, (postOrder seg), J, Rd, Rp, Roots. split; [done|].
  split; [done|].
  assert (getEntryBlock f ∈ Rd) as HeRd.
  { apply elem_of_list_to_set, elem_of_app. right. by left. }
  (* the dominator map *)
  split.
  { intros b. unfold Rd. rewrite elem_of_list_to_set.
    apply (dom_seg_reachable f seg' b Hseg'). }
  split.
  { rewrite (edge_count _ (set_map Some (Rd ∖ {[getEntryBlock f]}))).
    - rewrite size_set_map_inj by (intros x y _ _ [=]; done).
      rewrite size_difference by set_solver. rewrite size_singleton.
      assert (0 < size Rd)%nat; [|lia].
      destruct (decide (size Rd = 0)%nat) as [Hz|]; [|lia].
      apply size_empty_inv in Hz. set_solver.
    - intros v. rewrite elem_of_map. split.
      + intros (b & -> & [Hb Hne]%elem_of_difference).
        destruct (dom_has_parent f seg' I b Hseg' HT' Hall') as (k & Hk).
        * by apply elem_of_list_to_set in Hb.
        * set_solver.
        * exists k. by apply Hch'.
      + intros (k & Hk%Hch').
        pose proof Hk as (x & y & _ & -> & _ & Hy)%published_dom_blocks;
          [|done..].
        exists y. split; [done|]. apply elem_of_difference.
        split; [by apply elem_of_list_to_set|].
        intros ->%elem_of_singleton.
        by apply (dom_entry_no_parent f seg' I k Hseg' HT' Hall').
    - intros v k k' Hk Hk'.
      by apply (dom_unique_parent f seg' I _ k k' v Hseg' HT' Hall' Hch'). }
  split.
  { apply (acyclic_by_rank _ (idxOf (buildIdx (domOrder f seg') 0 ∅))).
    intros k v Hkv%Hch'. by apply (dom_child_rank f seg' I). }
  split.
  { intros (d & Hd%Hch').
    by apply (dom_entry_no_parent f seg' I d Hseg' HT' Hall'). }
  split.
  { intros b Hb%elem_of_list_to_set Hne.
    destruct (dom_has_parent f seg' I b Hseg' HT' Hall' Hb Hne) as (k & Hk).
    exists k. split; [by apply Hch'|]. intros d' Hd'.
    apply (dom_unique_parent f seg' I _ d' k (Some b) Hseg' HT' Hall' Hch');
      [done|by apply Hch']. }
  (* the post-dominator map *)
  assert (∀ b, b ∈ Rp →
            (∃ k, child (getPostDomTreeMap r) k (Some b)) ↔ b ∉ Roots)
    as Hparent.
  { intros b Hb. pose proof Hb as Hbs%elem_of_list_to_set.
    destruct (post_pos_at f seg b Hseg Hbs) as [Hpos Hat]. fold (pos b) in *.
    pose proof (at_range _ _ _ Hat) as Hr.
    destruct (Tree_slot _ J (pos b) HT Hall) as (d & Hd & Hdj); [lia|].
    unfold Roots. rewrite elem_of_filter. split.
    - intros (k & Hk%Hch) [Hz _].
      apply published_postdom in Hk as (j & d' & Hj & Hd' & Hdj' & _ & Hv);
        [|done..].
      pose proof (at_order_inj _ (post_order_NoDup f seg Hseg) _ _ _ Hv Hat) as ->.
      rewrite Hz in Hd'. injection Hd' as <-. lia.
    - intros Hnot. assert (d ≠ 0) as Hd0.
      { intros ->. apply Hnot. by split. }
      destruct (at_defined (postOrder seg) d) as (k & Hk); [lia|].
      exists k. apply Hch, published_postdom; [done..|].
      exists (pos b), d. split; [lia|]. split; [done|]. split; [lia|done]. }
  assert (Roots ⊆ Rp) as Hsub.
  { intros b Hb. unfold Roots in Hb. by apply elem_of_filter in Hb as [_ ?]. }
  assert (length (postOrder seg) = S (size Rp)) as Hlen.
  { unfold postOrder, Rp. simpl. rewrite length_fmap, length_reverse.
    rewrite size_list_to_set; [done|]. by destruct Hseg as (? & _). }
  assert (size (edgeSet (getPostDomTreeMap r)) + size Roots = size Rp)%nat
    as Hcount.
  { rewrite (edge_count _ (set_map Some (Rp ∖ Roots))).
    - rewrite size_set_map_inj by (intros x y _ _ [=]; done).
      rewrite size_difference by done.
      pose proof (subseteq_size _ _ Hsub). lia.
    - intros v. rewrite elem_of_map. split.
      + intros (b & -> & [Hb Hne]%elem_of_difference). by apply Hparent.
      + intros (k & Hk).
        pose proof Hk as Hp%Hch.
        apply published_postdom_blocks in Hp as (x & y & _ & -> & _ & Hy);
          [|done..].
        exists y. split; [done|].
        assert (y ∈ Rp) as HyR by (by apply elem_of_list_to_set).
        apply elem_of_difference. split; [done|].
        apply (Hparent y HyR). by exists k.
    - intros v k k' Hk Hk'.
      by apply (post_unique_parent f seg J _ k k' v Hseg HT Hall Hch). }
  split.
  { intros b. unfold Rp. rewrite elem_of_list_to_set.
    apply (post_seg_reachable f seg b Hwf Hseg Hexits). }
  split; [done|]. split; [done|].
  split.
  { intros b. unfold Roots. rewrite elem_of_filter. split.
    - intros [Hz Hb]. split; [done|]. exists (pos b). split; [|done].
      apply elem_of_list_to_set in Hb.
      by destruct (post_pos_at f seg b Hseg Hb) as [_ ?].
    - intros [Hb (i & Hi & Hz)]. split; [|done].
      destruct (post_at_pos f seg Hseg i b Hi) as (_ & Hpi & _).
      unfold pos. by rewrite Hpi. }
  split.
  { intros b. split.
    - intros Hb. pose proof (Hsub b Hb) as HbR. split; [done|].
      intros x Hx. destruct (decide (x = b)) as [|Hne]; [done|].
      exfalso. apply (Hparent b HbR); [|done].
      destruct (post_has_parent f seg J _ Hwf Hseg Hexits HT Hall HE Hch x b)
        as (d0 & Hd0); [by apply elem_of_list_to_set in HbR|done..|].
      by exists (Some d0).
    - intros [HbR Honly]. destruct (decide (b ∈ Roots)) as [|Hnot]; [done|].
      exfalso. apply (Hparent b HbR) in Hnot as (k & Hk).
      pose proof Hk as Hp%Hch.
      apply published_postdom_blocks in Hp as (d & y & -> & _ & _);
        [|done..].
      destruct (post_parent_closest f seg J _ Hwf Hseg Hexits HT Hall HE Hch
                  d b Hk) as (_ & _ & Hne & Hdom & _).
      by apply Hne, Honly. }
  split.
  { intros e He. unfold Roots. apply elem_of_filter.
    pose proof (Hexits e He) as Hes.
    split; [|by apply elem_of_list_to_set].
    destruct (exit_slot f seg J e Hwf Hseg HT Hall HE He Hes) as (i & Hi & Ho & Hs).
    destruct (post_pos_at f seg e Hseg Hes) as [_ Hat]. fold (pos e) in Hat.
    by rewrite (at_order_inj _ (post_order_NoDup f seg Hseg) _ _ _ Hat Ho). }
  split.
  { apply (acyclic_by_rank _ (idxOf (buildIdx (postOrder seg) 0 ∅))).
    intros k v Hkv%Hch. by apply (post_child_rank f seg J). }
  split.
  { intros b Hb Hex. by apply (Hparent b (Hsub b Hb)) in Hex. }
  split.
  { intros b Hb Hnot. apply (Hparent b Hb) in Hnot as (k & Hk).
    pose proof Hk as Hp%Hch.
    apply published_postdom_blocks in Hp as (d & y & -> & _ & _); [|done..].
    exists d. split; [done|]. intros d' Hd'.
    by apply (post_unique_parent f seg J _ d' (Some d) (Some b)
                Hseg HT Hall Hch). }
  split.
  { intros b d d' Hd Hd'.
    by apply (post_unique_parent f seg J _ d d' b Hseg HT Hall Hch). }
  split; [done|]. lia.
Qed.

Lemma dominance_maps_shape_witness :
  ∃ r (order : list BBPtr) (IPdoms : list Z) (Rd Rp Roots : gset BB),
    analyze 7 diamond emptyInfo = Some r
    ∧ fastIPdoms 7 diamond = Some (order, IPdoms)
    ∧ (∀ b, b ∈ Rd ↔ reachableFromEntry diamond b)
    ∧ (size (edgeSet (getDomTreeMap r)) + 1 = size Rd)%nat
    ∧ acyclic (getDomTreeMap r)
    ∧ (¬ ∃ d, child (getDomTreeMap r) d (Some (getEntryBlock diamond)))
    ∧ (∀ b, b ∈ Rd → b ≠ getEntryBlock diamond →
         ∃ d, child (getDomTreeMap r) d (Some b)
              ∧ ∀ d', child (getDomTreeMap r) d' (Some b) → d' = d)
    ∧ (∀ b, b ∈ Rp ↔ b ∈ getBasicBlockList diamond ∧ reachesExit diamond b)
    ∧ at_ order 0 = Some None
    ∧ length order = S (size Rp)
    ∧ (∀ b, b ∈ Roots ↔
         b ∈ Rp ∧ ∃ i, at_ order i = Some (Some b) ∧ at_ IPdoms i = Some 0)
    ∧ (∀ b, b ∈ Roots ↔ b ∈ Rp ∧ ∀ x, postDominates diamond x b → x = b)
    ∧ (∀ e, isExit diamond e → e ∈ Roots)
    ∧ acyclic (getPostDomTreeMap r)
    ∧ (∀ b, b ∈ Roots → ¬ ∃ d, child (getPostDomTreeMap r) d (Some b))
    ∧ (∀ b, b ∈ Rp → b ∉ Roots →
         ∃ d, child (getPostDomTreeMap r) (Some d) (Some b)
              ∧ ∀ d', child (getPostDomTreeMap r) d' (Some b) → d' = Some d)
    ∧ (∀ b d d', child (getPostDomTreeMap r) d b →
         child (getPostDomTreeMap r) d' b → d = d')
    ∧ (size (edgeSet (getPostDomTreeMap r)) + size Roots = size Rp)%nat
    ∧ (size (edgeSet (getPostDomTreeMap r)) + size Roots + 1
       = length order)%nat
    ∧ getDomTreeMap r = diamondDoms
    ∧ getPostDomTreeMap r = diamondPostDoms
    ∧ size (edgeSet diamondPostDoms) = 4%nat.
Proof.
  destruct (dominance_maps_shape diamond 7)
    as (r & order & IPdoms & Rd & Rp & Roots & Hr & Hf & H1 & H2 & H3 & H4
        & H5 & H6 & H7 & H8 & H9 & H10 & H11 & H12 & H13 & H14 & H15 & H16
        & H17);
    [reflexivity|simpl; lia|].
  exists r, order, IPdoms, Rd, Rp, Roots.
  assert (analyze 7 diamond emptyInfo
          = Some {| getDomTreeMap := diamondDoms;
                    getPostDomTreeMap := diamondPostDoms |}) as Hv
    by (vm_compute; reflexivity).
  rewrite Hv in Hr. injection Hr as <-.
  repeat split; try assumption; try reflexivity.
  - by apply H1.
  - by apply H1.
  - by apply H6.
  - by apply H6.
  - by intros ?%H6.
  - by apply H9.
  - by apply H9.
  - by intros ?%H9.
  - by apply H10.
  - by apply H10.
  - by intros ?%H10.
Defined.
